(** * Horizon densification: a shallow embedding of [interpolate_horizon.py]

    The script reads a horizon file (header lines, then points
    [x y z col row]), builds a point store keyed by [(col,row)], derives the
    rows present in each column and the columns present in each row, infers
    a spacing per axis, generates new grid keys between consecutive
    neighbours at a target spacing, asks a scattered-data estimator for the
    missing [z] values, and writes originals and new points sorted by key.

    Modelling choices.
    - [col], [row] and the target spacing are Python integers: [Z].
    - [x], [y], [z] are Python floats, that is IEEE 754 binary64 numbers:
      [float], with the primitive operations (round to nearest, ties to
      even).  Infinities and NaN are values of the type; NaN is the
      undefined sentinel of the estimator.
    - Python dictionaries iterate in insertion order, and that order matters
      here (the first 100 axis keys; the order of generation), so a
      dictionary is an association list with in-place update ([Dict]).
    - Exceptions are explicit: [result].  Printing and file writes are
      threaded through a [world].  A file is the list of lines that
      iterating over it yields; what is written to a file is the
      concatenation of the strings written, cut into lines again. *)

From Stdlib Require Import Floats.
From Stdlib Require Import String Ascii.
From Stdlib Require Import List ZArith Lia Bool.
From Stdlib Require Import Sorting.Sorted.
Import ListNotations.

Set Implicit Arguments.
Local Open Scope Z_scope.

(** ** Exceptions *)

Inductive exn : Type :=
| ValueError          (* range() arg 3 must not be zero; shape mismatch *)
| KeyError            (* dictionary subscript with an absent key *)
| ZeroDivisionError   (* true division by zero *)
| OverflowError       (* integer division result too large for a float *)
| IndexError          (* sequence subscript out of range *)
| LibraryError.       (* raised inside the scattered-data library *)

Inductive result (A : Type) : Type :=
| Ok (a : A)
| Raise (e : exn).

Arguments Ok {A} a.
Arguments Raise {A} e.

Definition bind {A B : Type} (m : result A) (k : A -> result B) : result B :=
  match m with
  | Ok a => k a
  | Raise e => Raise e
  end.

Declare Scope result_scope.
Delimit Scope result_scope with result.
Notation "x <- m ;; k" := (bind m (fun x => k))
  (at level 61, m at next level, right associativity) : result_scope.
Local Open Scope result_scope.

(** Run [f] on every element in order and concatenate what it appends;
    the first exception aborts the loop. *)
Fixpoint for_each {A B : Type} (f : A -> result (list B)) (l : list A)
  : result (list B) :=
  match l with
  | [] => Ok []
  | a :: l' =>
      out <- f a ;;
      rest <- for_each f l' ;;
      Ok (out ++ rest)
  end.

(** ** Insertion-ordered dictionaries *)

Class EqKey (K : Type) : Type := { keqb : K -> K -> bool }.

Class EqKeyLaws (K : Type) {E : EqKey K} : Prop := {
  keqb_eq : forall a b : K, keqb a b = true <-> a = b
}.

Arguments EqKeyLaws K {E}.

#[export] Instance EqKey_Z : EqKey Z := {| keqb := Z.eqb |}.

Abbreviation key := (Z * Z)%type (only parsing).

Definition key_eqb (a b : key) : bool :=
  (fst a =? fst b) && (snd a =? snd b).

#[export] Instance EqKey_key : EqKey key := {| keqb := key_eqb |}.

Module Dict.
Section Ops.
Context {K V : Type} `{EqKey K}.

Definition t : Type := list (K * V).

(** [d.get(k)] / [d[k]] *)
Fixpoint get (k : K) (d : t) : option V :=
  match d with
  | [] => None
  | (k', v) :: d' => if keqb k k' then Some v else get k d'
  end.

(** [k in d] *)
Definition mem (k : K) (d : t) : bool :=
  match get k d with Some _ => true | None => false end.

(** [d[k] = v]: an existing key keeps its position, a new key goes last. *)
Fixpoint set (k : K) (v : V) (d : t) : t :=
  match d with
  | [] => [(k, v)]
  | (k', v') :: d' =>
      if keqb k k' then (k', v) :: d' else (k', v') :: set k v d'
  end.

Definition keys (d : t) : list K := map fst d.

(** [d[k]] as an expression: [KeyError] when absent. *)
Definition getitem (k : K) (d : t) : result V :=
  match get k d with Some v => Ok v | None => Raise KeyError end.
End Ops.
Arguments t : clear implicits.
End Dict.

(** ** Data model *)

Record point : Type := mkPoint {
  px : float; py : float; pz : float; pcol : Z; prow : Z
}.

Inductive method : Type := Linear | Cubic | Nearest.

(** [{(p['col'], p['row']): (p['x'], p['y'], p['z']) for p in data_points}] *)
Definition col_row_map (data_points : list point)
  : Dict.t key (float * float * float) :=
  fold_left
    (fun d p => Dict.set (pcol p, prow p) (px p, py p, pz p) d)
    data_points [].

(** [sorted(set(l))]: the strictly increasing list of the elements of [l]. *)
Fixpoint insert_uniq (z : Z) (l : list Z) : list Z :=
  match l with
  | [] => [z]
  | y :: l' =>
      if z <? y then z :: l
      else if z =? y then l
      else y :: insert_uniq z l'
  end.

Definition sorted_set (l : list Z) : list Z := fold_right insert_uniq [] l.

Definition axis_index : Type := Dict.t Z (list Z).

(** [if k not in d: d[k] = []] *)
Definition init_entry (k : Z) (d : axis_index) : axis_index :=
  if Dict.mem k d then d else Dict.set k [] d.

(** [d[k].append(v)] *)
Definition append_entry (k v : Z) (d : axis_index) : axis_index :=
  match Dict.get k d with
  | Some l => Dict.set k (l ++ [v]) d
  | None => d
  end.

(** The loop over [data_points] that fills both axis dictionaries. *)
Definition collect_axes (data_points : list point) : axis_index * axis_index :=
  fold_left
    (fun (acc : axis_index * axis_index) p =>
       let col := pcol p in
       let row := prow p in
       let c2r := init_entry col (fst acc) in
       let r2c := init_entry row (snd acc) in
       (append_entry col row c2r, append_entry row col r2c))
    data_points ([], []).

(** [for k in d: d[k] = sorted(set(d[k]))] *)
Definition sort_entries (d : axis_index) : axis_index :=
  map (fun kv => (fst kv, sorted_set (snd kv))) d.

Definition col_to_rows (data_points : list point) : axis_index :=
  sort_entries (fst (collect_axes data_points)).

Definition row_to_cols (data_points : list point) : axis_index :=
  sort_entries (snd (collect_axes data_points)).

(** ** Spacing inference (Grid Topology Analyzer) *)

(** The gaps one axis entry contributes:
    [if len(rows) > 1: for i in range(len(rows) - 1): ...] *)
Definition intervals_of (rows : list Z) : list Z :=
  if (1 <? length rows)%nat then
    flat_map
      (fun i =>
         let interval := nth (S i) rows 0 - nth i rows 0 in
         if 0 <? interval then [interval] else [])
      (seq 0 (length rows - 1))
  else [].

(** [for key, entries in list(d.items())[:100]] *)
Definition intervals_all (idx : axis_index) : list Z :=
  flat_map (fun kv => intervals_of (snd kv)) (firstn 100 idx).

Definition row_intervals_all (data_points : list point) : list Z :=
  intervals_all (col_to_rows data_points).

Definition col_intervals_all (data_points : list point) : list Z :=
  intervals_all (row_to_cols data_points).

(** [collections.Counter(l)]: keys in order of first occurrence. *)
Definition Counter (l : list Z) : Dict.t Z Z :=
  fold_left
    (fun d g =>
       Dict.set g (match Dict.get g d with Some n => n + 1 | None => 1 end) d)
    l [].

(** [max(x :: rest, key=f)]: the first maximal element. *)
Definition py_max_by {A : Type} (f : A -> Z) (x : A) (rest : list A) : A :=
  fold_left (fun best y => if f best <? f y then y else best) rest x.

Definition most_common_interval (intervals : list Z) : Z :=
  match intervals with
  | [] => 4
  | _ :: _ =>
      let interval_counts := Counter intervals in
      let filtered := filter (fun kv => 1 <? fst kv) interval_counts in
      match filtered with
      | [] => 4
      | x :: rest => fst (py_max_by snd x rest)
      end
  end.

Definition col_spacing (data_points : list point) : Z :=
  most_common_interval (col_intervals_all data_points).

Definition row_spacing (data_points : list point) : Z :=
  most_common_interval (row_intervals_all data_points).

(** ** Gap Generator *)

(** [range(start, stop, step)] *)
Definition py_range (start stop step : Z) : result (list Z) :=
  if step =? 0 then Raise ValueError
  else
    let n :=
      if 0 <? step then (stop - start + step - 1) / step
      else (start - stop - step - 1) / (- step) in
    Ok (map (fun k => start + Z.of_nat k * step) (seq 0 (Z.to_nat n))).

(** An integer as an exact binary number, before any rounding. *)
Definition sf_of_int (a : Z) : spec_float :=
  match a with
  | Z0 => S754_zero false
  | Zpos p => S754_finite false p 0
  | Zneg p => S754_finite true p 0
  end.

(** The quotient of two integers rounded once, to the nearest float
    (ties to even): the operands themselves are not rounded. *)
Definition int_ratio (a b : Z) : float :=
  SF2Prim (SFdiv prec emax (sf_of_int a) (sf_of_int b)).

(** The least magnitude that rounds beyond the largest float. *)
Definition float_overflow : Z := 2 ^ 1024 - 2 ^ 970.

(** [a / b] on integers *)
Definition truediv (a b : Z) : result float :=
  if b =? 0 then Raise ZeroDivisionError
  else if float_overflow * Z.abs b <=? Z.abs a then Raise OverflowError
  else Ok (int_ratio a b).

Abbreviation triple := (float * float * float)%type (only parsing).

Definition point_store : Type := Dict.t key triple.
Definition output_map : Type := Dict.t key triple.

(** A pending point: the entry appended to [need_interp_indices] paired
    with the entry appended to [need_interp_points] in the same step. *)
Abbreviation candidate := ((Z * Z) * (float * float))%type (only parsing).

Definition need_interp_indices (cands : list candidate) : list key :=
  map fst cands.
Definition need_interp_points (cands : list candidate) : list (float * float) :=
  map snd cands.

(** [for (col, row), (x, y, z) in col_row_map.items(): new_points[...] = ...] *)
Definition copy_store (store : point_store) : output_map :=
  fold_left
    (fun d kv =>
       Dict.set (fst kv)
         (fst (fst (snd kv)), snd (fst (snd kv)), snd (snd kv)) d)
    store [].

Section Generator.
Variable store : point_store.       (* col_row_map *)
Variable new_points : output_map.   (* as it is while candidates are generated *)
Variable target_spacing : Z.

(** Body of [for new_row in range(...)] in the column pass. *)
Definition emit_row (col current_row next_row new_row : Z)
  : result (list candidate) :=
  if Dict.mem (col, new_row) new_points then Ok []
  else
    p1 <- Dict.getitem (col, current_row) store ;;
    p2 <- Dict.getitem (col, next_row) store ;;
    ratio <- truediv (new_row - current_row) (next_row - current_row) ;;
    let y1 := snd (fst p1) in
    let y2 := snd (fst p2) in
    let new_y := (y1 + (y2 - y1) * ratio)%float in
    let new_x := fst (fst p1) in
    Ok [((col, new_row), (new_x, new_y))].

Definition fill_rows (col current_row next_row : Z) : result (list candidate) :=
  news <- py_range (current_row + target_spacing) next_row target_spacing ;;
  for_each (emit_row col current_row next_row) news.

Definition column_gaps (col : Z) (rows : list Z) : result (list candidate) :=
  for_each
    (fun i => fill_rows col (nth i rows 0) (nth (S i) rows 0))
    (seq 0 (length rows - 1)).

Definition column_pass (c2r : axis_index) : result (list candidate) :=
  for_each (fun kv => column_gaps (fst kv) (snd kv)) c2r.

(** Body of [for new_col in range(...)] in the row pass. *)
Definition emit_col (row current_col next_col new_col : Z)
  : result (list candidate) :=
  if Dict.mem (new_col, row) new_points then Ok []
  else
    p1 <- Dict.getitem (current_col, row) store ;;
    p2 <- Dict.getitem (next_col, row) store ;;
    ratio <- truediv (new_col - current_col) (next_col - current_col) ;;
    let x1 := fst (fst p1) in
    let x2 := fst (fst p2) in
    let new_x := (x1 + (x2 - x1) * ratio)%float in
    let new_y := snd (fst p1) in
    Ok [((new_col, row), (new_x, new_y))].

Definition fill_cols (row current_col next_col : Z) : result (list candidate) :=
  news <- py_range (current_col + target_spacing) next_col target_spacing ;;
  for_each (emit_col row current_col next_col) news.

Definition row_gaps (row : Z) (cols : list Z) : result (list candidate) :=
  for_each
    (fun i => fill_cols row (nth i cols 0) (nth (S i) cols 0))
    (seq 0 (length cols - 1)).

Definition row_pass (r2c : axis_index) : result (list candidate) :=
  for_each (fun kv => row_gaps (fst kv) (snd kv)) r2c.
End Generator.

(** Both passes on the data: everything appended to the two
    [need_interp_*] lists, in order.  [new_points] holds only the originals
    during both passes: nothing is added to it before the estimation step. *)
Definition gap_generator (data_points : list point) (target_spacing : Z)
  : result (list candidate) :=
  let store := col_row_map data_points in
  let new_points := copy_store store in
  by_col <- column_pass store new_points target_spacing (col_to_rows data_points) ;;
  by_row <- row_pass store new_points target_spacing (row_to_cols data_points) ;;
  Ok (by_col ++ by_row).

(** ** Value Estimator and merge *)

(** [a[mask]] for a boolean mask *)
Fixpoint mask_select {A : Type} (a : list A) (mask : list bool)
  : result (list A) :=
  match a, mask with
  | [], [] => Ok []
  | x :: a', m :: mask' =>
      rest <- mask_select a' mask' ;;
      Ok (if m then x :: rest else rest)
  | _, _ => Raise IndexError
  end.

(** [a[mask] = b] for a boolean mask: the selected places take the
    elements of [b] in order. *)
Fixpoint mask_assign (a : list float) (mask : list bool) (b : list float)
  : result (list float) :=
  match a, mask with
  | [], [] => match b with [] => Ok [] | _ :: _ => Raise ValueError end
  | x :: a', true :: mask' =>
      match b with
      | y :: b' => rest <- mask_assign a' mask' b' ;; Ok (y :: rest)
      | [] => Raise ValueError
      end
  | x :: a', false :: mask' =>
      rest <- mask_assign a' mask' b ;; Ok (x :: rest)
  | _, _ => Raise IndexError
  end.

(** [for i, (new_col, new_row) in enumerate(need_interp_indices):
       new_points[(new_col, new_row)] = (..., float(z_interpolated[i]))] *)
Fixpoint add_results (i : nat) (cands : list candidate)
    (z_interpolated : list float) (new_points : output_map)
  : result output_map :=
  match cands with
  | [] => Ok new_points
  | (k, xy) :: rest =>
      match nth_error z_interpolated i with
      | Some z =>
          add_results (S i) rest z_interpolated
            (Dict.set k (fst xy, snd xy, z) new_points)
      | None => Raise IndexError
      end
  end.

(** The scattered-data routine of the numerical library:
    [griddata points values queries method], one result per query,
    NaN where the method is undefined. *)
Definition estimator : Type :=
  list (float * float) -> list float -> list (float * float) -> method ->
  result (list float).

Section Estimation.
Variable griddata : estimator.

Definition estimate_z (data_points : list point) (cands : list candidate)
    (m : method) : result (list float) :=
  let points_xy := map (fun p => (px p, py p)) data_points in
  let values_z := map pz data_points in
  let interp_points_xy := need_interp_points cands in
  z_interpolated <- griddata points_xy values_z interp_points_xy m ;;
  let nan_mask := map is_nan z_interpolated in
  if existsb (fun b => b) nan_mask then
    undefined_xy <- mask_select interp_points_xy nan_mask ;;
    z_nearest <- griddata points_xy values_z undefined_xy Nearest ;;
    mask_assign z_interpolated nan_mask z_nearest
  else Ok z_interpolated.

(** The computation of [interpolate_horizon] between reading and
    writing: the final [new_points]. *)
Definition interpolate_points (data_points : list point)
    (target_spacing : Z) (m : method) : result output_map :=
  let new_points := copy_store (col_row_map data_points) in
  cands <- gap_generator data_points target_spacing ;;
  if (0 <? length cands)%nat then
    z_interpolated <- estimate_z data_points cands m ;;
    add_results 0 cands z_interpolated new_points
  else Ok new_points.
End Estimation.

(** A reference estimator, used to run the model on concrete data:
    exact nearest-sample lookup (the first closest sample), and for the
    other two methods a stand-in that reports every query as undefined,
    as the library does outside the convex hull of the samples. *)
Definition dist2 (a b : float * float) : float :=
  ((fst a - fst b) * (fst a - fst b) + (snd a - snd b) * (snd a - snd b))%float.

Fixpoint closest (q : float * float) (best : (float * float) * float)
    (rest : list ((float * float) * float)) : float :=
  match rest with
  | [] => snd best
  | s :: rest' =>
      if PrimFloat.leb (dist2 q (fst best)) (dist2 q (fst s))
      then closest q best rest'
      else closest q s rest'
  end.

Definition reference_griddata : estimator :=
  fun points values queries m =>
    match m with
    | Nearest =>
        match combine points values with
        | [] => Raise LibraryError
        | s :: rest => Ok (map (fun q => closest q s rest) queries)
        end
    | Linear | Cubic => Ok (map (fun _ => nan) queries)
    end.

(** ** Text of a horizon file

    A character is a code point below 256; [is_space] is [str.isspace]
    on that range. *)

Definition is_space (c : ascii) : bool :=
  let n := nat_of_ascii c in
  (((9 <=? n) && (n <=? 13)) || ((28 <=? n) && (n <=? 32))
   || (n =? 133) || (n =? 160))%nat.

Fixpoint lstrip (s : string) : string :=
  match s with
  | EmptyString => EmptyString
  | String c s' => if is_space c then lstrip s' else s
  end.

Fixpoint rstrip (s : string) : string :=
  match s with
  | EmptyString => EmptyString
  | String c s' =>
      match rstrip s' with
      | EmptyString => if is_space c then EmptyString else String c EmptyString
      | r => String c r
      end
  end.

(** [s.strip()] *)
Definition strip (s : string) : string := rstrip (lstrip s).

(** [s.startswith(p)] *)
Definition startswith (p s : string) : bool := String.prefix p s.

Definition is_empty (s : string) : bool :=
  match s with EmptyString => true | String _ _ => false end.

(** [s.split()]: the maximal runs of non-space characters. *)
Fixpoint split_from (cur s : string) : list string :=
  match s with
  | EmptyString => if is_empty cur then [] else [cur]
  | String c s' =>
      if is_space c
      then (if is_empty cur then split_from EmptyString s'
            else cur :: split_from EmptyString s')
      else split_from (cur ++ String c EmptyString) s'
  end.

Definition split (s : string) : list string := split_from EmptyString s.

Section Reader.
(** [float(s)] and [int(s)]: [None] stands for [ValueError]. *)
Variable float_of_string : string -> option float.
Variable int_of_string : string -> option Z.

(** The [try] block of the reader on the fields of one line. *)
Definition parse_fields (parts : list string) : option point :=
  match parts with
  | f0 :: f1 :: f2 :: f3 :: f4 :: _ =>
      match float_of_string f0, float_of_string f1, float_of_string f2,
            int_of_string f3, int_of_string f4 with
      | Some x, Some y, Some z, Some col, Some row =>
          Some (mkPoint x y z col row)
      | _, _, _, _, _ => None
      end
  | _ => None
  end.

Record reader_state : Type := mkReader {
  header_lines : list string;
  data_points : list point;
  in_header : bool
}.

(** One iteration of [for line in f]. *)
Definition read_line (st : reader_state) (line : string) : reader_state :=
  let line_stripped := strip line in
  if in_header st || is_empty line_stripped || startswith "#" line_stripped
  then
    mkReader (header_lines st ++ [line]) (data_points st)
      (if startswith "# End:" line_stripped then false else in_header st)
  else
    match parse_fields (split line_stripped) with
    | Some p => mkReader (header_lines st) (data_points st ++ [p]) (in_header st)
    | None => st
    end.

(** [read_horizon_file] on the lines of an opened file. *)
Definition read_lines (lines : list string) : list string * list point :=
  let st := fold_left read_line lines (mkReader [] [] true) in
  (header_lines st, data_points st).
End Reader.

(** ** The world: files and standard output *)

(** What the script prints.  The text of a line is not modelled, only
    which line it is and the values it shows.  Elapsed times are not part
    of the model: a line that reports one carries no number, and the
    average-speed line, printed only when the clock advanced, is left
    out. *)
Inductive message : Type :=
| MsgRule | MsgTitle | MsgBlank
| MsgReading (input_file : string)
| MsgFileNotFound (filename : string)
| MsgPointsRead (n : nat)
| MsgNoPoints                          (* the empty-input diagnostic *)
| MsgReadTime
| MsgColumns (n : nat) | MsgRows (n : nat)
| MsgSpacing (col_spacing row_spacing : Z)
| MsgTarget (target_spacing : Z)
| MsgMethod (m : method)
| MsgGenerating
| MsgOriginal (n : nat) | MsgNeedInterp (n : nat)
| MsgInterpStart (m : method)
| MsgNaNFound (n : nat)
| MsgInterpDone
| MsgNoInterp
| MsgWriting
| MsgProgress (processed total : nat)
| MsgDone
| MsgTotal (processed : nat)
| MsgOriginalCount (n : nat)
| MsgAdded (n : nat)
| MsgWriteTime | MsgTotalTime
| MsgSaved (output_file : string).

Record world : Type := mkWorld {
  files : list (string * list string);   (* path, lines *)
  stdout : list message
}.

Inductive outcome (A : Type) : Type :=
| Done (a : A)            (* the call returned *)
| SysExit (code : Z)      (* sys.exit(code) *)
| Uncaught (e : exn).     (* an exception left the call *)

Arguments Done {A} a.
Arguments SysExit {A} code.
Arguments Uncaught {A} e.

Definition io (A : Type) : Type := world -> outcome A * world.

Definition ret {A : Type} (a : A) : io A := fun w => (Done a, w).

Definition io_bind {A B : Type} (m : io A) (k : A -> io B) : io B :=
  fun w =>
    match m w with
    | (Done a, w') => k a w'
    | (SysExit c, w') => (SysExit c, w')
    | (Uncaught e, w') => (Uncaught e, w')
    end.

Declare Scope io_scope.
Delimit Scope io_scope with io.
Notation "x <~ m ;; k" := (io_bind m (fun x => k))
  (at level 61, m at next level, right associativity) : io_scope.
Notation "m ;;; k" := (io_bind m (fun _ => k))
  (at level 61, right associativity) : io_scope.
Local Open Scope io_scope.

Definition print (m : message) : io unit :=
  fun w => (Done tt, mkWorld (files w) (stdout w ++ [m])).

Definition sys_exit {A : Type} (code : Z) : io A := fun w => (SysExit code, w).

Definition lift {A : Type} (r : result A) : io A :=
  fun w => match r with Ok a => (Done a, w) | Raise e => (Uncaught e, w) end.

Fixpoint lookup_file (path : string) (fs : list (string * list string))
  : option (list string) :=
  match fs with
  | [] => None
  | (p, lines) :: fs' =>
      if String.eqb path p then Some lines else lookup_file path fs'
  end.

Fixpoint store_file (path : string) (lines : list string)
    (fs : list (string * list string)) : list (string * list string) :=
  match fs with
  | [] => [(path, lines)]
  | (p, old) :: fs' =>
      if String.eqb path p then (p, lines) :: fs'
      else (p, old) :: store_file path lines fs'
  end.

(** The line feed and the carriage return. *)
Definition LF : ascii := "010"%char.
Definition CR : ascii := "013"%char.
Definition newline : string := String LF EmptyString.

(** The lines that [for line in f] yields on a text: a line ends at a
    line feed, at a carriage return followed by a line feed, or at a lone
    carriage return, and each of these ends is reported as a line feed;
    the last line may have no end. *)
Fixpoint splitlines (s : string) : list string :=
  match s with
  | EmptyString => []
  | String c rest =>
      if Ascii.eqb c LF then newline :: splitlines rest
      else if Ascii.eqb c CR then
        match rest with
        | String c' _ =>
            if Ascii.eqb c' LF then splitlines rest
            else newline :: splitlines rest
        | EmptyString => [newline]
        end
      else
        match splitlines rest with
        | [] => [String c EmptyString]
        | l :: ls => String c l :: ls
        end
  end.

(** [with open(path, 'w') as f: ... f.write(s) ...]: the file then holds
    the strings written one after the other. *)
Definition write_file (path : string) (written : list string) : io unit :=
  fun w =>
    (Done tt,
     mkWorld (store_file path (splitlines (String.concat "" written)) (files w))
       (stdout w)).

(** [sorted(items, key=lambda x: (x[0][0], x[0][1]))]: a stable sort. *)
Definition key_leb (a b : key) : bool :=
  (fst a <? fst b) || ((fst a =? fst b) && (snd a <=? snd b)).

Fixpoint insert_by_key {V : Type} (x : key * V) (l : list (key * V))
  : list (key * V) :=
  match l with
  | [] => [x]
  | y :: l' =>
      if key_leb (fst x) (fst y) then x :: l else y :: insert_by_key x l'
  end.

Definition sort_by_key {V : Type} (l : list (key * V)) : list (key * V) :=
  fold_right insert_by_key [] l.

Definition count_true (mask : list bool) : nat :=
  List.length (filter (fun b => b) mask).

Section Program.
Variable float_of_string : string -> option float.
Variable int_of_string : string -> option Z.
Variable griddata : estimator.
(** The f-string of one output line, up to its final line feed. *)
Variable format_point : float -> float -> float -> Z -> Z -> string.

Definition read_horizon_file (filename : string)
  : io (list string * list point) :=
  fun w =>
    match lookup_file filename (files w) with
    | Some lines => ret (read_lines float_of_string int_of_string lines) w
    | None => (print (MsgFileNotFound filename) ;;; sys_exit 1) w
    end.

(** [for processed, ... in enumerate(sorted_points, 1):
      if processed % 10000 == 0: print(progress)] *)
Definition progress_messages (total : nat) : list message :=
  flat_map
    (fun processed =>
       if Z.of_nat processed mod 10000 =? 0 then [MsgProgress processed total]
       else [])
    (seq 1 total).

Fixpoint print_all (ms : list message) : io unit :=
  match ms with
  | [] => ret tt
  | m :: ms' => print m ;;; print_all ms'
  end.

Definition interpolate_horizon (input_file output_file : string)
    (target_spacing : Z) (m : method) : io unit :=
  print MsgRule ;;; print MsgTitle ;;; print MsgRule ;;; print MsgBlank ;;;
  print (MsgReading input_file) ;;;
  hd <~ read_horizon_file input_file ;;
  let header := fst hd in
  let points := snd hd in
  print (MsgPointsRead (List.length points)) ;;;
  if (List.length points =? 0)%nat then
    print MsgNoPoints
  else
    print MsgReadTime ;;;
    let store := col_row_map points in
    print (MsgColumns (List.length (col_to_rows points))) ;;;
    print (MsgRows (List.length (row_to_cols points))) ;;;
    print (MsgSpacing (col_spacing points) (row_spacing points)) ;;;
    print (MsgTarget target_spacing) ;;;
    print (MsgMethod m) ;;;
    print MsgGenerating ;;;
    let new_points := copy_store store in
    cands <~ lift (gap_generator points target_spacing) ;;
    print (MsgOriginal (List.length new_points)) ;;;
    print (MsgNeedInterp (List.length cands)) ;;;
    final <~
      (if (0 <? List.length cands)%nat then
         print (MsgInterpStart m) ;;;
         let points_xy := map (fun p => (px p, py p)) points in
         let values_z := map pz points in
         let interp_points_xy := need_interp_points cands in
         z_interpolated <~ lift (griddata points_xy values_z interp_points_xy m) ;;
         let nan_mask := map is_nan z_interpolated in
         z_filled <~
           (if existsb (fun b => b) nan_mask then
              print (MsgNaNFound (count_true nan_mask)) ;;;
              undefined_xy <~ lift (mask_select interp_points_xy nan_mask) ;;
              z_nearest <~ lift (griddata points_xy values_z undefined_xy Nearest) ;;
              lift (mask_assign z_interpolated nan_mask z_nearest)
            else ret z_interpolated) ;;
         merged <~ lift (add_results 0 cands z_filled new_points) ;;
         print MsgInterpDone ;;;
         ret merged
       else
         print MsgNoInterp ;;; ret new_points) ;;
    print MsgWriting ;;;
    let sorted_points := sort_by_key final in
    let total_points := List.length sorted_points in
    write_file output_file
      (header ++
       map (fun kv =>
              format_point (fst (fst (snd kv))) (snd (fst (snd kv)))
                (snd (snd kv)) (fst (fst kv)) (snd (fst kv)) ++ newline)%string
           sorted_points) ;;;
    print_all (progress_messages total_points) ;;;
    print MsgDone ;;;
    print (MsgTotal total_points) ;;;
    print (MsgOriginalCount (List.length store)) ;;;
    print (MsgAdded (List.length (need_interp_points cands))) ;;;
    print MsgWriteTime ;;; print MsgTotalTime ;;;
    print (MsgSaved output_file) ;;;
    print MsgRule.
End Program.

(** ** Vocabulary of the statements *)

Definition point_key (p : point) : key := (pcol p, prow p).

(** The gaps between consecutive entries of a sequence. *)
Fixpoint consecutive_gaps (l : list Z) : list Z :=
  match l with
  | a :: ((b :: _) as tl) => (b - a) :: consecutive_gaps tl
  | _ => []
  end.

(** The positive gaps between consecutive entries over the first 100
    axis keys of an index. *)
Definition observed_gaps (idx : axis_index) : list Z :=
  filter (fun g => 0 <? g)
    (flat_map (fun kv => consecutive_gaps (snd kv)) (firstn 100 idx)).

Definition occurrences (g : Z) (l : list Z) : nat := count_occ Z.eq_dec l g.

(** No gap between consecutive entries of the index exceeds [T]. *)
Definition gaps_within (T : Z) (idx : axis_index) : Prop :=
  forall kv g, In kv idx -> In g (consecutive_gaps (snd kv)) -> g <= T.

(** [a] and [b] are neighbours in [l]: [b] follows [a] immediately. *)
Definition consecutive_in (l : list Z) (a b : Z) : Prop :=
  exists i, (S i < List.length l)%nat /\ nth i l 0 = a /\ nth (S i) l 0 = b.

(** The stripped line starts with the end-of-header token. *)
Definition is_end_marker (line : string) : bool :=
  startswith "# End:" (strip line).

(** The stripped line is empty or starts with [#]. *)
Definition blank_or_comment (line : string) : bool :=
  is_empty (strip line) || startswith "#" (strip line).

(** The points that carry the keys and values of the entries of an
    output mapping, in the given order. *)
Definition point_of_entry (kv : key * triple) : point :=
  mkPoint (fst (fst (snd kv))) (snd (fst (snd kv))) (snd (snd kv))
    (fst (fst kv)) (snd (fst kv)).

Definition reload (entries : list (key * triple)) : list point :=
  map point_of_entry entries.

(** The rule of spacing inference, read on an axis index: 4 when no
    sampled gap exceeds 1, otherwise a most frequent sampled gap above 1. *)
Definition spacing_rule (idx : axis_index) (s : Z) : Prop :=
  let gaps := observed_gaps idx in
  ((forall g, In g gaps -> g <= 1) -> s = 4) /\
  ((exists g, In g gaps /\ 1 < g) ->
   In s gaps /\ 1 < s /\
   forall g, In g gaps -> 1 < g -> (occurrences g gaps <= occurrences s gaps)%nat).

(** An axis dictionary groups the pairs seen so far by their first
    component. *)
Definition groups (d : axis_index) (pairs : list (Z * Z)) : Prop :=
  NoDup (Dict.keys d) /\
  forall k,
    match Dict.get k d with
    | Some l => forall v, In v l <-> In (k, v) pairs
    | None => forall v, ~ In (k, v) pairs
    end.

(** An original triple as it sits in the output mapping:
    [new_points[(col, row)] = (x, y, z)]. *)
Definition as_output (v : triple) : triple :=
  (fst (fst v), snd (fst v), snd v).

(** What is assumed of an estimator: a call that returns gives one
    result per query. *)
Definition griddata_shape (griddata : estimator) : Prop :=
  forall points values queries m zs,
    griddata points values queries m = Ok zs ->
    List.length zs = List.length queries.

(** Nearest-sample lookup answers every query with the value of one of
    the samples. *)
Definition nearest_sample (griddata : estimator) : Prop :=
  forall points values queries zs,
    griddata points values queries Nearest = Ok zs ->
    Forall (fun z => In z values) zs.

(** The value at place [i] once the undefined places of [z0] have taken
    the elements of [zn] in order: [z0[i]] when that is not NaN, otherwise
    the element of [zn] whose index is the number of undefined places
    before [i]. *)
Definition refilled (z0 zn : list float) (i : nat) : option float :=
  match nth_error z0 i with
  | Some z =>
      if is_nan z
      then nth_error zn (count_true (firstn i (map is_nan z0)))
      else Some z
  | None => None
  end.

(** The second estimator call of a run, if it is made: nearest-sample
    lookup at the queries [undefined_xy]; no call when the first result
    [z0] has no NaN. *)
Definition fallback_call (griddata : estimator) (pts : list point)
    (z0 : list float) (undefined_xy : list (float * float))
  : result (list float) :=
  if existsb (fun b => b) (map is_nan z0)
  then griddata (map (fun p => (px p, py p)) pts) (map pz pts)
         undefined_xy Nearest
  else Ok [].

(** Parsers for running the reader on concrete text: optionally signed
    decimal integers, a subset of what [int] and [float] accept. *)
Definition digit_of (c : ascii) : option Z :=
  let n := nat_of_ascii c in
  if ((48 <=? n) && (n <=? 57))%nat then Some (Z.of_nat (n - 48)) else None.

Fixpoint digits_value (acc : Z) (s : string) : option Z :=
  match s with
  | EmptyString => Some acc
  | String c s' =>
      match digit_of c with
      | Some d => digits_value (10 * acc + d) s'
      | None => None
      end
  end.

Definition decimal_int (s : string) : option Z :=
  match s with
  | EmptyString => None
  | String c s' =>
      if Ascii.eqb c "-"%char
      then (if is_empty s' then None else option_map Z.opp (digits_value 0 s'))
      else digits_value 0 s
  end.

(** An integer rounded to the nearest float. *)
Definition float_of_int (z : Z) : float :=
  SF2Prim (binary_normalize prec emax z 0 false).

Definition decimal_float (s : string) : option float :=
  match s with
  | EmptyString => None
  | String c s' =>
      if Ascii.eqb c "-"%char
      then (if is_empty s' then None
            else option_map (fun n => (- float_of_int n)%float)
                   (digits_value 0 s'))
      else option_map float_of_int (digits_value 0 s)
  end.

(** Linear interpolation along an axis as the code evaluates it, in
    floating point: [v1 + (v2 - v1) * ratio], where [ratio] is the float
    nearest to [(r - r1) / (r2 - r1)], and the difference, the product and
    the sum are each rounded. *)
Definition lerp (v1 v2 : float) (r1 r2 r : Z) : float :=
  (v1 + (v2 - v1) * int_ratio (r - r1) (r2 - r1))%float.

(** [v] is not outside the interval spanned by [v1] and [v2]. *)
Definition between (v1 v2 v : float) : bool :=
  ((v1 <=? v) && (v <=? v2) || (v2 <=? v) && (v <=? v1))%float.

(** What holds of every candidate of the column pass: it sits [k] steps
    of [T] above a row [r_i] and strictly below the next row [r_next] of
    its column, keeps the [x] of [(col, r_i)], and has the [y] that
    floating-point interpolation between the two neighbours gives. *)
Definition column_candidate (store : point_store) (idx : axis_index) (T : Z)
    (c : candidate) : Prop :=
  exists col rows r_i r_next k p_i p_next,
    In (col, rows) idx /\ consecutive_in rows r_i r_next /\
    1 <= k /\ r_i + k * T < r_next /\
    Dict.get (col, r_i) store = Some p_i /\
    Dict.get (col, r_next) store = Some p_next /\
    fst c = (col, r_i + k * T) /\
    fst (snd c) = fst (fst p_i) /\
    snd (snd c) =
    lerp (snd (fst p_i)) (snd (fst p_next)) r_i r_next (r_i + k * T).

(** The candidate that the column pass builds at [new_row], between the
    stored neighbours [p1] at [current_row] and [p2] at [next_row]. *)
Definition made_in_column (col current_row next_row : Z)
    (p1 p2 : float * float * float) (new_row : Z) : candidate :=
  ((col, new_row),
   (fst (fst p1),
    lerp (snd (fst p1)) (snd (fst p2)) current_row next_row new_row)).

(** The points one data line contributes: one if its first five fields
    convert, none otherwise. *)
Definition data_of_line (float_of_string : string -> option float)
    (int_of_string : string -> option Z) (line : string) : list point :=
  match parse_fields float_of_string int_of_string (split (strip line)) with
  | Some p => [p]
  | None => []
  end.

(** ** Concrete inputs *)

(** The lines of a text file, given without their final line feed. *)
Definition ended (contents : list string) : list string :=
  map (fun s => (s ++ newline)%string) contents.

(** A file with a comment line after the end-of-header marker. *)
Definition commented_file : list string :=
  ended ["# Horizon A"; "# End:"; "1 2 3 4 5"; "# note"; "6 7 8 9 10"]%string.

(** An input file without a single valid point, and an output path that
    already holds something. *)
Definition pointless_file : list string :=
  ended ["# Horizon A"; "# End:"; "x y z"; "1 2 three 4 5"]%string.

Definition pointless_world : world :=
  mkWorld
    [("in.dat"%string, pointless_file);
     ("out.dat"%string, ended ["kept"%string])]
    [].



(** Column 2 holds rows 0 and 4, row 2 holds columns 0 and 4: the
    column pass and the row pass both reach the key (2,2). *)
Definition crossing_input : list point :=
  [mkPoint 2 0 10 2 0; mkPoint 2 4 20 2 4;
   mkPoint 0 3 30 0 2; mkPoint 4 3 40 4 2].

(** One column with rows 0, 4, 8, 20: the most frequent gap is 4. *)
Definition long_gap_input : list point :=
  [mkPoint 0 0 1 0 0; mkPoint 0 4 1 0 4;
   mkPoint 0 8 1 0 8; mkPoint 0 20 1 0 20].

(** One column whose two points carry NaN as their [z]. *)
Definition undefined_input : list point :=
  [mkPoint 0 0 nan 0 0; mkPoint 0 2 nan 0 2].

(** One column with rows 0 and 2 whose [y] are the largest power of
    two, with either sign. *)
Definition steep_input : list point :=
  [mkPoint 0 (-0x1p1023) 0 0 0; mkPoint 0 0x1p1023 0 0 2].

(** One column with rows 0 and [2^70]; the second [y] is three units
    in the last place above 1. *)
Definition tall_input : list point :=
  [mkPoint 0 (-2) 0 0 0; mkPoint 0 0x1.0000000000003p+0 0 0 (2 ^ 70)].

(** The four corners of a square of side 4. *)
Definition square_input : list point :=
  [mkPoint 0 0 1 0 0; mkPoint 0 4 2 0 4;
   mkPoint 4 0 3 4 0; mkPoint 4 4 4 4 4].

(** ** Further vocabulary *)

(** The distinct elements of a sequence, in order of first appearance. *)
Definition first_occurrences (l : list Z) : list Z :=
  fold_left
    (fun acc z => if existsb (Z.eqb z) acc then acc else acc ++ [z])
    l [].

(** Keys ordered as the output is: by column, then by row. *)
Definition key_lt (a b : Z * Z) : Prop :=
  fst a < fst b \/ (fst a = fst b /\ snd a < snd b).

(** What holds of every candidate of the row pass: it sits [k] steps of
    [T] right of a column [c_i] and strictly left of the next column
    [c_next] of its row, keeps the [y] of [(c_i, row)], and has the [x]
    that floating-point interpolation between the two neighbours gives. *)
Definition row_candidate (store : point_store) (idx : axis_index) (T : Z)
    (c : candidate) : Prop :=
  exists row cols c_i c_next k p_i p_next,
    In (row, cols) idx /\ consecutive_in cols c_i c_next /\
    1 <= k /\ c_i + k * T < c_next /\
    Dict.get (c_i, row) store = Some p_i /\
    Dict.get (c_next, row) store = Some p_next /\
    fst c = (c_i + k * T, row) /\
    snd (snd c) = snd (fst p_i) /\
    fst (snd c) =
    lerp (fst (fst p_i)) (fst (fst p_next)) c_i c_next (c_i + k * T).

(** The output line of one entry of the final mapping. *)
Definition format_entry
    (format_point : float -> float -> float -> Z -> Z -> string)
    (kv : (Z * Z) * (float * float * float)) : string :=
  (format_point (fst (fst (snd kv))) (snd (fst (snd kv))) (snd (snd kv))
     (fst (fst kv)) (snd (fst kv)) ++ newline)%string.

(** A character that ends a line. *)
Definition is_line_break (c : ascii) : bool := Ascii.eqb c LF || Ascii.eqb c CR.

Fixpoint no_line_break (s : string) : bool :=
  match s with
  | EmptyString => true
  | String c s' => negb (is_line_break c) && no_line_break s'
  end.

(** A complete line: no line break inside, and a line feed at the end. *)
Definition ended_line (s : string) : Prop :=
  exists body, s = (body ++ newline)%string /\ no_line_break body = true.

(** The formatting of a point never produces a line break. *)
Definition formats_one_line
    (format_point : float -> float -> float -> Z -> Z -> string) : Prop :=
  forall x y z col row, no_line_break (format_point x y z col row) = true.

(** An input file holding the four corners of [square_input]. *)
Definition square_file : list string :=
  ended ["# Horizon A"; "# End:"; "0 0 1 0 0"; "0 4 2 0 4"; "4 0 3 4 0";
         "4 4 4 4 4"]%string.

Definition square_world : world :=
  mkWorld
    [("in.dat"%string, square_file);
     ("other.dat"%string, ended ["kept"%string])] [].

(** * The smoothing tool: [smooth_horizon.py]

    The companion script reads a horizon file with the same reader,
    replaces every [z] by a smoothed value and writes the points back in
    (col, row) order.  The Gaussian and moving-average smoothers rest on
    array kernels of the numerical library and are parameters here; the
    Savitzky-Golay smoother is embedded, with the library's filter as a
    parameter. *)

(** [sorted(l, key=...)] / [l.sort(key=...)] on points: a stable sort,
    given the "not greater" test of the key. *)
Fixpoint insert_with (leb : point -> point -> bool) (p : point)
    (l : list point) : list point :=
  match l with
  | [] => [p]
  | q :: l' => if leb p q then p :: l else q :: insert_with leb p l'
  end.

Definition sort_with (leb : point -> point -> bool) (l : list point)
  : list point :=
  fold_right (insert_with leb) [] l.

Definition by_row (p q : point) : bool := prow p <=? prow q.
Definition by_col (p q : point) : bool := pcol p <=? pcol q.
Definition by_key (p q : point) : bool := key_leb (point_key p) (point_key q).

(** A loop that updates one value and may raise. *)
Fixpoint fold_result {A S : Type} (f : S -> A -> result S) (l : list A)
    (s : S) : result S :=
  match l with
  | [] => Ok s
  | a :: l' => s' <- f s a ;; fold_result f l' s'
  end.

Definition smoothed_map : Type := Dict.t key float.

(** [smoothed_z_values.get((p['col'], p['row']), p['z'])] *)
Definition smoothed_or_own (d : smoothed_map) (p : point) : float :=
  match Dict.get (point_key p) d with Some z => z | None => pz p end.

Section Savgol.
(** [scipy.signal.savgol_filter(z_values, window_length, polyorder)] *)
Variable savgol_filter : list float -> Z -> Z -> result (list float).

(** [for i, p in enumerate(col_points): smoothed[...] = z_smooth[i]] *)
Fixpoint assign_smoothed (i : nat) (pts : list point) (z_smooth : list float)
    (d : smoothed_map) : result smoothed_map :=
  match pts with
  | [] => Ok d
  | p :: rest =>
      match nth_error z_smooth i with
      | Some z => assign_smoothed (S i) rest z_smooth (Dict.set (point_key p) z d)
      | None => Raise IndexError
      end
  end.

(** [for p in col_points: smoothed[...] = p['z']] *)
Definition keep_original (pts : list point) (d : smoothed_map) : smoothed_map :=
  fold_left (fun d p => Dict.set (point_key p) (pz p) d) pts d.

(** [for i, p in enumerate(row_points):
       original = smoothed.get(..., p['z'])
       smoothed[...] = (original + z_smooth[i]) / 2.0] *)
Fixpoint average_smoothed (i : nat) (pts : list point) (z_smooth : list float)
    (d : smoothed_map) : result smoothed_map :=
  match pts with
  | [] => Ok d
  | p :: rest =>
      match nth_error z_smooth i with
      | Some z =>
          average_smoothed (S i) rest z_smooth
            (Dict.set (point_key p) ((smoothed_or_own d p + z) / 2)%float d)
      | None => Raise IndexError
      end
  end.

(** [for p in row_points: if key not in smoothed: smoothed[key] = p['z']] *)
Definition keep_missing (pts : list point) (d : smoothed_map) : smoothed_map :=
  fold_left
    (fun d p =>
       if Dict.mem (point_key p) d then d else Dict.set (point_key p) (pz p) d)
    pts d.

(** Body of [for col in cols] *)
Definition savgol_column (data_points : list point)
    (window_length polyorder : Z) (d : smoothed_map) (col : Z)
  : result smoothed_map :=
  let col_points :=
    sort_with by_row (filter (fun p => pcol p =? col) data_points) in
  if window_length <=? Z.of_nat (List.length col_points) then
    z_smooth <- savgol_filter (map pz col_points) window_length polyorder ;;
    assign_smoothed 0 col_points z_smooth d
  else Ok (keep_original col_points d).

(** Body of [for row in rows] *)
Definition savgol_row (data_points : list point)
    (window_length polyorder : Z) (d : smoothed_map) (row : Z)
  : result smoothed_map :=
  let row_points :=
    sort_with by_col (filter (fun p => prow p =? row) data_points) in
  if window_length <=? Z.of_nat (List.length row_points) then
    z_smooth <-
      savgol_filter (map (smoothed_or_own d) row_points) window_length polyorder ;;
    average_smoothed 0 row_points z_smooth d
  else Ok (keep_missing row_points d).

Definition odd_window (window_length : Z) : Z :=
  if window_length mod 2 =? 0 then window_length + 1 else window_length.

Definition smooth_savgol (data_points : list point)
    (window_length polyorder : Z) : result smoothed_map :=
  let window_length := odd_window window_length in
  let cols := sorted_set (map pcol data_points) in
  d <- fold_result (savgol_column data_points window_length polyorder) cols [] ;;
  let rows := sorted_set (map prow data_points) in
  fold_result (savgol_row data_points window_length polyorder) rows d.
End Savgol.

Module Smooth.

(** What the smoothing script prints (elapsed times carry no number). *)
Inductive message : Type :=
| MsgRule | MsgTitle | MsgBlank
| MsgReading (input_file : string)
| MsgFileNotFound (filename : string)
| MsgPointsRead (n : nat)
| MsgNoPoints
| MsgReadTime
| MsgSmoothing (method : string)
| MsgGaussianParam (sigma : float)
| MsgSavgolParam (window : Z)
| MsgMovingAverageParam (window : Z)
| MsgUnknownMethod (method : string)
| MsgSupportedMethods
| MsgSmoothTime
| MsgWriting
| MsgWriteTime
| MsgDone
| MsgTotal (n : nat)
| MsgTotalTime
| MsgSaved (output_file : string).

Record world : Type := mkWorld {
  files : list (string * list string);
  stdout : list message
}.

Definition io (A : Type) : Type := world -> outcome A * world.

Definition ret {A : Type} (a : A) : io A := fun w => (Done a, w).

Definition io_bind {A B : Type} (m : io A) (k : A -> io B) : io B :=
  fun w =>
    match m w with
    | (Done a, w') => k a w'
    | (SysExit c, w') => (SysExit c, w')
    | (Uncaught e, w') => (Uncaught e, w')
    end.

Definition print (m : message) : io unit :=
  fun w => (Done tt, mkWorld (files w) (stdout w ++ [m])).

Definition sys_exit {A : Type} (code : Z) : io A := fun w => (SysExit code, w).

Definition lift {A : Type} (r : result A) : io A :=
  fun w => match r with Ok a => (Done a, w) | Raise e => (Uncaught e, w) end.

Definition write_file (path : string) (written : list string) : io unit :=
  fun w =>
    (Done tt,
     mkWorld (store_file path (splitlines (String.concat "" written)) (files w))
       (stdout w)).

Declare Scope smooth_scope.
Delimit Scope smooth_scope with smooth.
Notation "x <~ m ;; k" := (io_bind m (fun x => k))
  (at level 61, m at next level, right associativity) : smooth_scope.
Notation "m ;;; k" := (io_bind m (fun _ => k))
  (at level 61, right associativity) : smooth_scope.
Local Open Scope smooth_scope.

Section Program.
Variable float_of_string : string -> option float.
Variable int_of_string : string -> option Z.
(** [smooth_gaussian(data_points, sigma)] and
    [smooth_moving_average(data_points, window)] *)
Variable smooth_gaussian : list point -> float -> result smoothed_map.
Variable smooth_moving_average : list point -> Z -> result smoothed_map.
Variable savgol_filter : list float -> Z -> Z -> result (list float).
(** The f-string of one output line, up to its final line feed. *)
Variable format_point : float -> float -> float -> Z -> Z -> string.

Definition read_horizon_file (filename : string)
  : io (list string * list point) :=
  fun w =>
    match lookup_file filename (files w) with
    | Some lines => ret (read_lines float_of_string int_of_string lines) w
    | None => (print (MsgFileNotFound filename) ;;; sys_exit 1) w
    end.

(** The line written for [p]. *)
Definition smoothed_line (smoothed_z : smoothed_map) (p : point) : string :=
  (format_point (px p) (py p) (smoothed_or_own smoothed_z p) (pcol p) (prow p)
   ++ newline)%string.

(** The end of [smooth_horizon], once [smoothed_z] is known. *)
Definition write_smoothed (output_file : string) (header : list string)
    (points : list point) (smoothed_z : smoothed_map) : io unit :=
  print MsgSmoothTime ;;;
  print MsgWriting ;;;
  let sorted_points := sort_with by_key points in
  write_file output_file (header ++ map (smoothed_line smoothed_z) sorted_points) ;;;
  print MsgWriteTime ;;;
  print MsgDone ;;;
  print (MsgTotal (List.length sorted_points)) ;;;
  print MsgTotalTime ;;;
  print (MsgSaved output_file) ;;;
  print MsgRule.

Definition smooth_horizon (input_file output_file : string)
    (method : string) (sigma : float) (window : Z) : io unit :=
  print MsgRule ;;; print MsgTitle ;;; print MsgRule ;;; print MsgBlank ;;;
  print (MsgReading input_file) ;;;
  hd <~ read_horizon_file input_file ;;
  let header := fst hd in
  let points := snd hd in
  print (MsgPointsRead (List.length points)) ;;;
  if (List.length points =? 0)%nat then
    print MsgNoPoints
  else
    print MsgReadTime ;;;
    print (MsgSmoothing method) ;;;
    if String.eqb method "gaussian" then
      smoothed_z <~ lift (smooth_gaussian points sigma) ;;
      print (MsgGaussianParam sigma) ;;;
      write_smoothed output_file header points smoothed_z
    else if String.eqb method "savgol" then
      smoothed_z <~ lift (smooth_savgol savgol_filter points window 2) ;;
      print (MsgSavgolParam window) ;;;
      write_smoothed output_file header points smoothed_z
    else if String.eqb method "moving_average" then
      smoothed_z <~ lift (smooth_moving_average points window) ;;
      print (MsgMovingAverageParam window) ;;;
      write_smoothed output_file header points smoothed_z
    else
      print (MsgUnknownMethod method) ;;;
      print MsgSupportedMethods.
End Program.
End Smooth.

(** Worlds of the smoothing tool with the files of the worlds above. *)
Definition smooth_pointless_world : Smooth.world :=
  Smooth.mkWorld (files pointless_world) [].

Definition smooth_square_world : Smooth.world :=
  Smooth.mkWorld (files square_world) [].

(** * Facts *)

(** ** The error monad *)

Lemma bind_Ok {A B : Type} (m : result A) (k : A -> result B) (b : B) :
  bind m k = Ok b -> exists a, m = Ok a /\ k a = Ok b.
Proof. destruct m as [a|e]; simpl; intros E; [eauto | discriminate]. Qed.

Lemma for_each_Ok {A B : Type} (f : A -> result (list B)) (l : list A)
    (out : list B) :
  for_each f l = Ok out ->
  forall b, In b out <-> exists a o, In a l /\ f a = Ok o /\ In b o.
Proof.
  revert out; induction l as [|a l IH]; simpl; intros out E b.
  - inversion E; subst; simpl. split; [tauto | intros (?&?&[]&_)].
  - apply bind_Ok in E as (o & Ea & E). apply bind_Ok in E as (rest & Er & E).
    inversion E; subst; clear E. rewrite in_app_iff, (IH _ Er). split.
    + intros [Hb | (a' & o' & Ha & Hf & Hb)]; eauto 7.
    + intros (a' & o' & [<- | Ha] & Hf & Hb).
      * left; congruence.
      * right; eauto.
Qed.

Lemma for_each_total {A B : Type} (f : A -> result (list B)) (l : list A) :
  (forall a, In a l -> exists o, f a = Ok o) ->
  exists out, for_each f l = Ok out.
Proof.
  induction l as [|a l IH]; simpl; intros H; [eauto|].
  destruct (H a (or_introl eq_refl)) as (o & ->).
  destruct IH as (rest & ->); [intros; apply H; auto|]. simpl; eauto.
Qed.

Lemma for_each_nil {A B : Type} (f : A -> result (list B)) (l : list A) :
  (forall a, In a l -> f a = Ok []) -> for_each f l = Ok [].
Proof.
  induction l as [|a l IH]; simpl; intros H; [reflexivity|].
  rewrite (H a (or_introl eq_refl)); simpl.
  rewrite IH by (intros; apply H; auto). reflexivity.
Qed.

(** ** Dictionaries *)

Lemma key_eqb_eq (a b : key) : key_eqb a b = true <-> a = b.
Proof.
  destruct a as [a1 a2], b as [b1 b2]; unfold key_eqb; simpl.
  rewrite andb_true_iff, !Z.eqb_eq. split.
  - intros [-> ->]; reflexivity.
  - intros E; inversion E; auto.
Qed.

#[export] Instance EqKeyLaws_Z : EqKeyLaws Z.
Proof. constructor; exact Z.eqb_eq. Qed.

#[export] Instance EqKeyLaws_key : EqKeyLaws key.
Proof. constructor; exact key_eqb_eq. Qed.

Section DictFacts.
Context {K V : Type} {KE : EqKey K} {KL : EqKeyLaws K}.
Implicit Types (k : K) (v : V) (d : Dict.t K V).

Lemma keqb_refl k : keqb k k = true.
Proof. apply keqb_eq; reflexivity. Qed.

Lemma keqb_neq k k' : k <> k' -> keqb k k' = false.
Proof.
  intros N; destruct (keqb k k') eqn:E; [|reflexivity].
  apply keqb_eq in E; contradiction.
Qed.

Lemma key_dec k k' : k = k' \/ k <> k'.
Proof.
  destruct (keqb k k') eqn:E.
  - left; apply keqb_eq; assumption.
  - right; intros ->; rewrite keqb_refl in E; discriminate.
Qed.

Lemma get_set_same k v d : Dict.get k (Dict.set k v d) = Some v.
Proof.
  induction d as [|[k' v'] d IH]; simpl.
  - rewrite keqb_refl; reflexivity.
  - destruct (keqb k k') eqn:E; simpl; rewrite E; auto.
Qed.

Lemma get_set_other k k' v d :
  k <> k' -> Dict.get k' (Dict.set k v d) = Dict.get k' d.
Proof.
  intros N; induction d as [|[k0 v0] d IH]; simpl.
  - rewrite keqb_neq by auto; reflexivity.
  - destruct (keqb k k0) eqn:E; simpl.
    + apply keqb_eq in E; subst k0.
      rewrite (@keqb_neq k' k) by congruence. reflexivity.
    + rewrite IH; reflexivity.
Qed.

Lemma get_Some_In k v d : Dict.get k d = Some v -> In (k, v) d.
Proof.
  induction d as [|[k' v'] d IH]; simpl; [discriminate|].
  destruct (keqb k k') eqn:E.
  - apply keqb_eq in E; subst; intros [= ->]; auto.
  - auto.
Qed.

Lemma get_None_keys k d : Dict.get k d = None <-> ~ In k (Dict.keys d).
Proof.
  induction d as [|[k' v'] d IH]; simpl; [tauto|].
  destruct (keqb k k') eqn:E.
  - apply keqb_eq in E; subst. split; [discriminate | intros N; exfalso; auto].
  - rewrite IH. split; [|tauto].
    intros N [->|I]; [rewrite keqb_refl in E; discriminate | auto].
Qed.

Lemma mem_keys k d : Dict.mem k d = true <-> In k (Dict.keys d).
Proof.
  unfold Dict.mem. destruct (Dict.get k d) eqn:E.
  - split; [intros _ | reflexivity].
    apply get_Some_In in E. apply (in_map fst) in E; exact E.
  - split; [discriminate|]. intros I; apply get_None_keys in E; contradiction.
Qed.

Lemma mem_false_keys k d : Dict.mem k d = false <-> ~ In k (Dict.keys d).
Proof.
  rewrite <- mem_keys. destruct (Dict.mem k d); split; congruence.
Qed.

Lemma In_get k v d : NoDup (Dict.keys d) -> In (k, v) d -> Dict.get k d = Some v.
Proof.
  induction d as [|[k' v'] d IH]; simpl; [tauto|].
  intros ND [E | I]; inversion ND; subst.
  - inversion E; subst; rewrite keqb_refl; reflexivity.
  - destruct (keqb k k') eqn:E; [|auto].
    apply keqb_eq in E; subst. apply (in_map fst) in I; contradiction.
Qed.

Lemma keys_set k v d :
  Dict.keys (Dict.set k v d) =
  if Dict.mem k d then Dict.keys d else Dict.keys d ++ [k].
Proof.
  unfold Dict.mem. induction d as [|[k' v'] d IH]; simpl; [reflexivity|].
  destruct (keqb k k') eqn:E; simpl; [reflexivity|].
  rewrite IH. destruct (Dict.get k d); reflexivity.
Qed.

Lemma In_keys_set k k' v d :
  In k' (Dict.keys (Dict.set k v d)) <-> k' = k \/ In k' (Dict.keys d).
Proof.
  rewrite keys_set. destruct (Dict.mem k d) eqn:E.
  - apply mem_keys in E. split; [auto | intros [->|]; auto].
  - rewrite in_app_iff; simpl. intuition.
Qed.

Lemma NoDup_keys_set k v d :
  NoDup (Dict.keys d) -> NoDup (Dict.keys (Dict.set k v d)).
Proof.
  intros ND. rewrite keys_set. destruct (Dict.mem k d) eqn:E; [assumption|].
  apply mem_false_keys in E.
  apply NoDup_rev in ND. rewrite <- (rev_involutive (_ ++ _)).
  apply NoDup_rev. rewrite rev_app_distr; simpl. constructor; [|assumption].
  rewrite <- in_rev; assumption.
Qed.

Lemma length_set k v d :
  List.length (Dict.set k v d) =
  if Dict.mem k d then List.length d else S (List.length d).
Proof.
  unfold Dict.mem. induction d as [|[k' v'] d IH]; simpl; [reflexivity|].
  destruct (keqb k k') eqn:E; simpl; [reflexivity|].
  rewrite IH. destruct (Dict.get k d); reflexivity.
Qed.

Lemma getitem_Ok k d v : Dict.getitem k d = Ok v <-> Dict.get k d = Some v.
Proof.
  unfold Dict.getitem. destruct (Dict.get k d); split; congruence.
Qed.
Lemma set_fresh k v d :
  ~ In k (Dict.keys d) -> Dict.set k v d = d ++ [(k, v)].
Proof.
  induction d as [|[k' v'] d IH]; simpl; intros N; [reflexivity|].
  rewrite keqb_neq by (intros ->; apply N; left; reflexivity).
  rewrite IH by tauto. reflexivity.
Qed.

Lemma get_map_values {W : Type} (f : V -> W) k d :
  Dict.get k (map (fun kv => (fst kv, f (snd kv))) d)
  = option_map f (Dict.get k d).
Proof.
  induction d as [|[k' v'] d IH]; simpl; [reflexivity|].
  destruct (keqb k k'); [reflexivity | exact IH].
Qed.
End DictFacts.

(** ** Gaps by index and by recursion *)

Lemma flat_map_if_filter {A B : Type} (p : B -> bool) (f : A -> B) (l : list A) :
  flat_map (fun a => if p (f a) then [f a] else []) l = filter p (map f l).
Proof.
  induction l as [|a l IH]; simpl; [reflexivity|].
  rewrite IH. destruct (p (f a)); reflexivity.
Qed.

Lemma gaps_by_index (rows : list Z) :
  map (fun i => nth (S i) rows 0 - nth i rows 0) (seq 0 (List.length rows - 1))
  = consecutive_gaps rows.
Proof.
  induction rows as [|a rows IH]; [reflexivity|].
  destruct rows as [|b tl]; [reflexivity|].
  replace (List.length (a :: b :: tl) - 1)%nat with (S (List.length tl))
    by (simpl; lia).
  replace (List.length (b :: tl) - 1)%nat with (List.length tl) in IH
    by (simpl; lia).
  rewrite <- cons_seq, <- seq_shift, map_cons, map_map.
  change (consecutive_gaps (a :: b :: tl))
    with ((b - a) :: consecutive_gaps (b :: tl)).
  rewrite <- IH. reflexivity.
Qed.

Lemma In_consecutive_gaps (rows : list Z) (g : Z) :
  In g (consecutive_gaps rows) <->
  exists a b, consecutive_in rows a b /\ g = b - a.
Proof.
  rewrite <- gaps_by_index, in_map_iff. unfold consecutive_in. split.
  - intros (i & <- & Hi). apply in_seq in Hi.
    exists (nth i rows 0), (nth (S i) rows 0). split; [|reflexivity].
    exists i; repeat split; lia.
  - intros (a & b & (i & Hi & <- & <-) & ->).
    exists i; split; [reflexivity|]. apply in_seq; lia.
Qed.

Lemma intervals_of_gaps (rows : list Z) :
  intervals_of rows = filter (fun g => 0 <? g) (consecutive_gaps rows).
Proof.
  unfold intervals_of. destruct (1 <? List.length rows)%nat eqn:E.
  - rewrite <- gaps_by_index.
    apply (flat_map_if_filter (fun g => 0 <? g)
             (fun i => nth (S i) rows 0 - nth i rows 0)).
  - apply Nat.ltb_ge in E. destruct rows as [|a [|b tl]]; simpl in *;
      try reflexivity; lia.
Qed.

Lemma filter_flat_map {A B : Type} (p : B -> bool) (f : A -> list B) (l : list A) :
  filter p (flat_map f l) = flat_map (fun a => filter p (f a)) l.
Proof.
  induction l as [|a l IH]; simpl; [reflexivity|].
  rewrite filter_app, IH; reflexivity.
Qed.

Lemma intervals_all_observed (idx : axis_index) :
  intervals_all idx = observed_gaps idx.
Proof.
  unfold intervals_all, observed_gaps. rewrite filter_flat_map.
  apply flat_map_ext; intros kv. apply intervals_of_gaps.
Qed.

(** ** Counting and the first maximum *)

Lemma Counter_snoc (l : list Z) (x : Z) :
  Counter (l ++ [x]) =
  Dict.set x (match Dict.get x (Counter l) with Some n => n + 1 | None => 1 end)
    (Counter l).
Proof. unfold Counter. rewrite fold_left_app. reflexivity. Qed.

Lemma occurrences_snoc (l : list Z) (x g : Z) :
  occurrences g (l ++ [x]) =
  (occurrences g l + if Z.eq_dec x g then 1 else 0)%nat.
Proof.
  unfold occurrences. rewrite count_occ_app. simpl.
  destruct (Z.eq_dec x g); reflexivity.
Qed.

Lemma Counter_get (l : list Z) (g : Z) :
  Dict.get g (Counter l) =
  if (occurrences g l =? 0)%nat then None
  else Some (Z.of_nat (occurrences g l)).
Proof.
  induction l as [|x l IH] using rev_ind; [reflexivity|].
  rewrite Counter_snoc, occurrences_snoc.
  destruct (Z.eq_dec x g) as [->|N].
  - rewrite get_set_same, IH.
    destruct (occurrences g l) as [|n] eqn:E; simpl.
    + reflexivity.
    + replace (n + 1)%nat with (S n) by lia. simpl Nat.eqb. cbv iota.
      f_equal. lia.
  - rewrite get_set_other by assumption. rewrite IH, Nat.add_0_r. reflexivity.
Qed.

Lemma Counter_NoDup (l : list Z) : NoDup (Dict.keys (Counter l)).
Proof.
  induction l as [|x l IH] using rev_ind; [constructor|].
  rewrite Counter_snoc. apply NoDup_keys_set; assumption.
Qed.

Lemma Counter_In (l : list Z) (g n : Z) :
  In (g, n) (Counter l) <-> In g l /\ n = Z.of_nat (occurrences g l).
Proof.
  split.
  - intros I. apply (In_get _ _ _ (Counter_NoDup l)) in I.
    rewrite Counter_get in I.
    destruct (occurrences g l =? 0)%nat eqn:E; [discriminate|].
    apply Nat.eqb_neq in E. inversion I; subst. split; [|reflexivity].
    apply (count_occ_In Z.eq_dec). unfold occurrences in E. lia.
  - intros [I ->]. apply get_Some_In. rewrite Counter_get.
    apply (count_occ_In Z.eq_dec) in I. fold (occurrences g l) in I.
    destruct (occurrences g l =? 0)%nat eqn:E; [|reflexivity].
    apply Nat.eqb_eq in E; lia.
Qed.

Lemma py_max_by_spec {A : Type} (f : A -> Z) (rest : list A) (x : A) :
  In (py_max_by f x rest) (x :: rest) /\
  forall y, In y (x :: rest) -> f y <= f (py_max_by f x rest).
Proof.
  unfold py_max_by.
  revert x; induction rest as [|a rest IH]; intros x; simpl fold_left.
  - split; [left; reflexivity | intros y [<-|[]]; lia].
  - destruct (f x <? f a) eqn:E.
    + apply Z.ltb_lt in E. destruct (IH a) as [I M]. split.
      * right; exact I.
      * intros y [<-|Hy]; [|apply M; exact Hy].
        specialize (M a (or_introl eq_refl)). lia.
    + apply Z.ltb_ge in E. destruct (IH x) as [I M]. split.
      * destruct I as [I|I]; [left; exact I | right; right; exact I].
      * intros y [<-|[<-|Hy]].
        -- apply M; left; reflexivity.
        -- specialize (M x (or_introl eq_refl)). lia.
        -- apply M; right; exact Hy.
Qed.

Lemma most_common_interval_default (l : list Z) :
  (forall g, In g l -> g <= 1) -> most_common_interval l = 4.
Proof.
  intros H. unfold most_common_interval. destruct l as [|a l]; [reflexivity|].
  destruct (filter _ (Counter (a :: l))) as [|[k n] rest] eqn:F; [reflexivity|].
  assert (I : In (k, n) (filter (fun kv : Z * Z => 1 <? fst kv) (Counter (a :: l))))
    by (rewrite F; left; reflexivity).
  apply filter_In in I as [I G]. apply Counter_In in I as [I _].
  apply Z.ltb_lt in G; simpl in G. specialize (H k I). lia.
Qed.

Lemma most_common_interval_mode (l : list Z) :
  (exists g, In g l /\ 1 < g) ->
  In (most_common_interval l) l /\ 1 < most_common_interval l /\
  forall g, In g l -> 1 < g ->
            (occurrences g l <= occurrences (most_common_interval l) l)%nat.
Proof.
  intros (g0 & I0 & G0). unfold most_common_interval.
  destruct l as [|a l]; [destruct I0|].
  set (L := a :: l) in *.
  assert (Fspec : forall k n,
             In (k, n) (filter (fun kv : Z * Z => 1 <? fst kv) (Counter L)) <->
             In k L /\ n = Z.of_nat (occurrences k L) /\ 1 < k).
  { intros k n. rewrite filter_In, Counter_In, Z.ltb_lt; simpl. tauto. }
  destruct (filter _ (Counter L)) as [|x rest] eqn:F.
  - exfalso. apply (Fspec g0 (Z.of_nat (occurrences g0 L))). auto.
  - destruct (py_max_by_spec snd rest x) as [I M].
    destruct (py_max_by snd x rest) as [s n] eqn:R. simpl fst.
    apply Fspec in I as (Is & -> & Gs). repeat split; try assumption.
    intros g Ig Gg.
    assert (Hg : In (g, Z.of_nat (occurrences g L)) (x :: rest))
      by (apply Fspec; auto).
    apply M in Hg. cbn [snd] in Hg. lia.
Qed.

(** ** Sorted, duplicate-free sequences *)

Lemma insert_uniq_In (z x : Z) (l : list Z) :
  In x (insert_uniq z l) <-> x = z \/ In x l.
Proof.
  induction l as [|y l IH]; simpl; [intuition|].
  destruct (z <? y); [simpl; intuition|].
  destruct (z =? y) eqn:E.
  - apply Z.eqb_eq in E; subst. simpl; intuition.
  - simpl; rewrite IH; intuition.
Qed.

Lemma insert_uniq_sorted (z : Z) (l : list Z) :
  StronglySorted Z.lt l -> StronglySorted Z.lt (insert_uniq z l).
Proof.
  induction l as [|y l IH]; simpl; intros S.
  - repeat constructor.
  - inversion S as [|? ? S' F]; subst.
    destruct (z <? y) eqn:E1.
    + apply Z.ltb_lt in E1. constructor; [assumption|].
      constructor; [assumption|].
      eapply Forall_impl; [|exact F]. intros; lia.
    + destruct (z =? y) eqn:E2; [assumption|].
      apply Z.ltb_ge in E1. apply Z.eqb_neq in E2.
      constructor; [auto|]. apply Forall_forall; intros x Hx.
      apply insert_uniq_In in Hx as [->|Hx]; [lia|].
      rewrite Forall_forall in F; auto.
Qed.

Lemma sorted_set_In (x : Z) (l : list Z) : In x (sorted_set l) <-> In x l.
Proof.
  unfold sorted_set. induction l as [|a l IH]; simpl; [tauto|].
  rewrite insert_uniq_In, IH. intuition.
Qed.

Lemma sorted_set_sorted (l : list Z) : StronglySorted Z.lt (sorted_set l).
Proof.
  unfold sorted_set. induction l as [|a l IH]; simpl; [constructor|].
  apply insert_uniq_sorted; assumption.
Qed.

Lemma sorted_nth_lt (l : list Z) :
  StronglySorted Z.lt l ->
  forall i j, (i < j)%nat -> (j < List.length l)%nat -> nth i l 0 < nth j l 0.
Proof.
  induction 1 as [|a l S IH F]; intros i j Hij Hj; simpl in Hj; [lia|].
  destruct j as [|j]; [lia|]. destruct i as [|i]; simpl.
  - rewrite Forall_forall in F. apply F. apply nth_In. lia.
  - apply IH; lia.
Qed.

Lemma sorted_nth_le (l : list Z) :
  StronglySorted Z.lt l ->
  forall i j, (i <= j)%nat -> (j < List.length l)%nat -> nth i l 0 <= nth j l 0.
Proof.
  intros S i j Hij Hj. destruct (Nat.eq_dec i j) as [->|N]; [lia|].
  apply Z.lt_le_incl. apply sorted_nth_lt; auto; lia.
Qed.

(** Nothing of a sorted sequence lies strictly between two neighbours. *)
Lemma sorted_no_between (l : list Z) (a b x : Z) :
  StronglySorted Z.lt l -> consecutive_in l a b -> In x l ->
  ~ (a < x < b).
Proof.
  intros S (i & Hi & <- & <-) Hx [H1 H2].
  destruct (In_nth l x 0 Hx) as (j & Hj & <-).
  destruct (Nat.le_gt_cases j i) as [L|G].
  - pose proof (sorted_nth_le S L ltac:(lia)). lia.
  - pose proof (@sorted_nth_le l S (Datatypes.S i) j ltac:(lia) Hj). lia.
Qed.

Lemma consecutive_in_lt (l : list Z) (a b : Z) :
  StronglySorted Z.lt l -> consecutive_in l a b -> a < b.
Proof.
  intros S (i & Hi & <- & <-). apply sorted_nth_lt; auto.
Qed.

Lemma consecutive_in_In (l : list Z) (a b : Z) :
  consecutive_in l a b -> In a l /\ In b l.
Proof.
  intros (i & Hi & <- & <-). split; apply nth_In; lia.
Qed.

(** ** The point store and the axis index *)

Lemma col_row_map_snoc (pts : list point) (p : point) :
  col_row_map (pts ++ [p]) =
  Dict.set (point_key p) (px p, py p, pz p) (col_row_map pts).
Proof. unfold col_row_map. rewrite fold_left_app. reflexivity. Qed.

Lemma col_row_map_NoDup (pts : list point) : NoDup (Dict.keys (col_row_map pts)).
Proof.
  induction pts as [|p pts IH] using rev_ind; [constructor|].
  rewrite col_row_map_snoc. apply NoDup_keys_set; assumption.
Qed.

Lemma col_row_map_keys (pts : list point) (k : key) :
  In k (Dict.keys (col_row_map pts)) <-> In k (map point_key pts).
Proof.
  induction pts as [|p pts IH] using rev_ind; [simpl; tauto|].
  rewrite col_row_map_snoc, In_keys_set, map_app, in_app_iff, IH.
  simpl. intuition.
Qed.

Lemma copy_store_from (store : point_store) (acc : output_map) :
  NoDup (Dict.keys acc ++ Dict.keys store) ->
  fold_left
    (fun d kv =>
       Dict.set (fst kv)
         (fst (fst (snd kv)), snd (fst (snd kv)), snd (snd kv)) d)
    store acc
  = acc ++ map (fun kv => (fst kv, as_output (snd kv))) store.
Proof.
  revert acc; induction store as [|[k v] store IH]; intros acc ND; simpl.
  - rewrite app_nil_r; reflexivity.
  - simpl in ND. rewrite set_fresh.
    + rewrite IH.
      * rewrite <- app_assoc; reflexivity.
      * unfold Dict.keys in *. rewrite map_app, <- app_assoc. exact ND.
    + apply NoDup_remove_2 in ND. rewrite in_app_iff in ND. tauto.
Qed.

Lemma copy_store_map (store : point_store) :
  NoDup (Dict.keys store) ->
  copy_store store = map (fun kv => (fst kv, as_output (snd kv))) store.
Proof. intros ND. unfold copy_store. rewrite copy_store_from; auto. Qed.

Lemma copy_store_keys (store : point_store) :
  NoDup (Dict.keys store) -> Dict.keys (copy_store store) = Dict.keys store.
Proof.
  intros ND. rewrite copy_store_map by assumption.
  unfold Dict.keys. rewrite map_map. reflexivity.
Qed.

Lemma copy_store_get (store : point_store) (k : key) :
  NoDup (Dict.keys store) ->
  Dict.get k (copy_store store) = option_map as_output (Dict.get k store).
Proof.
  intros ND. rewrite copy_store_map by assumption. apply get_map_values.
Qed.

Lemma collect_axes_snoc (pts : list point) (p : point) :
  collect_axes (pts ++ [p]) =
  (append_entry (pcol p) (prow p) (init_entry (pcol p) (fst (collect_axes pts))),
   append_entry (prow p) (pcol p) (init_entry (prow p) (snd (collect_axes pts)))).
Proof. unfold collect_axes. rewrite fold_left_app. reflexivity. Qed.

Lemma groups_step (d : axis_index) (pairs : list (Z * Z)) (k v : Z) :
  groups d pairs ->
  groups (append_entry k v (init_entry k d)) (pairs ++ [(k, v)]).
Proof.
  intros [ND G]. unfold append_entry, init_entry, Dict.mem.
  pose proof (G k) as Gk.
  destruct (Dict.get k d) as [l|] eqn:E.
  - rewrite E. split; [apply NoDup_keys_set; assumption|].
    intros k'. destruct (Z.eq_dec k k') as [<-|N].
    + rewrite get_set_same. intros x.
      rewrite !in_app_iff, Gk. simpl. intuition congruence.
    + rewrite get_set_other by assumption. specialize (G k').
      destruct (Dict.get k' d).
      * intros x. rewrite in_app_iff, G. simpl. intuition congruence.
      * intros x. rewrite in_app_iff. simpl. specialize (G x).
        intuition congruence.
  - rewrite get_set_same. split; [do 2 apply NoDup_keys_set; assumption|].
    intros k'. destruct (Z.eq_dec k k') as [<-|N].
    + rewrite get_set_same. intros x.
      rewrite !in_app_iff. simpl. specialize (Gk x). intuition congruence.
    + rewrite !get_set_other by assumption. specialize (G k').
      destruct (Dict.get k' d).
      * intros x. rewrite in_app_iff, G. simpl. intuition congruence.
      * intros x. rewrite in_app_iff. simpl. specialize (G x).
        intuition congruence.
Qed.

Lemma collect_axes_groups (pts : list point) :
  groups (fst (collect_axes pts)) (map (fun p => (pcol p, prow p)) pts) /\
  groups (snd (collect_axes pts)) (map (fun p => (prow p, pcol p)) pts).
Proof.
  induction pts as [|p pts [IH1 IH2]] using rev_ind.
  - split; (split; [constructor | intros k v []]).
  - rewrite collect_axes_snoc, !map_app; simpl.
    split; apply groups_step; assumption.
Qed.

Lemma sort_entries_In (d : axis_index) (k : Z) (l : list Z) :
  In (k, l) (sort_entries d) ->
  exists raw, In (k, raw) d /\ l = sorted_set raw.
Proof.
  unfold sort_entries. rewrite in_map_iff.
  intros ([k' raw] & E & I). inversion E; subst. eauto.
Qed.

Lemma groups_entry (d : axis_index) (pairs : list (Z * Z)) (k : Z) (l : list Z) :
  groups d pairs -> In (k, l) (sort_entries d) ->
  StronglySorted Z.lt l /\ forall v, In v l <-> In (k, v) pairs.
Proof.
  intros [ND G] I. apply sort_entries_In in I as (raw & I & ->).
  split; [apply sorted_set_sorted|].
  apply (In_get _ _ _ ND) in I. specialize (G k). rewrite I in G.
  intros v. rewrite sorted_set_In. apply G.
Qed.

Lemma col_to_rows_entry (pts : list point) (col : Z) (rows : list Z) :
  In (col, rows) (col_to_rows pts) ->
  StronglySorted Z.lt rows /\
  forall r, In r rows <-> In (col, r) (Dict.keys (col_row_map pts)).
Proof.
  intros I. destruct (collect_axes_groups pts) as [G _].
  destruct (@groups_entry _ _ _ _ G I) as [S E]. split; [assumption|].
  intros r. rewrite E, col_row_map_keys. unfold point_key. tauto.
Qed.

Lemma row_to_cols_entry (pts : list point) (row : Z) (cols : list Z) :
  In (row, cols) (row_to_cols pts) ->
  StronglySorted Z.lt cols /\
  forall c, In c cols <-> In (c, row) (Dict.keys (col_row_map pts)).
Proof.
  intros I. destruct (collect_axes_groups pts) as [_ G].
  destruct (@groups_entry _ _ _ _ G I) as [S E]. split; [assumption|].
  intros c. rewrite E, col_row_map_keys, !in_map_iff. unfold point_key.
  split; intros (p & Hp & Ip); exists p; split; auto; inversion Hp; reflexivity.
Qed.

(** ** Ranges *)

Lemma py_range_pos (start stop step : Z) :
  0 < step ->
  exists l, py_range start stop step = Ok l /\
            forall x, In x l <->
                      exists k, 0 <= k /\ x = start + k * step /\ x < stop.
Proof.
  intros Hs. unfold py_range.
  replace (step =? 0) with false by (symmetry; apply Z.eqb_neq; lia).
  replace (0 <? step) with true by (symmetry; apply Z.ltb_lt; lia).
  eexists; split; [reflexivity|]. intros x.
  set (q := (stop - start + step - 1) / step).
  assert (Hq : forall k, k < q <-> start + k * step < stop).
  { intros k. unfold q. split; intros Hk.
    - assert (step * (k + 1) <= stop - start + step - 1).
      { etransitivity; [|apply (Z.mul_div_le _ step Hs)].
        apply Z.mul_le_mono_nonneg_l; lia. }
      lia.
    - assert (k + 1 <= (stop - start + step - 1) / step)
        by (apply Z.div_le_lower_bound; lia).
      lia. }
  rewrite in_map_iff. split.
  - intros (n & <- & Hn). apply in_seq in Hn. exists (Z.of_nat n).
    split; [lia|]. split; [reflexivity|]. apply Hq. lia.
  - intros (k & Hk & -> & Hlt). exists (Z.to_nat k).
    rewrite Z2Nat.id by assumption. split; [reflexivity|].
    apply in_seq. apply Hq in Hlt. lia.
Qed.

(** ** Loops that collect *)

Lemma for_each_inv {A B : Type} (f : A -> result (list B)) (l : list A)
    (out : list B) :
  for_each f l = Ok out ->
  forall a, In a l -> exists o, f a = Ok o /\ forall b, In b o -> In b out.
Proof.
  intros E a Ha. pose proof (for_each_Ok _ _ E) as Hout.
  revert out E Hout; induction l as [|a' l IH]; simpl; intros out E Hout;
    [destruct Ha|].
  apply bind_Ok in E as (o & Ea & E). apply bind_Ok in E as (rest & Er & E).
  destruct Ha as [->|Ha].
  - exists o; split; [assumption|]. intros b Hb. apply Hout. eauto 6.
  - destruct (IH Ha rest Er (for_each_Ok _ _ Er)) as (o' & Hf & Hin).
    exists o'; split; [assumption|]. intros b Hb. apply Hout. eauto 6.
Qed.

Lemma for_each_Forall {A B : Type} (P : B -> Prop) (f : A -> result (list B))
    (l : list A) (out : list B) :
  (forall a o, In a l -> f a = Ok o -> Forall P o) ->
  for_each f l = Ok out -> Forall P out.
Proof.
  intros H E. apply Forall_forall; intros b Hb.
  apply (for_each_Ok _ _ E) in Hb as (a & o & Ha & Hf & Hb).
  specialize (H a o Ha Hf). rewrite Forall_forall in H; auto.
Qed.

(** ** Candidates are new keys *)

Section Fresh.
Variable store : point_store.
Variable new_points : output_map.
Variable T : Z.

Definition fresh (c : candidate) : Prop := Dict.mem (fst c) new_points = false.

Lemma emit_row_fresh col a b n o :
  emit_row store new_points col a b n = Ok o -> Forall fresh o.
Proof.
  unfold emit_row. destruct (Dict.mem (col, n) new_points) eqn:M.
  - intros [= <-]; constructor.
  - intros E. apply bind_Ok in E as (p1 & _ & E).
    apply bind_Ok in E as (p2 & _ & E). apply bind_Ok in E as (r & _ & E).
    inversion E; subst. repeat constructor. exact M.
Qed.

Lemma emit_col_fresh row a b n o :
  emit_col store new_points row a b n = Ok o -> Forall fresh o.
Proof.
  unfold emit_col. destruct (Dict.mem (n, row) new_points) eqn:M.
  - intros [= <-]; constructor.
  - intros E. apply bind_Ok in E as (p1 & _ & E).
    apply bind_Ok in E as (p2 & _ & E). apply bind_Ok in E as (r & _ & E).
    inversion E; subst. repeat constructor. exact M.
Qed.

Lemma column_pass_fresh idx out :
  column_pass store new_points T idx = Ok out -> Forall fresh out.
Proof.
  apply for_each_Forall. intros [col rows] o1 _.
  apply for_each_Forall. intros i o2 _ E.
  apply bind_Ok in E as (news & _ & E). revert E.
  apply for_each_Forall. intros n o3 _. apply emit_row_fresh.
Qed.

Lemma row_pass_fresh idx out :
  row_pass store new_points T idx = Ok out -> Forall fresh out.
Proof.
  apply for_each_Forall. intros [row cols] o1 _.
  apply for_each_Forall. intros i o2 _ E.
  apply bind_Ok in E as (news & _ & E). revert E.
  apply for_each_Forall. intros n o3 _. apply emit_col_fresh.
Qed.
End Fresh.

Lemma gap_generator_passes (pts : list point) (T : Z) (cands : list candidate) :
  gap_generator pts T = Ok cands ->
  exists by_col by_row,
    column_pass (col_row_map pts) (copy_store (col_row_map pts)) T
      (col_to_rows pts) = Ok by_col /\
    row_pass (col_row_map pts) (copy_store (col_row_map pts)) T
      (row_to_cols pts) = Ok by_row /\
    cands = by_col ++ by_row.
Proof.
  unfold gap_generator. intros E.
  apply bind_Ok in E as (c & Ec & E). apply bind_Ok in E as (r & Er & E).
  inversion E; subst. eauto.
Qed.

(** No candidate carries a key of the point store. *)
Lemma gap_generator_fresh (pts : list point) (T : Z) (cands : list candidate) :
  gap_generator pts T = Ok cands ->
  forall c, In c cands -> ~ In (fst c) (Dict.keys (col_row_map pts)).
Proof.
  intros E c Hc. apply gap_generator_passes in E as (bc & br & Ec & Er & ->).
  apply column_pass_fresh in Ec. apply row_pass_fresh in Er.
  rewrite Forall_forall in Ec, Er.
  rewrite <- (@copy_store_keys _ (col_row_map_NoDup pts)).
  apply mem_false_keys.
  apply in_app_or in Hc as [Hc|Hc]; [apply Ec in Hc | apply Er in Hc]; exact Hc.
Qed.

(** ** Merging the estimated values *)

Lemma key_eq_dec (a b : key) : {a = b} + {a <> b}.
Proof. decide equality; apply Z.eq_dec. Qed.

Lemma add_results_get_other (cands : list candidate) (zs : list float) :
  forall i np out,
    add_results i cands zs np = Ok out ->
    forall k, ~ In k (need_interp_indices cands) ->
              Dict.get k out = Dict.get k np.
Proof.
  induction cands as [|[k0 xy] rest IH]; simpl; intros i np out E k N.
  - inversion E; reflexivity.
  - destruct (nth_error zs i) as [z|]; [|discriminate].
    rewrite (IH _ _ _ E) by tauto. apply get_set_other. tauto.
Qed.

Lemma add_results_keys (cands : list candidate) (zs : list float) :
  forall i np out,
    add_results i cands zs np = Ok out ->
    forall k, In k (Dict.keys out) <->
              In k (Dict.keys np) \/ In k (need_interp_indices cands).
Proof.
  induction cands as [|[k0 xy] rest IH]; simpl; intros i np out E k.
  - inversion E; tauto.
  - destruct (nth_error zs i) as [z|]; [|discriminate].
    rewrite (IH _ _ _ E), In_keys_set. intuition.
Qed.

Lemma add_results_get_cand (cands : list candidate) (zs : list float) :
  forall i np out,
    add_results i cands zs np = Ok out ->
    forall k, In k (need_interp_indices cands) ->
              exists x y z, Dict.get k out = Some (x, y, z) /\ In z zs.
Proof.
  induction cands as [|[k0 xy] rest IH]; simpl; intros i np out E k Hk;
    [destruct Hk|].
  destruct (nth_error zs i) as [z|] eqn:Ez; [|discriminate].
  destruct (in_dec key_eq_dec k (need_interp_indices rest)) as [I|N].
  - eapply IH; eauto.
  - destruct Hk as [<-|Hk]; [|contradiction].
    rewrite (add_results_get_other _ _ _ _ E _ N), get_set_same.
    exists (fst xy), (snd xy), z. split; [reflexivity|].
    eapply nth_error_In; eassumption.
Qed.

Lemma add_results_get_last (cands : list candidate) (zs : list float) :
  forall i np out,
    add_results i cands zs np = Ok out ->
    forall k, In k (need_interp_indices cands) ->
              exists j c z,
                nth_error cands j = Some c /\ fst c = k /\
                nth_error zs (i + j) = Some z /\
                Dict.get k out = Some (fst (snd c), snd (snd c), z).
Proof.
  induction cands as [|[k0 xy] rest IH]; simpl; intros i np out E k Hk;
    [destruct Hk|].
  destruct (nth_error zs i) as [z|] eqn:Ez; [|discriminate].
  destruct (in_dec key_eq_dec k (need_interp_indices rest)) as [I|N].
  - destruct (IH _ _ _ E k I) as (j & c & z' & Hj & Hc & Hz & G).
    exists (S j), c, z'. rewrite Nat.add_succ_r. auto.
  - destruct Hk as [<-|Hk]; [|contradiction].
    exists 0%nat, (k0, xy), z. rewrite Nat.add_0_r.
    repeat split; [exact Ez|].
    rewrite (add_results_get_other _ _ _ _ E _ N), get_set_same. reflexivity.
Qed.

Lemma add_results_total (cands : list candidate) (zs : list float) :
  forall i np,
    (i + List.length cands <= List.length zs)%nat ->
    exists out, add_results i cands zs np = Ok out.
Proof.
  induction cands as [|[k0 xy] rest IH]; simpl; intros i np L; [eauto|].
  destruct (nth_error zs i) as [z|] eqn:Ez.
  - apply IH. lia.
  - apply nth_error_None in Ez. lia.
Qed.

(** ** The fallback fills what was undefined *)

Lemma mask_select_total {A : Type} (a : list A) (mask : list bool) :
  List.length a = List.length mask ->
  exists r, mask_select a mask = Ok r /\ List.length r = count_true mask.
Proof.
  revert mask; induction a as [|x a IH]; intros [|m mask] L; simpl in L;
    try discriminate.
  - exists []; split; reflexivity.
  - destruct (IH mask) as (r & E & Lr); [lia|]. simpl. rewrite E. simpl.
    unfold count_true in *. destruct m; simpl; eexists; split;
      try reflexivity; simpl; lia.
Qed.

Lemma mask_assign_total (a b : list float) :
  List.length b = count_true (map is_nan a) ->
  exists r, mask_assign a (map is_nan a) b = Ok r /\
            List.length r = List.length a.
Proof.
  unfold count_true.
  revert b; induction a as [|x a IH]; intros b L; simpl in *.
  - destruct b; [|discriminate]. exists []; split; reflexivity.
  - destruct (is_nan x); simpl in *.
    + destruct b as [|y b]; [discriminate|]. simpl in L.
      destruct (IH b) as (r & E & Lr); [lia|].
      rewrite E. simpl. exists (y :: r). split; [reflexivity | simpl; lia].
    + destruct (IH b L) as (r & E & Lr). rewrite E. simpl.
      exists (x :: r). split; [reflexivity | simpl; lia].
Qed.

Lemma count_true_cons (m : bool) (mask : list bool) :
  count_true (m :: mask) = ((if m then 1 else 0) + count_true mask)%nat.
Proof. unfold count_true. destruct m; reflexivity. Qed.

Lemma refilled_cons_0 (x : float) (a b : list float) :
  refilled (x :: a) b 0 = if is_nan x then nth_error b 0 else Some x.
Proof. reflexivity. Qed.

Lemma refilled_cons_S (x : float) (a b : list float) (i : nat) :
  refilled (x :: a) b (S i) =
  match nth_error a i with
  | Some z =>
      if is_nan z
      then nth_error b ((if is_nan x then 1 else 0)
                        + count_true (firstn i (map is_nan a)))%nat
      else Some z
  | None => None
  end.
Proof.
  unfold refilled. cbn [nth_error map firstn]. rewrite count_true_cons.
  reflexivity.
Qed.

(** Masked assignment puts, at every place, the value that [refilled]
    names; it succeeds only with as many new values as undefined places. *)
Lemma mask_assign_refilled (a : list float) :
  forall b r,
    mask_assign a (map is_nan a) b = Ok r ->
    List.length b = count_true (map is_nan a) /\
    forall i, nth_error r i = refilled a b i.
Proof.
  induction a as [|x a IH]; intros b r E.
  - simpl in E. destruct b; [|discriminate]. injection E as <-.
    split; [reflexivity|]. intros [|i]; reflexivity.
  - cbn [map mask_assign] in E. cbn [map]. rewrite count_true_cons.
    destruct (is_nan x) eqn:Nx.
    + destruct b as [|y b]; [discriminate|].
      apply bind_Ok in E as (rest & Er & E). injection E as <-.
      destruct (IH _ _ Er) as [L H]. split; [simpl; lia|].
      intros [|i].
      * rewrite refilled_cons_0, Nx. reflexivity.
      * rewrite refilled_cons_S, Nx. cbn [nth_error Nat.add]. rewrite H.
        unfold refilled. reflexivity.
    + apply bind_Ok in E as (rest & Er & E). injection E as <-.
      destruct (IH _ _ Er) as [L H]. split; [simpl; lia|].
      intros [|i].
      * rewrite refilled_cons_0, Nx. reflexivity.
      * rewrite refilled_cons_S, Nx. cbn [nth_error Nat.add]. rewrite H.
        unfold refilled. reflexivity.
Qed.

Lemma refilled_source (z0 zn : list float) (i : nat) (z : float) :
  refilled z0 zn i = Some z ->
  (nth_error z0 i = Some z /\ is_nan z = false) \/ In z zn.
Proof.
  unfold refilled. destruct (nth_error z0 i) as [z'|]; [|discriminate].
  destruct (is_nan z') eqn:N.
  - intros E. right. eapply nth_error_In; eassumption.
  - intros [= <-]. left; auto.
Qed.

Lemma no_nan_defined (zs : list float) :
  existsb (fun b => b) (map is_nan zs) = false ->
  Forall (fun z => is_nan z = false) zs.
Proof.
  induction zs as [|z zs IH]; simpl; intros E; [constructor|].
  apply orb_false_iff in E as [E1 E2]. constructor; auto.
Qed.

Lemma refilled_no_nan (z0 zn : list float) (i : nat) :
  existsb (fun b => b) (map is_nan z0) = false ->
  refilled z0 zn i = nth_error z0 i.
Proof.
  intros X. apply no_nan_defined in X. rewrite Forall_forall in X.
  unfold refilled. destruct (nth_error z0 i) as [z|] eqn:E; [|reflexivity].
  rewrite (X z) by (eapply nth_error_In; eassumption). reflexivity.
Qed.

(** What [estimate_z] returned, read back: the first call returned some
    [z0]; without NaN in it that is the result; otherwise one
    nearest-sample call was made, on exactly the queries whose first
    result is NaN, and its values fill the undefined places in order. *)
Lemma estimate_z_inv (griddata : estimator) (pts : list point)
    (cands : list candidate) (m : method) (zs : list float) :
  estimate_z griddata pts cands m = Ok zs ->
  exists z0,
    griddata (map (fun p => (px p, py p)) pts) (map pz pts)
      (need_interp_points cands) m = Ok z0 /\
    (existsb (fun b => b) (map is_nan z0) = false -> zs = z0) /\
    (existsb (fun b => b) (map is_nan z0) = true ->
     exists undefined_xy z_nearest,
       mask_select (need_interp_points cands) (map is_nan z0)
       = Ok undefined_xy /\
       griddata (map (fun p => (px p, py p)) pts) (map pz pts)
         undefined_xy Nearest = Ok z_nearest /\
       List.length z_nearest = count_true (map is_nan z0) /\
       forall i, nth_error zs i = refilled z0 z_nearest i).
Proof.
  unfold estimate_z. intros E. apply bind_Ok in E as (z0 & E0 & E).
  exists z0. split; [exact E0|].
  destruct (existsb (fun b => b) (map is_nan z0)).
  - split; [discriminate|]. intros _.
    apply bind_Ok in E as (u & Eu & E). apply bind_Ok in E as (zn & En & E).
    destruct (mask_assign_refilled _ _ E) as [L H].
    exists u, zn. auto.
  - split; [intros _; congruence | discriminate].
Qed.

Section Shape.
Variable griddata : estimator.
Hypothesis shape : griddata_shape griddata.

(** With the first result [z0] in hand, [estimate_z] selects the
    undefined queries and goes on as the second call does: it raises what
    that call raises, and otherwise returns the refilled values. *)
Lemma estimate_z_run (pts : list point) (cands : list candidate)
    (m : method) (z0 : list float) :
  griddata (map (fun p => (px p, py p)) pts) (map pz pts)
    (need_interp_points cands) m = Ok z0 ->
  exists undefined_xy,
    mask_select (need_interp_points cands) (map is_nan z0) = Ok undefined_xy /\
    (forall e, fallback_call griddata pts z0 undefined_xy = Raise e ->
               estimate_z griddata pts cands m = Raise e) /\
    (forall zn, fallback_call griddata pts z0 undefined_xy = Ok zn ->
                exists zs, estimate_z griddata pts cands m = Ok zs /\
                           List.length zs = List.length cands /\
                           forall i, nth_error zs i = refilled z0 zn i).
Proof.
  intros E0. unfold estimate_z, fallback_call. rewrite E0.
  cbv beta iota delta [bind].
  pose proof (@shape _ _ _ _ _ E0) as L0.
  unfold need_interp_points in L0 at 1. rewrite length_map in L0.
  destruct (@mask_select_total _ (need_interp_points cands) (map is_nan z0))
    as (u & Eu & Lu).
  { unfold need_interp_points. rewrite !length_map. lia. }
  exists u. split; [exact Eu|].
  destruct (existsb (fun b => b) (map is_nan z0)) eqn:X.
  - rewrite Eu. split.
    + intros e En. rewrite En. reflexivity.
    + intros zn En. rewrite En.
      pose proof (@shape _ _ _ _ _ En) as Ln.
      destruct (@mask_assign_total z0 zn) as (r & Er & Lr); [lia|].
      exists r. split; [exact Er|]. split; [rewrite Lr; exact L0|].
      apply (mask_assign_refilled _ _ Er).
  - split; [discriminate|]. intros zn _. exists z0.
    split; [reflexivity|]. split; [exact L0|].
    intros i. symmetry. apply refilled_no_nan. exact X.
Qed.
End Shape.

(** ** The whole computation *)

Lemma gap_generator_nil (T : Z) : gap_generator [] T = Ok [].
Proof. reflexivity. Qed.

Lemma interpolate_points_inv (griddata : estimator) (pts : list point)
    (T : Z) (m : method) (out : output_map) :
  interpolate_points griddata pts T m = Ok out ->
  exists cands zs,
    gap_generator pts T = Ok cands /\
    add_results 0 cands zs (copy_store (col_row_map pts)) = Ok out /\
    (cands <> [] -> estimate_z griddata pts cands m = Ok zs).
Proof.
  unfold interpolate_points. intros E.
  apply bind_Ok in E as (cands & Ec & E). exists cands.
  destruct cands as [|c cands].
  - exists []. simpl in E. repeat split; [assumption.. | tauto].
  - cbn [List.length Nat.ltb Nat.leb] in E.
    apply bind_Ok in E as (zs & Ez & E). exists zs. auto.
Qed.

(** ** Originals are never overwritten *)

(** C10: every key of the input point store is in the final output with
    exactly its original triple; neither gap generation nor the insertion
    of the candidates touches it. *)
Theorem originals_preserved (griddata : estimator) (pts : list point)
    (T : Z) (m : method) (out : output_map) :
  interpolate_points griddata pts T m = Ok out ->
  forall k v, Dict.get k (col_row_map pts) = Some v ->
              Dict.get k out = Some (as_output v).
Proof.
  intros E k v Hk.
  apply interpolate_points_inv in E as (cands & zs & Eg & Ea & _).
  rewrite (add_results_get_other _ _ _ _ Ea).
  - rewrite copy_store_get by apply col_row_map_NoDup. rewrite Hk. reflexivity.
  - intros I. unfold need_interp_indices in I. apply in_map_iff in I as (c & <- & Hc).
    eapply gap_generator_fresh; [exact Eg | exact Hc |].
    apply get_Some_In in Hk. apply (in_map fst) in Hk. exact Hk.
Qed.

Lemma originals_preserved_witness :
  exists out,
    interpolate_points reference_griddata crossing_input 2 Linear = Ok out /\
    Dict.get (2, 4) out = Some (as_output (2, 4, 20)%float).
Proof.
  eexists. split; [vm_compute; reflexivity|].
  apply (@originals_preserved reference_griddata crossing_input 2 Linear);
    vm_compute; reflexivity.
Defined.

(** ** Every candidate receives the estimator's value *)

Lemma reference_shape : griddata_shape reference_griddata.
Proof.
  intros points values queries m zs. unfold reference_griddata.
  destruct m; try (intros [= <-]; apply length_map).
  destruct (combine points values); [discriminate|].
  intros [= <-]; apply length_map.
Qed.

Lemma closest_In (q : float * float) (rest : list ((float * float) * float)) :
  forall best, In (closest q best rest) (map snd (best :: rest)).
Proof.
  induction rest as [|s rest IH]; intros best; simpl; [auto|].
  destruct (PrimFloat.leb (dist2 q (fst best)) (dist2 q (fst s))).
  - destruct (IH best) as [H|H]; simpl; auto.
  - destruct (IH s) as [H|H]; simpl; auto.
Qed.

Lemma combine_values {A B : Type} (l : list A) (l' : list B) (b : B) :
  In b (map snd (combine l l')) -> In b l'.
Proof.
  intros H. apply in_map_iff in H as ([a b'] & <- & H).
  eapply in_combine_r; eassumption.
Qed.

Lemma reference_nearest_sample : nearest_sample reference_griddata.
Proof.
  intros points values queries zs. unfold reference_griddata.
  destruct (combine points values) as [|s rest] eqn:C; [discriminate|].
  intros [= <-]. apply Forall_forall. intros z Hz.
  apply in_map_iff in Hz as (q & <- & _).
  apply (combine_values points). rewrite C. apply closest_In.
Qed.

(** C7, as amended: take a run whose gap generator returned at least one
    candidate, with an estimator that gives one result per query.  If the
    first, batched call raises, the run raises and nothing is output.
    If it returns [z0], the queries whose result is NaN are selected, and
    when there is one the estimator is called once more, by nearest
    sample, on exactly these queries.  If that call raises, the run
    raises.  If it returns [zn], the run returns, and every candidate key
    holds the coordinates of a candidate with that key together with the
    [z] of its place: the first call's value where that is not NaN,
    otherwise the value the second call returned for it.  So a candidate
    is NaN in the output only if the nearest-sample call itself returned
    NaN for it. *)
Theorem candidates_receive_z (griddata : estimator) (pts : list point)
    (T : Z) (m : method) (cands : list candidate) :
  griddata_shape griddata ->
  gap_generator pts T = Ok cands ->
  cands <> [] ->
  (forall e,
      griddata (map (fun p => (px p, py p)) pts) (map pz pts)
        (need_interp_points cands) m = Raise e ->
      interpolate_points griddata pts T m = Raise e) /\
  (forall z0,
      griddata (map (fun p => (px p, py p)) pts) (map pz pts)
        (need_interp_points cands) m = Ok z0 ->
      exists undefined_xy,
        mask_select (need_interp_points cands) (map is_nan z0)
        = Ok undefined_xy /\
        (forall e,
            fallback_call griddata pts z0 undefined_xy = Raise e ->
            interpolate_points griddata pts T m = Raise e) /\
        (forall zn,
            fallback_call griddata pts z0 undefined_xy = Ok zn ->
            exists out,
              interpolate_points griddata pts T m = Ok out /\
              (forall k, In k (need_interp_indices cands) ->
                         exists i c z,
                           nth_error cands i = Some c /\ fst c = k /\
                           refilled z0 zn i = Some z /\
                           Dict.get k out
                           = Some (fst (snd c), snd (snd c), z)) /\
              (Forall (fun z => is_nan z = false) zn ->
               forall k x y z,
                 In k (need_interp_indices cands) ->
                 Dict.get k out = Some (x, y, z) -> is_nan z = false))).
Proof.
  intros S Eg NE. unfold interpolate_points. rewrite Eg.
  cbv beta iota delta [bind].
  destruct cands as [|c cands]; [contradiction|].
  cbn [List.length Nat.ltb Nat.leb]. split.
  - intros e E0. unfold estimate_z. rewrite E0. reflexivity.
  - intros z0 E0.
    destruct (@estimate_z_run griddata S pts (c :: cands) m z0 E0)
      as (u & Eu & Hr & Ho).
    exists u. split; [exact Eu|]. split.
    + intros e Ef. rewrite (Hr e Ef). reflexivity.
    + intros zn Ef. destruct (Ho zn Ef) as (zs & Ez & Lz & Hz). rewrite Ez.
      destruct (@add_results_total (c :: cands) zs 0
                  (copy_store (col_row_map pts))) as (out & Eo); [lia|].
      exists out. split; [exact Eo|]. split.
      * intros k Hk.
        destruct (@add_results_get_last _ _ _ _ _ Eo k Hk)
          as (j & c' & z & Hj & Hc & Hzj & G).
        exists j, c', z. rewrite Nat.add_0_l, Hz in Hzj. auto.
      * intros Fn k x y z Hk G.
        destruct (@add_results_get_last _ _ _ _ _ Eo k Hk)
          as (j & c' & z' & Hj & Hc & Hzj & G').
        rewrite G' in G. injection G as _ _ <-.
        rewrite Nat.add_0_l, Hz in Hzj.
        destruct (refilled_source _ _ _ Hzj) as [[_ N]|I]; [exact N|].
        rewrite Forall_forall in Fn. exact (Fn _ I).
Qed.

Lemma candidates_receive_z_witness :
  exists cands out,
    gap_generator square_input 2 = Ok cands /\
    interpolate_points reference_griddata square_input 2 Linear = Ok out /\
    forall k x y z,
      In k (need_interp_indices cands) ->
      Dict.get k out = Some (x, y, z) -> is_nan z = false.
Proof.
  destruct (gap_generator square_input 2) as [cands|] eqn:Eg;
    [|vm_compute in Eg; discriminate Eg].
  assert (NE : cands <> []).
  { vm_compute in Eg. injection Eg as <-. discriminate. }
  destruct (@candidates_receive_z reference_griddata square_input 2 Linear
              cands reference_shape Eg NE) as [_ H].
  destruct (reference_griddata
              (map (fun p => (px p, py p)) square_input) (map pz square_input)
              (need_interp_points cands) Linear) as [z0|] eqn:E0;
    [|vm_compute in E0; discriminate E0].
  destruct (H z0 eq_refl) as (u & Eu & _ & Ho).
  destruct (fallback_call reference_griddata square_input z0 u) as [zn|] eqn:Ef.
  - destruct (Ho zn eq_refl) as (out & Eo & _ & Hn).
    exists cands, out. split; [reflexivity|]. split; [exact Eo|].
    apply Hn. unfold fallback_call in Ef.
    destruct (existsb (fun b => b) (map is_nan z0)).
    + pose proof (reference_nearest_sample _ _ _ Ef) as F.
      rewrite Forall_forall in *. intros z Hz. specialize (F z Hz).
      vm_compute in F. intuition (subst; reflexivity).
    + injection Ef as <-. constructor.
  - exfalso. unfold fallback_call in Ef.
    destruct (existsb (fun b => b) (map is_nan z0)); [|discriminate].
    vm_compute in Ef. discriminate Ef.
Defined.

(** C7, as stated, fails: [float] accepts the token [nan], and a
    nearest-sample value is the [z] of a sample.  With two points whose
    [z] is NaN the candidate between them is NaN in the output, under the
    reference estimator and under every estimator whose nearest-sample
    values are sample values. *)
Lemma undefined_sample_reaches_candidate :
  (exists out x y,
      interpolate_points reference_griddata undefined_input 1 Nearest = Ok out /\
      Dict.get (0, 1) out = Some (x, y, nan)) /\
  ~ (exists griddata out x y z,
        nearest_sample griddata /\
        interpolate_points griddata undefined_input 1 Nearest = Ok out /\
        Dict.get (0, 1) out = Some (x, y, z) /\ is_nan z = false).
Proof.
  split.
  - eexists. eexists. eexists. split; vm_compute; reflexivity.
  - intros (griddata & out & x & y & z & NS & E & G & N).
    apply interpolate_points_inv in E as (cands & zs & Eg & Ea & Ez).
    vm_compute in Eg. injection Eg as <-.
    specialize (Ez ltac:(discriminate)).
    destruct (@add_results_get_cand _ _ _ _ _ Ea (0, 1))
      as (x' & y' & z' & G' & Iz); [left; reflexivity|].
    rewrite G' in G. injection G as _ _ <-.
    assert (V : forall v, In v (map pz undefined_input) -> is_nan v = true).
    { intros v Hv. vm_compute in Hv. intuition (subst; reflexivity). }
    apply estimate_z_inv in Ez as (z0 & E0 & Hf & Ht).
    pose proof (NS _ _ _ _ E0) as F0. rewrite Forall_forall in F0.
    destruct (existsb (fun b => b) (map is_nan z0)) eqn:X.
    + destruct (Ht eq_refl) as (u & zn & _ & En & _ & Hz).
      pose proof (NS _ _ _ _ En) as Fn. rewrite Forall_forall in Fn.
      apply In_nth_error in Iz as (i & Hi). rewrite Hz in Hi.
      destruct (refilled_source _ _ _ Hi) as [[H0 _]|I].
      * apply nth_error_In in H0. rewrite (V _ (F0 _ H0)) in N. discriminate.
      * rewrite (V _ (Fn _ I)) in N. discriminate.
    + rewrite (Hf eq_refl) in Iz. rewrite (V _ (F0 _ Iz)) in N. discriminate.
Qed.

(** ** Two passes, one key *)

(** C1 (the code departs from the claim): on [crossing_input] with target
    spacing 2 the column pass and the row pass both emit the key (2,2),
    because the membership test looks at a mapping that holds only the
    originals while candidates are generated.  The emitted keys are not
    distinct, and the final mapping has 5 entries, not 4 + 2. *)
Theorem crossing_key_emitted_twice :
  exists cands out,
    gap_generator crossing_input 2 = Ok cands /\
    need_interp_indices cands = [(2, 2); (2, 2)] /\
    ~ NoDup (need_interp_indices cands) /\
    interpolate_points reference_griddata crossing_input 2 Linear = Ok out /\
    List.length (col_row_map crossing_input) = 4%nat /\
    List.length cands = 2%nat /\
    List.length out = 5%nat.
Proof.
  eexists. eexists.
  split; [vm_compute; reflexivity|].
  split; [reflexivity|].
  split.
  - intros ND. inversion ND as [|? ? N _]; subst. apply N. left; reflexivity.
  - split; [vm_compute; reflexivity|]. repeat split.
Qed.

(** C2 (the code departs from the claim): on [crossing_input] with target
    spacing 2 both passes produce the key (2,2), with different [y]; the
    final mapping keeps the coordinates of the candidate emitted last (the
    row pass), not those of the first one. *)
Theorem crossing_key_keeps_last :
  exists c1 c2 out,
    gap_generator crossing_input 2 = Ok [c1; c2] /\
    fst c1 = fst c2 /\
    (snd (snd c1) =? snd (snd c2))%float = false /\
    interpolate_points reference_griddata crossing_input 2 Linear = Ok out /\
    exists z, Dict.get (fst c1) out = Some (fst (snd c2), snd (snd c2), z).
Proof.
  eexists. eexists. eexists.
  split; [vm_compute; reflexivity|].
  split; [reflexivity|].
  split; [vm_compute; reflexivity|].
  split; [vm_compute; reflexivity|].
  eexists. vm_compute. reflexivity.
Qed.

(** ** Gaps no wider than the target spacing *)

Lemma py_range_none (a b T : Z) :
  0 < T -> b - a <= T -> py_range (a + T) b T = Ok [].
Proof.
  intros HT Hg. destruct (py_range_pos (a + T) b HT) as (l & E & Hl).
  rewrite E. f_equal. destruct l as [|x l]; [reflexivity|].
  destruct (proj1 (Hl x) (or_introl eq_refl)) as (k & Hk & -> & Hlt). nia.
Qed.

Lemma nth_pair_gap (rows : list Z) (i : nat) :
  In i (seq 0 (List.length rows - 1)) ->
  In (nth (S i) rows 0 - nth i rows 0) (consecutive_gaps rows).
Proof.
  intros Hi. rewrite <- gaps_by_index.
  apply (in_map (fun i => nth (S i) rows 0 - nth i rows 0)). exact Hi.
Qed.

Lemma column_pass_none (store : point_store) (np : output_map) (T : Z)
    (idx : axis_index) :
  0 < T -> gaps_within T idx -> column_pass store np T idx = Ok [].
Proof.
  intros HT G. apply for_each_nil. intros [col rows] Hkv.
  apply for_each_nil. intros i Hi. unfold fill_rows.
  rewrite py_range_none; [reflexivity | assumption |].
  apply (G (col, rows)); [assumption|]. apply nth_pair_gap; assumption.
Qed.

Lemma row_pass_none (store : point_store) (np : output_map) (T : Z)
    (idx : axis_index) :
  0 < T -> gaps_within T idx -> row_pass store np T idx = Ok [].
Proof.
  intros HT G. apply for_each_nil. intros [row cols] Hkv.
  apply for_each_nil. intros i Hi. unfold fill_cols.
  rewrite py_range_none; [reflexivity | assumption |].
  apply (G (row, cols)); [assumption|]. apply nth_pair_gap; assumption.
Qed.

(** C3, as amended: when the target spacing is positive and no gap
    between consecutive entries, in any column or row, exceeds it, no
    candidate is generated and the output mapping is the point store
    itself, key by key and triple by triple. *)
Theorem no_wide_gap_no_candidates (griddata : estimator) (pts : list point)
    (T : Z) (m : method) :
  0 < T ->
  gaps_within T (col_to_rows pts) ->
  gaps_within T (row_to_cols pts) ->
  gap_generator pts T = Ok [] /\
  interpolate_points griddata pts T m
  = Ok (map (fun kv => (fst kv, as_output (snd kv))) (col_row_map pts)).
Proof.
  intros HT Gc Gr.
  assert (E : gap_generator pts T = Ok []).
  { unfold gap_generator.
    rewrite column_pass_none, row_pass_none by assumption. reflexivity. }
  split; [exact E|].
  unfold interpolate_points. rewrite E. simpl.
  rewrite copy_store_map by apply col_row_map_NoDup. reflexivity.
Qed.

Lemma no_wide_gap_no_candidates_witness :
  gap_generator square_input 4 = Ok [] /\
  interpolate_points reference_griddata square_input 4 Cubic
  = Ok (map (fun kv => (fst kv, as_output (snd kv))) (col_row_map square_input)).
Proof.
  apply no_wide_gap_no_candidates; [lia | |];
    intros kv g Hkv Hg; vm_compute in Hkv;
    repeat (destruct Hkv as [<-|Hkv]; [vm_compute in Hg; intuition lia|]);
    destruct Hkv.
Defined.

(** C3, as stated, fails: a target spacing equal to the inferred spacing
    of both axes still generates candidates where a wider gap exists. *)
Lemma inferred_spacing_still_generates :
  ~ (forall pts T,
        0 < T -> row_spacing pts <= T -> col_spacing pts <= T ->
        gap_generator pts T = Ok []).
Proof.
  intros H. specialize (H long_gap_input 4).
  assert (E : gap_generator long_gap_input 4 = Ok []).
  { apply H; [lia | vm_compute; discriminate | vm_compute; discriminate]. }
  vm_compute in E. discriminate E.
Qed.

(** ** The column pass *)

Lemma store_get_key (pts : list point) (k : key) :
  In k (Dict.keys (col_row_map pts)) ->
  exists v, Dict.get k (col_row_map pts) = Some v.
Proof.
  intros I. destruct (Dict.get k (col_row_map pts)) as [v|] eqn:E; [eauto|].
  apply get_None_keys in E. contradiction.
Qed.

Lemma neighbours_in_store (pts : list point) (col : Z) (rows : list Z)
    (a b : Z) :
  In (col, rows) (col_to_rows pts) -> consecutive_in rows a b ->
  a < b /\
  exists p1 p2,
    Dict.get (col, a) (col_row_map pts) = Some p1 /\
    Dict.get (col, b) (col_row_map pts) = Some p2.
Proof.
  intros I C. destruct (col_to_rows_entry _ _ _ I) as [S M].
  destruct (consecutive_in_In C) as [Ia Ib].
  split; [exact (consecutive_in_lt S C)|].
  destruct (store_get_key pts (col, a)) as (p1 & E1); [apply M; assumption|].
  destruct (store_get_key pts (col, b)) as (p2 & E2); [apply M; assumption|].
  eauto.
Qed.

Lemma float_overflow_pos : 1 <= float_overflow.
Proof. vm_compute. discriminate. Qed.

(** [float_overflow] is where the rounded quotient leaves the floats:
    just below it the quotient is the largest float, at it infinity. *)
Lemma int_ratio_threshold :
  int_ratio (float_overflow - 1) 1 = 0x1.fffffffffffffp+1023%float /\
  int_ratio (3 * float_overflow - 1) 3 = 0x1.fffffffffffffp+1023%float /\
  int_ratio float_overflow 1 = infinity /\
  int_ratio (- (3 * float_overflow)) 3 = neg_infinity.
Proof. repeat split; vm_compute; reflexivity. Qed.

(** A quotient below 1 is within the range of the floats. *)
Lemma truediv_inside (n d : Z) :
  0 < n < d -> truediv n d = Ok (int_ratio n d).
Proof.
  intros H. unfold truediv.
  replace (d =? 0) with false by (symmetry; apply Z.eqb_neq; lia).
  destruct (float_overflow * Z.abs d <=? Z.abs n) eqn:O; [|reflexivity].
  apply Z.leb_le in O. pose proof float_overflow_pos as P.
  rewrite !Z.abs_eq in O by lia. nia.
Qed.

Lemma emit_row_between (pts : list point) (col : Z) (rows : list Z)
    (a b n : Z) (p1 p2 : float * float * float) :
  In (col, rows) (col_to_rows pts) -> consecutive_in rows a b -> a < n < b ->
  Dict.get (col, a) (col_row_map pts) = Some p1 ->
  Dict.get (col, b) (col_row_map pts) = Some p2 ->
  emit_row (col_row_map pts) (copy_store (col_row_map pts)) col a b n
  = Ok [made_in_column col a b p1 p2 n].
Proof.
  intros I C Hn E1 E2. destruct (col_to_rows_entry _ _ _ I) as [S M].
  unfold emit_row.
  replace (Dict.mem (col, n) (copy_store (col_row_map pts))) with false.
  - unfold Dict.getitem. rewrite E1, E2, truediv_inside by lia. reflexivity.
  - symmetry. apply mem_false_keys.
    rewrite copy_store_keys by apply col_row_map_NoDup.
    intros K. apply M in K. exact (sorted_no_between S C K Hn).
Qed.

Lemma fill_rows_actual (pts : list point) (T col : Z) (rows : list Z)
    (a b : Z) (p1 p2 : float * float * float) :
  0 < T -> In (col, rows) (col_to_rows pts) -> consecutive_in rows a b ->
  Dict.get (col, a) (col_row_map pts) = Some p1 ->
  Dict.get (col, b) (col_row_map pts) = Some p2 ->
  exists out,
    fill_rows (col_row_map pts) (copy_store (col_row_map pts)) T col a b
    = Ok out /\
    forall c, In c out <->
              exists k, 1 <= k /\ a + k * T < b /\
                        c = made_in_column col a b p1 p2 (a + k * T).
Proof.
  intros HT I C E1 E2.
  destruct (py_range_pos (a + T) b HT) as (l & E & Hl).
  unfold fill_rows. rewrite E. simpl bind.
  assert (Each : forall n, In n l ->
            emit_row (col_row_map pts) (copy_store (col_row_map pts)) col a b n
            = Ok [made_in_column col a b p1 p2 n]).
  { intros n Hn. apply Hl in Hn as (k & Hk & -> & Hlt).
    eapply emit_row_between; eauto. nia. }
  destruct (@for_each_total _ _
              (emit_row (col_row_map pts) (copy_store (col_row_map pts)) col a b) l)
    as (out & Eo).
  { intros n Hn. rewrite (Each n Hn). eauto. }
  exists out. split; [assumption|]. intros c.
  rewrite (for_each_Ok _ _ Eo). split.
  - intros (n & o & Hn & Ho & Hc). rewrite (Each n Hn) in Ho.
    inversion Ho; subst o. destruct Hc as [<-|[]].
    apply Hl in Hn as (k & Hk & -> & Hlt). exists (k + 1).
    split; [lia|]. replace (a + (k + 1) * T) with (a + T + k * T) by lia.
    auto.
  - intros (k & Hk & Hlt & ->).
    assert (Hn : In (a + k * T) l).
    { apply Hl. exists (k - 1). split; [lia|]. split; [lia | assumption]. }
    exists (a + k * T). eexists.
    split; [exact Hn|]. split; [apply Each; exact Hn | left; reflexivity].
Qed.

Lemma column_gaps_actual (pts : list point) (T col : Z) (rows : list Z) :
  0 < T -> In (col, rows) (col_to_rows pts) ->
  exists out,
    column_gaps (col_row_map pts) (copy_store (col_row_map pts)) T col rows
    = Ok out /\
    forall c, In c out <->
              exists a b k p1 p2,
                consecutive_in rows a b /\ 1 <= k /\ a + k * T < b /\
                Dict.get (col, a) (col_row_map pts) = Some p1 /\
                Dict.get (col, b) (col_row_map pts) = Some p2 /\
                c = made_in_column col a b p1 p2 (a + k * T).
Proof.
  intros HT I. unfold column_gaps.
  assert (Pair : forall i, In i (seq 0 (List.length rows - 1)) ->
                           consecutive_in rows (nth i rows 0) (nth (S i) rows 0)).
  { intros i Hi. apply in_seq in Hi. exists i. repeat split. lia. }
  match goal with |- exists out, for_each ?f ?l = _ /\ _ =>
    destruct (@for_each_total _ _ f l) as (out & Eo) end.
  { intros i Hi. destruct (@neighbours_in_store pts col rows _ _ I (Pair i Hi))
      as (_ & p1 & p2 & E1 & E2).
    destruct (@fill_rows_actual pts T col rows _ _ p1 p2 HT I (Pair i Hi) E1 E2) as (o & Eo & _). eauto. }
  exists out. split; [assumption|]. intros c.
  rewrite (for_each_Ok _ _ Eo). split.
  - intros (i & o & Hi & Ho & Hc).
    destruct (@neighbours_in_store pts col rows _ _ I (Pair i Hi)) as (_ & p1 & p2 & E1 & E2).
    destruct (@fill_rows_actual pts T col rows _ _ p1 p2 HT I (Pair i Hi) E1 E2) as (o' & Eo' & Ho').
    rewrite Eo' in Ho. injection Ho as <-.
    destruct (proj1 (Ho' c) Hc) as (k & Hk & Hlt & Ec).
    exists (nth i rows 0), (nth (S i) rows 0), k, p1, p2. auto 10.
  - intros (a & b & k & p1 & p2 & C & Hk & Hlt & E1 & E2 & ->).
    destruct (@fill_rows_actual pts T col rows _ _ p1 p2 HT I C E1 E2) as (o & Eo' & Ho').
    destruct C as (i & Hi & <- & <-).
    exists i, o. split; [apply in_seq; lia|]. split; [assumption|].
    apply Ho'. eauto.
Qed.

Lemma column_pass_actual (pts : list point) (T : Z) :
  0 < T ->
  exists out,
    column_pass (col_row_map pts) (copy_store (col_row_map pts)) T
      (col_to_rows pts) = Ok out /\
    forall c, In c out <->
              exists col rows a b k p1 p2,
                In (col, rows) (col_to_rows pts) /\
                consecutive_in rows a b /\ 1 <= k /\ a + k * T < b /\
                Dict.get (col, a) (col_row_map pts) = Some p1 /\
                Dict.get (col, b) (col_row_map pts) = Some p2 /\
                c = made_in_column col a b p1 p2 (a + k * T).
Proof.
  intros HT. unfold column_pass.
  match goal with |- exists out, for_each ?f ?l = _ /\ _ =>
    destruct (@for_each_total _ _ f l) as (out & Eo) end.
  { intros [col rows] I. destruct (@column_gaps_actual pts T col rows HT I) as (o & Eo & _).
    eauto. }
  exists out. split; [assumption|]. intros c.
  rewrite (for_each_Ok _ _ Eo). split.
  - intros ([col rows] & o & I & Ho & Hc).
    destruct (@column_gaps_actual pts T col rows HT I) as (o' & Eo' & Ho').
    simpl in Ho. rewrite Eo' in Ho. injection Ho as <-.
    destruct (proj1 (Ho' c) Hc) as (a & b & k & p1 & p2 & H).
    exists col, rows, a, b, k, p1, p2. tauto.
  - intros (col & rows & a & b & k & p1 & p2 & I & H).
    destruct (@column_gaps_actual pts T col rows HT I) as (o & Eo' & Ho').
    exists (col, rows), o. split; [assumption|]. split; [assumption|].
    apply Ho'. exists a, b, k, p1, p2. exact H.
Qed.

(** C5, as amended: with a positive target spacing the column pass
    returns, and its candidates are exactly the rows
    [r_i + T, r_i + 2T, ...] strictly below [r_next], for every column and
    every pair of consecutive existing rows [r_i < r_next]; each such
    candidate keeps the [x] of [(col, r_i)] exactly, and its [y] is the
    floating-point value of [y_i + (y_next - y_i) * ratio], where [ratio]
    is the float nearest to [(new_row - r_i) / (r_next - r_i)] and each
    operation is rounded. *)
Theorem column_pass_interpolates (pts : list point) (T : Z) :
  0 < T ->
  exists cands,
    column_pass (col_row_map pts) (copy_store (col_row_map pts)) T
      (col_to_rows pts) = Ok cands /\
    (forall c, In c cands ->
               column_candidate (col_row_map pts) (col_to_rows pts) T c) /\
    (forall col rows r_i r_next k,
        In (col, rows) (col_to_rows pts) -> consecutive_in rows r_i r_next ->
        1 <= k -> r_i + k * T < r_next ->
        In (col, r_i + k * T) (need_interp_indices cands)).
Proof.
  intros HT. destruct (column_pass_actual pts HT) as (cands & E & Hc).
  exists cands. split; [assumption|]. split.
  - intros c Ic.
    destruct (proj1 (Hc c) Ic)
      as (col & rows & a & b & k & p1 & p2 & I & C & Hk & Hlt & E1 & E2 & ->).
    exists col, rows, a, b, k, p1, p2.
    repeat (split; [assumption || reflexivity|]). reflexivity.
  - intros col rows a b k I C Hk Hlt.
    destruct (@neighbours_in_store pts col rows a b I C)
      as (_ & p1 & p2 & E1 & E2).
    unfold need_interp_indices.
    apply (in_map fst cands (made_in_column col a b p1 p2 (a + k * T))).
    apply Hc. exists col, rows, a, b, k, p1, p2. auto 10.
Qed.

Lemma column_pass_interpolates_witness :
  exists cands,
    column_pass (col_row_map square_input) (copy_store (col_row_map square_input))
      2 (col_to_rows square_input) = Ok cands /\
    (forall c, In c cands ->
               column_candidate (col_row_map square_input)
                 (col_to_rows square_input) 2 c) /\
    (forall col rows r_i r_next k,
        In (col, rows) (col_to_rows square_input) ->
        consecutive_in rows r_i r_next ->
        1 <= k -> r_i + k * 2 < r_next ->
        In (col, r_i + k * 2) (need_interp_indices cands)).
Proof. apply (@column_pass_interpolates square_input 2). lia. Defined.

(** C5, as stated, fails: the interpolated [y] is a rounded value and
    need not lie between the neighbours' [y].  On [steep_input] the
    difference of the two [y] overflows, and the candidate at row 1 has
    an infinite [y].  On [tall_input] the ratio [(2^70 - 1) / 2^70] rounds
    to 1 and the difference of the two [y] rounds upwards, and the
    candidate's [y] exceeds both neighbours'. *)
Lemma interpolated_y_leaves_interval :
  (exists y,
      column_pass (col_row_map steep_input)
        (copy_store (col_row_map steep_input)) 1 (col_to_rows steep_input)
      = Ok [((0, 1), (0%float, y))] /\
      y = infinity /\
      between (-0x1p1023) 0x1p1023 y = false) /\
  (exists y,
      column_pass (col_row_map tall_input)
        (copy_store (col_row_map tall_input)) (2 ^ 70 - 1)
        (col_to_rows tall_input)
      = Ok [((0, 2 ^ 70 - 1), (0%float, y))] /\
      (0x1.0000000000003p+0 <? y)%float = true /\
      between (-2) 0x1.0000000000003p+0 y = false).
Proof.
  split; eexists; (split; [vm_compute; reflexivity|]);
    split; vm_compute; reflexivity.
Qed.

(** ** Spacing inference *)

Lemma most_common_interval_rule (idx : axis_index) :
  spacing_rule idx (most_common_interval (intervals_all idx)).
Proof.
  unfold spacing_rule. rewrite intervals_all_observed. split.
  - apply most_common_interval_default.
  - apply most_common_interval_mode.
Qed.

(** C6: on each axis the inferred spacing follows the rule: over the
    positive gaps between consecutive entries of the first 100 axis keys
    (in insertion order), it is a most frequent gap among those greater
    than 1, and it is 4 when no gap greater than 1 was seen, which
    includes the case of no gap at all.  The column spacing reads the
    columns present in each row, the row spacing the rows present in each
    column. *)
Theorem spacing_inference (pts : list point) :
  spacing_rule (row_to_cols pts) (col_spacing pts) /\
  spacing_rule (col_to_rows pts) (row_spacing pts).
Proof.
  split; apply most_common_interval_rule.
Qed.

(** ** A second run *)

Section Covers.
Variable store : point_store.
Variable np : output_map.
Variable T : Z.
Hypothesis T_pos : 0 < T.

Lemma emit_row_covers col a b n o :
  emit_row store np col a b n = Ok o ->
  Dict.mem (col, n) np = true \/ In (col, n) (need_interp_indices o).
Proof.
  unfold emit_row. destruct (Dict.mem (col, n) np); [auto|].
  intros E. apply bind_Ok in E as (p1 & _ & E).
  apply bind_Ok in E as (p2 & _ & E). apply bind_Ok in E as (r & _ & E).
  injection E as <-. right; left; reflexivity.
Qed.

Lemma emit_col_covers row a b n o :
  emit_col store np row a b n = Ok o ->
  Dict.mem (n, row) np = true \/ In (n, row) (need_interp_indices o).
Proof.
  unfold emit_col. destruct (Dict.mem (n, row) np); [auto|].
  intros E. apply bind_Ok in E as (p1 & _ & E).
  apply bind_Ok in E as (p2 & _ & E). apply bind_Ok in E as (r & _ & E).
  injection E as <-. right; left; reflexivity.
Qed.

Lemma range_step_In (a b k : Z) (news : list Z) :
  py_range (a + T) b T = Ok news -> 1 <= k -> a + k * T < b ->
  In (a + k * T) news.
Proof.
  intros E Hk Hlt. destruct (py_range_pos (a + T) b T_pos) as (l & El & Hl).
  rewrite E in El. injection El as <-. apply Hl.
  exists (k - 1). split; [lia|]. split; [lia | assumption].
Qed.

Lemma column_pass_covers idx out :
  column_pass store np T idx = Ok out ->
  forall col rows a b k,
    In (col, rows) idx -> consecutive_in rows a b ->
    1 <= k -> a + k * T < b ->
    Dict.mem (col, a + k * T) np = true \/
    In (col, a + k * T) (need_interp_indices out).
Proof.
  intros E col rows a b k I (i & Hi & <- & <-) Hk Hlt.
  destruct (for_each_inv _ _ E _ I) as (o1 & E1 & S1). simpl in E1.
  destruct (for_each_inv _ _ E1 i) as (o2 & E2 & S2); [apply in_seq; lia|].
  apply bind_Ok in E2 as (news & En & E2).
  destruct (for_each_inv _ _ E2 _ (@range_step_In _ _ _ _ En Hk Hlt))
    as (o3 & E3 & S3).
  destruct (@emit_row_covers _ _ _ _ _ E3) as [M|Hin]; [left; exact M|].
  right. unfold need_interp_indices in *.
  apply in_map_iff in Hin as (c & Ec & Hc). apply in_map_iff.
  exists c. split; [exact Ec|]. auto.
Qed.

Lemma row_pass_covers idx out :
  row_pass store np T idx = Ok out ->
  forall row cols a b k,
    In (row, cols) idx -> consecutive_in cols a b ->
    1 <= k -> a + k * T < b ->
    Dict.mem (a + k * T, row) np = true \/
    In (a + k * T, row) (need_interp_indices out).
Proof.
  intros E row cols a b k I (i & Hi & <- & <-) Hk Hlt.
  destruct (for_each_inv _ _ E _ I) as (o1 & E1 & S1). simpl in E1.
  destruct (for_each_inv _ _ E1 i) as (o2 & E2 & S2); [apply in_seq; lia|].
  apply bind_Ok in E2 as (news & En & E2).
  destruct (for_each_inv _ _ E2 _ (@range_step_In _ _ _ _ En Hk Hlt))
    as (o3 & E3 & S3).
  destruct (@emit_col_covers _ _ _ _ _ E3) as [M|Hin]; [left; exact M|].
  right. unfold need_interp_indices in *.
  apply in_map_iff in Hin as (c & Ec & Hc). apply in_map_iff.
  exists c. split; [exact Ec|]. auto.
Qed.
End Covers.

(** C4, as amended: after a run with a positive target spacing, every
    grid-aligned position between two neighbours that were consecutive in
    a column or in a row of the input is a key of the output, and a
    second run with the same spacing, on points carrying exactly the keys
    of that output, emits no candidate at any of these keys.  (It can
    still emit candidates between points that the first run inserted.) *)
Theorem rerun_emits_only_new_keys (griddata : estimator) (pts : list point)
    (T : Z) (m : method) (out : output_map) (pts2 : list point)
    (cands2 : list candidate) :
  0 < T ->
  interpolate_points griddata pts T m = Ok out ->
  (forall k, In k (map point_key pts2) <-> In k (Dict.keys out)) ->
  gap_generator pts2 T = Ok cands2 ->
  (forall col rows r_i r_next k,
      In (col, rows) (col_to_rows pts) -> consecutive_in rows r_i r_next ->
      1 <= k -> r_i + k * T < r_next ->
      In (col, r_i + k * T) (Dict.keys out)) /\
  (forall row cols c_i c_next k,
      In (row, cols) (row_to_cols pts) -> consecutive_in cols c_i c_next ->
      1 <= k -> c_i + k * T < c_next ->
      In (c_i + k * T, row) (Dict.keys out)) /\
  (forall c, In c cands2 -> ~ In (fst c) (Dict.keys out)).
Proof.
  intros HT E Hkeys E2.
  apply interpolate_points_inv in E as (cands & zs & Eg & Ea & _).
  pose proof (add_results_keys _ _ _ _ Ea) as K.
  destruct (gap_generator_passes _ _ Eg) as (bc & br & Ec & Er & ->).
  assert (Sub : forall k,
             Dict.mem k (copy_store (col_row_map pts)) = true \/
             In k (need_interp_indices bc) \/ In k (need_interp_indices br) ->
             In k (Dict.keys out)).
  { intros k H. apply K. unfold need_interp_indices. rewrite map_app, in_app_iff.
    destruct H as [H|H]; [left; apply mem_keys; exact H | right; exact H]. }
  split; [|split].
  - intros col rows a b k I C Hk Hlt. apply Sub.
    destruct (@column_pass_covers _ _ _ HT _ _ Ec col rows a b k I C Hk Hlt);
      tauto.
  - intros row cols a b k I C Hk Hlt. apply Sub.
    destruct (@row_pass_covers _ _ _ HT _ _ Er row cols a b k I C Hk Hlt);
      tauto.
  - intros c Hc Hin. apply Hkeys in Hin. apply col_row_map_keys in Hin.
    exact (gap_generator_fresh _ _ E2 _ Hc Hin).
Qed.

Lemma rerun_emits_only_new_keys_witness :
  exists out pts2 cands2,
    interpolate_points reference_griddata square_input 2 Linear = Ok out /\
    reload (sort_by_key out) = pts2 /\
    gap_generator pts2 2 = Ok cands2 /\
    In (0, 2) (Dict.keys out) /\
    forall c, In c cands2 -> ~ In (fst c) (Dict.keys out).
Proof.
  eexists. eexists. eexists.
  split; [vm_compute; reflexivity|].
  split; [vm_compute; reflexivity|].
  match goal with
  | |- gap_generator ?p2 2 = Ok ?c2 /\
       In _ (Dict.keys ?o) /\ (forall c, In c ?c2 -> _) =>
      assert (G : gap_generator p2 2 = Ok c2) by (vm_compute; reflexivity);
      split; [exact G|];
      destruct (@rerun_emits_only_new_keys reference_griddata square_input 2
                  Linear o p2 c2) as (Hc & _ & Hn);
      [lia | vm_compute; reflexivity | intros k; vm_compute; tauto | exact G |]
  end.
  split; [|exact Hn].
  apply (Hc 0 [0; 4] 0 4 1); [vm_compute; tauto | | lia | lia].
  exists 0%nat. repeat split. simpl; lia.
Defined.

(** C4, as stated, fails: on the four corners of a square of side 4 the
    run with target spacing 2 fills the four edge midpoints, and a second
    run on that output still generates candidates. *)
Lemma second_run_still_generates :
  ~ (forall griddata pts T m out pts2,
        0 < T ->
        interpolate_points griddata pts T m = Ok out ->
        reload (sort_by_key out) = pts2 ->
        gap_generator pts2 T = Ok []).
Proof.
  intros H.
  destruct (interpolate_points reference_griddata square_input 2 Linear)
    as [out|e] eqn:E; [|vm_compute in E; discriminate E].
  specialize (H reference_griddata square_input 2 Linear out _
                ltac:(lia) E eq_refl).
  vm_compute in E. injection E as <-.
  vm_compute in H. discriminate H.
Qed.

(** ** Reading a file *)

Section ReaderFacts.
Variable float_of_string : string -> option float.
Variable int_of_string : string -> option Z.

Let step := read_line float_of_string int_of_string.

Lemma read_line_header (h : list string) (d : list point) (line : string) :
  step (mkReader h d true) line
  = mkReader (h ++ [line]) d (negb (is_end_marker line)).
Proof.
  unfold step, read_line, is_end_marker. simpl.
  destruct (startswith "# End:" (strip line)); reflexivity.
Qed.

Lemma read_line_body (h : list string) (d : list point) (line : string) :
  step (mkReader h d false) line
  = if blank_or_comment line
    then mkReader (h ++ [line]) d false
    else mkReader h (d ++ data_of_line float_of_string int_of_string line) false.
Proof.
  unfold step, read_line, blank_or_comment, data_of_line. simpl.
  destruct (is_empty (strip line) || startswith "#" (strip line)).
  - destruct (startswith "# End:" (strip line)); reflexivity.
  - destruct (parse_fields _ _ _); [reflexivity|].
    rewrite app_nil_r. reflexivity.
Qed.

Lemma read_before_marker (pre h : list string) (d : list point) :
  Forall (fun l => is_end_marker l = false) pre ->
  fold_left step pre (mkReader h d true) = mkReader (h ++ pre) d true.
Proof.
  revert h; induction pre as [|l pre IH]; intros h F; simpl.
  - rewrite app_nil_r; reflexivity.
  - inversion F as [|? ? Hl F']; subst.
    rewrite read_line_header, Hl. simpl negb.
    rewrite IH by assumption. rewrite <- app_assoc. reflexivity.
Qed.

Lemma read_after_marker (post h : list string) (d : list point) :
  fold_left step post (mkReader h d false)
  = mkReader (h ++ filter blank_or_comment post)
      (d ++ flat_map (data_of_line float_of_string int_of_string)
              (filter (fun l => negb (blank_or_comment l)) post))
      false.
Proof.
  revert h d; induction post as [|l post IH]; intros h d; simpl.
  - rewrite !app_nil_r; reflexivity.
  - rewrite read_line_body. destruct (blank_or_comment l); simpl.
    + rewrite IH, <- app_assoc. reflexivity.
    + rewrite IH, <- app_assoc. reflexivity.
Qed.

Lemma read_without_marker (lines : list string) :
  Forall (fun l => is_end_marker l = false) lines ->
  read_lines float_of_string int_of_string lines = (lines, []).
Proof.
  intros F. unfold read_lines. fold step.
  rewrite read_before_marker by assumption. reflexivity.
Qed.

(** C8, as amended: with [m] the first line whose stripped content begins
    with the end-of-header token, the header is every line up to and
    including [m], kept verbatim, followed by every later line that is
    blank or begins with [#]; the data points come, in order, from the
    remaining lines after [m] only, so no line at or before the marker is
    parsed as a data point. *)
Theorem header_and_data (pre : list string) (m : string) (post : list string) :
  Forall (fun l => is_end_marker l = false) pre ->
  is_end_marker m = true ->
  read_lines float_of_string int_of_string (pre ++ m :: post)
  = (pre ++ m :: filter blank_or_comment post,
     flat_map (data_of_line float_of_string int_of_string)
       (filter (fun l => negb (blank_or_comment l)) post)).
Proof.
  intros F M. unfold read_lines. fold step.
  rewrite fold_left_app, read_before_marker by assumption. simpl fold_left.
  rewrite read_line_header, M. simpl negb.
  rewrite read_after_marker. simpl. rewrite <- app_assoc. reflexivity.
Qed.
End ReaderFacts.

Lemma header_and_data_witness :
  read_lines decimal_float decimal_int commented_file
  = (ended ["# Horizon A"; "# End:"; "# note"]%string,
     [mkPoint 1 2 3 4 5; mkPoint 6 7 8 9 10]).
Proof.
  apply (@header_and_data decimal_float decimal_int
           (ended ["# Horizon A"%string]) ("# End:" ++ newline)%string
           (ended ["1 2 3 4 5"; "# note"; "6 7 8 9 10"]%string));
    [repeat constructor | reflexivity].
Defined.

(** C8, as stated, fails: a comment line after the marker is kept as a
    header line too, so the header is more than the lines up to and
    including the marker. *)
Lemma later_comment_joins_header :
  fst (read_lines decimal_float decimal_int commented_file)
  <> firstn 2 commented_file.
Proof. vm_compute. discriminate. Qed.

(** ** The program *)

Section ProgramFacts.
Variable float_of_string : string -> option float.
Variable int_of_string : string -> option Z.
Variable griddata : estimator.
Variable format_point : float -> float -> float -> Z -> Z -> string.

Let run := interpolate_horizon float_of_string int_of_string griddata format_point.

Lemma bind_print {B : Type} (msg : message) (k : unit -> io B) (w : world) :
  io_bind (print msg) k w = k tt (mkWorld (files w) (stdout w ++ [msg])).
Proof. reflexivity. Qed.

Lemma bind_lift_Ok {A B : Type} (a : A) (k : A -> io B) (w : world) :
  io_bind (lift (Ok a)) k w = k a w.
Proof. reflexivity. Qed.

Lemma bind_read {B : Type} (filename : string) (lines : list string)
    (k : list string * list point -> io B) (w : world) :
  lookup_file filename (files w) = Some lines ->
  io_bind (read_horizon_file float_of_string int_of_string filename) k w
  = k (read_lines float_of_string int_of_string lines) w.
Proof.
  intros L. unfold io_bind, read_horizon_file. rewrite L. reflexivity.
Qed.

(** C9: when the input file yields no valid data point, the call prints
    the banner, the file name, the count 0 and the empty-input
    diagnostic, and returns; every file, the output path included, is
    left as it was, whatever the estimator would have done. *)
Theorem empty_input_writes_nothing (input_file output_file : string)
    (target_spacing : Z) (m : method) (w : world) (lines : list string) :
  lookup_file input_file (files w) = Some lines ->
  snd (read_lines float_of_string int_of_string lines) = [] ->
  run input_file output_file target_spacing m w
  = (Done tt,
     mkWorld (files w)
       (stdout w ++
        [MsgRule; MsgTitle; MsgRule; MsgBlank; MsgReading input_file;
         MsgPointsRead 0; MsgNoPoints])).
Proof.
  intros L E. unfold run, interpolate_horizon.
  rewrite !bind_print.
  match goal with |- io_bind _ ?k ?w0 = _ =>
    rewrite (@bind_read _ input_file lines k w0 L) end.
  rewrite E. rewrite bind_print. simpl.
  unfold print. simpl. rewrite <- !app_assoc. reflexivity.
Qed.
End ProgramFacts.

Lemma empty_input_writes_nothing_witness :
  interpolate_horizon decimal_float decimal_int reference_griddata
    (fun _ _ _ _ _ => EmptyString) "in.dat" "out.dat" 2 Linear pointless_world
  = (Done tt,
     mkWorld (files pointless_world)
       [MsgRule; MsgTitle; MsgRule; MsgBlank; MsgReading "in.dat";
        MsgPointsRead 0; MsgNoPoints]).
Proof.
  apply (@empty_input_writes_nothing decimal_float decimal_int
           reference_griddata (fun _ _ _ _ _ => EmptyString)
           "in.dat"%string "out.dat"%string 2 Linear pointless_world
           pointless_file);
    reflexivity.
Defined.

Section Link.
Variable float_of_string : string -> option float.
Variable int_of_string : string -> option Z.
Variable griddata : estimator.
Variable format_point : float -> float -> float -> Z -> Z -> string.

Lemma print_all_run (ms : list message) (w : world) :
  print_all ms w = (Done tt, mkWorld (files w) (stdout w ++ ms)).
Proof.
  revert w; induction ms as [|m ms IH]; intros w; simpl.
  - rewrite app_nil_r. destruct w; reflexivity.
  - unfold io_bind, print. rewrite IH. simpl. rewrite <- app_assoc. reflexivity.
Qed.

Ltac io_step :=
  cbv beta iota delta [io_bind print lift ret write_file]; cbn [files stdout fst snd].

(** What [interpolate_horizon] leaves behind is decided by
    [interpolate_points]: when it returns a mapping, the output file holds
    the text made of the header lines followed by the formatted points in
    key order. *)
Lemma interpolate_horizon_writes (input_file output_file : string)
    (target_spacing : Z) (m : method) (w : world) (lines : list string)
    (final : output_map) :
  lookup_file input_file (files w) = Some lines ->
  snd (read_lines float_of_string int_of_string lines) <> [] ->
  interpolate_points griddata
    (snd (read_lines float_of_string int_of_string lines)) target_spacing m
  = Ok final ->
  exists log,
    interpolate_horizon float_of_string int_of_string griddata format_point
      input_file output_file target_spacing m w
    = (Done tt,
       mkWorld
         (store_file output_file
            (splitlines
               (String.concat ""
                  (fst (read_lines float_of_string int_of_string lines) ++
                   map (format_entry format_point) (sort_by_key final))))
            (files w))
         log).
Proof.
  intros L NE E. unfold interpolate_horizon, format_entry.
  rewrite !bind_print.
  match goal with |- exists log, io_bind _ ?k ?w0 = _ =>
    rewrite (@bind_read float_of_string int_of_string _ input_file lines k w0 L) end.
  destruct (read_lines float_of_string int_of_string lines) as [header points].
  simpl fst in *. simpl snd in *.
  destruct points as [|p ps]; [contradiction|].
  set (pts := p :: ps) in *.
  unfold interpolate_points in E.
  destruct (gap_generator pts target_spacing) as [cands|e] eqn:Eg;
    [|discriminate E].
  cbv beta iota delta [bind] in E.
  change (Datatypes.length pts =? 0)%nat with false.
  io_step.
  destruct cands as [|c cands].
  - simpl in E. injection E as <-.
    change (0 <? Datatypes.length (@nil (Z * Z * (float * float))))%nat with false.
    io_step.
    rewrite print_all_run. io_step. eexists. reflexivity.
  - change (0 <? Datatypes.length (c :: cands))%nat with true in *.
    io_step. unfold estimate_z in E.
    destruct (griddata _ _ _ m) as [z0|e] eqn:E0; [|discriminate E].
    cbv beta iota delta [bind] in E. io_step.
    destruct (existsb (fun b => b) (map is_nan z0)); cbv beta iota delta [bind] in E; io_step.
    + destruct (mask_select _ _) as [u|e]; [|discriminate E].
      cbv beta iota delta [bind] in E. io_step.
      destruct (griddata _ _ u Nearest) as [zn|e]; [|discriminate E].
      cbv beta iota delta [bind] in E. io_step.
      destruct (mask_assign z0 _ zn) as [zf|e]; [|discriminate E].
      cbv beta iota delta [bind] in E. io_step. rewrite E. io_step.
      rewrite print_all_run. io_step. eexists. reflexivity.
    + cbv beta iota delta [bind] in E. rewrite E. io_step.
      rewrite print_all_run. io_step. eexists. reflexivity.
Qed.

(** When [interpolate_points] raises, the exception leaves the call and
    no file is written. *)
Lemma interpolate_horizon_raises (input_file output_file : string)
    (target_spacing : Z) (m : method) (w : world) (lines : list string)
    (e : exn) :
  lookup_file input_file (files w) = Some lines ->
  snd (read_lines float_of_string int_of_string lines) <> [] ->
  interpolate_points griddata
    (snd (read_lines float_of_string int_of_string lines)) target_spacing m
  = Raise e ->
  exists log,
    interpolate_horizon float_of_string int_of_string griddata format_point
      input_file output_file target_spacing m w
    = (Uncaught e, mkWorld (files w) log).
Proof.
  intros L NE E. unfold interpolate_horizon.
  rewrite !bind_print.
  match goal with |- exists log, io_bind _ ?k ?w0 = _ =>
    rewrite (@bind_read float_of_string int_of_string _ input_file lines k w0 L) end.
  destruct (read_lines float_of_string int_of_string lines) as [header points].
  simpl fst in *. simpl snd in *.
  destruct points as [|p ps]; [contradiction|].
  set (pts := p :: ps) in *.
  unfold interpolate_points in E.
  change (Datatypes.length pts =? 0)%nat with false.
  destruct (gap_generator pts target_spacing) as [cands|e0] eqn:Eg;
    cbv beta iota delta [bind] in E; io_step;
    [|injection E as ->; eexists; reflexivity].
  destruct cands as [|c cands]; [discriminate E|].
  change (0 <? Datatypes.length (c :: cands))%nat with true in *.
  io_step. unfold estimate_z in E.
  destruct (griddata _ _ _ m) as [z0|e0] eqn:E0;
    cbv beta iota delta [bind] in E; io_step;
    [|injection E as ->; eexists; reflexivity].
  destruct (existsb (fun b => b) (map is_nan z0));
    cbv beta iota delta [bind] in E; io_step.
  - destruct (mask_select _ _) as [u|e0];
      cbv beta iota delta [bind] in E; io_step;
      [|injection E as ->; eexists; reflexivity].
    destruct (griddata _ _ u Nearest) as [zn|e0];
      cbv beta iota delta [bind] in E; io_step;
      [|injection E as ->; eexists; reflexivity].
    destruct (mask_assign z0 _ zn) as [zf|e0];
      cbv beta iota delta [bind] in E; io_step;
      [|injection E as ->; eexists; reflexivity].
    rewrite E. io_step. eexists; reflexivity.
  - rewrite E. io_step. eexists; reflexivity.
Qed.
End Link.

(** ** When the computation returns *)

Lemma emit_col_total (pts : list point) (row : Z) (cols : list Z)
    (a b n : Z) :
  In (row, cols) (row_to_cols pts) -> consecutive_in cols a b -> a < n < b ->
  exists o,
    emit_col (col_row_map pts) (copy_store (col_row_map pts)) row a b n = Ok o.
Proof.
  intros I C Hn. destruct (row_to_cols_entry _ _ _ I) as [S M].
  destruct (consecutive_in_In C) as [Ia Ib].
  pose proof (consecutive_in_lt S C) as Hab.
  destruct (store_get_key pts (a, row)) as (p1 & E1); [apply M; assumption|].
  destruct (store_get_key pts (b, row)) as (p2 & E2); [apply M; assumption|].
  unfold emit_col.
  destruct (Dict.mem (n, row) (copy_store (col_row_map pts))); [eauto|].
  unfold Dict.getitem. rewrite E1, E2, truediv_inside by lia.
  cbv beta iota delta [bind]. eauto.
Qed.

Lemma row_pass_total (pts : list point) (T : Z) :
  0 < T ->
  exists out,
    row_pass (col_row_map pts) (copy_store (col_row_map pts)) T
      (row_to_cols pts) = Ok out.
Proof.
  intros HT. apply for_each_total. intros [row cols] I.
  apply for_each_total. intros i Hi.
  cbv beta. cbn [fst snd] in *. apply in_seq in Hi. unfold fill_cols.
  destruct (py_range_pos (nth i cols 0 + T) (nth (S i) cols 0) HT)
    as (l & E & Hl).
  rewrite E. simpl bind. apply for_each_total. intros n Hn.
  apply Hl in Hn as (k & Hk & -> & Hlt).
  apply (@emit_col_total pts row cols); [assumption | | nia].
  exists i. repeat split. lia.
Qed.

Lemma gap_generator_total (pts : list point) (T : Z) :
  0 < T -> exists cands, gap_generator pts T = Ok cands.
Proof.
  intros HT. unfold gap_generator.
  destruct (column_pass_actual pts HT) as (bc & Ec & _).
  destruct (row_pass_total pts HT) as (br & Er).
  rewrite Ec, Er. simpl. eauto.
Qed.

(** With a positive target spacing and an estimator that gives one
    result per query and does not raise on the data, the computation
    returns. *)
Lemma interpolate_points_returns (griddata : estimator) (pts : list point)
    (T : Z) (m : method) :
  0 < T -> griddata_shape griddata ->
  (forall queries m',
      exists z0, griddata (map (fun p => (px p, py p)) pts) (map pz pts)
                   queries m' = Ok z0) ->
  exists out, interpolate_points griddata pts T m = Ok out.
Proof.
  intros HT S Total. destruct (gap_generator_total pts HT) as (cands & Eg).
  unfold interpolate_points. rewrite Eg. cbv beta iota delta [bind].
  destruct cands as [|c cands]; [simpl; eauto|].
  cbn [List.length Nat.ltb Nat.leb].
  destruct (Total (need_interp_points (c :: cands)) m) as (z0 & E0).
  destruct (@estimate_z_run griddata S pts (c :: cands) m z0 E0)
    as (u & Eu & _ & Ho).
  assert (F : exists zn, fallback_call griddata pts z0 u = Ok zn).
  { unfold fallback_call.
    destruct (existsb (fun b => b) (map is_nan z0)); [apply Total | eauto]. }
  destruct F as (zn & Ef). destruct (Ho zn Ef) as (zs & Ez & Lz & _).
  rewrite Ez. apply add_results_total. simpl in *. lia.
Qed.

(** * Further properties of the code *)

(** ** The point store *)

Lemma col_row_map_get_last (l1 l2 : list point) (p : point) :
  (forall q, In q l2 -> point_key q <> point_key p) ->
  Dict.get (point_key p) (col_row_map (l1 ++ p :: l2))
  = Some (px p, py p, pz p).
Proof.
  induction l2 as [|q l2 IH] using rev_ind; intros H.
  - rewrite col_row_map_snoc. apply get_set_same.
  - replace (l1 ++ p :: l2 ++ [q]) with ((l1 ++ p :: l2) ++ [q])
      by (rewrite <- app_assoc; reflexivity).
    rewrite col_row_map_snoc, get_set_other.
    + apply IH. intros q' Hq'. apply H. apply in_or_app; left; exact Hq'.
    + apply H. apply in_or_app; right; left; reflexivity.
Qed.

(** X1: the point store holds one entry per distinct [(col,row)] key of
    the input, and when several input points share a key the entry is
    the triple of the last of them. *)
Theorem store_keeps_last_point (pts : list point) :
  NoDup (Dict.keys (col_row_map pts)) /\
  (forall k, In k (Dict.keys (col_row_map pts)) <->
             exists p, In p pts /\ point_key p = k) /\
  (forall l1 p l2,
      pts = l1 ++ p :: l2 ->
      (forall q, In q l2 -> point_key q <> point_key p) ->
      Dict.get (point_key p) (col_row_map pts) = Some (px p, py p, pz p)).
Proof.
  split; [apply col_row_map_NoDup|]. split.
  - intros k. rewrite col_row_map_keys, in_map_iff. split.
    + intros (p & E & I). eauto.
    + intros (p & I & E). eauto.
  - intros l1 p l2 -> H. apply col_row_map_get_last; assumption.
Qed.

(** ** The axis index *)

Lemma mem_existsb (k : Z) (d : axis_index) :
  Dict.mem k d = existsb (Z.eqb k) (Dict.keys d).
Proof.
  unfold Dict.mem. induction d as [|[k' l] d IH]; simpl; [reflexivity|].
  destruct (k =? k'); simpl; [reflexivity | exact IH].
Qed.

Lemma keys_add_entry (k v : Z) (d : axis_index) :
  Dict.keys (append_entry k v (init_entry k d))
  = if existsb (Z.eqb k) (Dict.keys d) then Dict.keys d else Dict.keys d ++ [k].
Proof.
  rewrite <- mem_existsb. unfold append_entry, init_entry.
  destruct (Dict.mem k d) eqn:M.
  - unfold Dict.mem in M. destruct (Dict.get k d) as [l|] eqn:G; [|discriminate].
    rewrite keys_set. unfold Dict.mem. rewrite G. reflexivity.
  - rewrite get_set_same, !keys_set, M.
    replace (Dict.mem k (Dict.set k [] d)) with true; [reflexivity|].
    symmetry. unfold Dict.mem. rewrite get_set_same. reflexivity.
Qed.

Lemma first_occurrences_snoc (l : list Z) (z : Z) :
  first_occurrences (l ++ [z])
  = if existsb (Z.eqb z) (first_occurrences l) then first_occurrences l
    else first_occurrences l ++ [z].
Proof. unfold first_occurrences. rewrite fold_left_app. reflexivity. Qed.

Lemma collect_axes_keys (pts : list point) :
  Dict.keys (fst (collect_axes pts)) = first_occurrences (map pcol pts) /\
  Dict.keys (snd (collect_axes pts)) = first_occurrences (map prow pts).
Proof.
  induction pts as [|p pts [IH1 IH2]] using rev_ind; [split; reflexivity|].
  rewrite collect_axes_snoc, !map_app. simpl map. simpl fst. simpl snd.
  rewrite !first_occurrences_snoc, !keys_add_entry, IH1, IH2.
  split; reflexivity.
Qed.

Lemma sort_entries_keys (d : axis_index) :
  Dict.keys (sort_entries d) = Dict.keys d.
Proof. unfold sort_entries, Dict.keys. rewrite map_map. reflexivity. Qed.

(** X2: the axis index of the columns lists the distinct columns of the
    input in order of first appearance; the rows of each entry are
    strictly increasing and are exactly the rows of the input points of
    that column.  The axis index of the rows is the same with columns and
    rows exchanged. *)
Theorem axis_index_entries (pts : list point) :
  (Dict.keys (col_to_rows pts) = first_occurrences (map pcol pts) /\
   forall col rows,
     In (col, rows) (col_to_rows pts) ->
     StronglySorted Z.lt rows /\
     forall r, In r rows <-> exists p, In p pts /\ pcol p = col /\ prow p = r) /\
  (Dict.keys (row_to_cols pts) = first_occurrences (map prow pts) /\
   forall row cols,
     In (row, cols) (row_to_cols pts) ->
     StronglySorted Z.lt cols /\
     forall c, In c cols <-> exists p, In p pts /\ prow p = row /\ pcol p = c).
Proof.
  destruct (collect_axes_keys pts) as [K1 K2]. split; split.
  - unfold col_to_rows. rewrite sort_entries_keys. exact K1.
  - intros col rows I. destruct (col_to_rows_entry _ _ _ I) as [S M].
    split; [exact S|]. intros r. rewrite M, col_row_map_keys, in_map_iff.
    unfold point_key. split.
    + intros (p & E & Ip). inversion E. eauto.
    + intros (p & Ip & <- & <-). eauto.
  - unfold row_to_cols. rewrite sort_entries_keys. exact K2.
  - intros row cols I. destruct (row_to_cols_entry _ _ _ I) as [S M].
    split; [exact S|]. intros c. rewrite M, col_row_map_keys, in_map_iff.
    unfold point_key. split.
    + intros (p & E & Ip). inversion E. eauto.
    + intros (p & Ip & <- & <-). eauto.
Qed.

(** ** What the generator emits and what the merge keeps *)

(** X3: whatever the target spacing, no candidate that the two passes
    emit carries a key of the point store. *)
Theorem candidates_avoid_store_keys (pts : list point) (T : Z)
    (cands : list candidate) :
  gap_generator pts T = Ok cands ->
  forall c, In c cands -> Dict.get (fst c) (col_row_map pts) = None.
Proof.
  intros E c Hc. apply get_None_keys.
  eapply gap_generator_fresh; eassumption.
Qed.

Lemma candidates_avoid_store_keys_witness :
  exists cands,
    gap_generator square_input 2 = Ok cands /\
    forall c, In c cands -> Dict.get (fst c) (col_row_map square_input) = None.
Proof.
  eexists. split; [vm_compute; reflexivity|].
  apply (@candidates_avoid_store_keys square_input 2). vm_compute; reflexivity.
Defined.

Lemma add_results_NoDup (cands : list candidate) (zs : list float) :
  forall i np out,
    NoDup (Dict.keys np) ->
    add_results i cands zs np = Ok out -> NoDup (Dict.keys out).
Proof.
  induction cands as [|[k0 xy] rest IH]; simpl; intros i np out ND E.
  - injection E as <-. exact ND.
  - destruct (nth_error zs i) as [z|]; [|discriminate].
    eapply IH; [|exact E]. apply NoDup_keys_set; exact ND.
Qed.

(** X4: the final mapping has pairwise distinct keys, and its keys are
    exactly the keys of the point store together with the keys of the
    emitted candidates. *)
Theorem output_key_set (griddata : estimator) (pts : list point) (T : Z)
    (m : method) (out : output_map) :
  interpolate_points griddata pts T m = Ok out ->
  NoDup (Dict.keys out) /\
  exists cands,
    gap_generator pts T = Ok cands /\
    forall k, In k (Dict.keys out) <->
              In k (Dict.keys (col_row_map pts)) \/
              In k (need_interp_indices cands).
Proof.
  intros E. apply interpolate_points_inv in E as (cands & zs & Eg & Ea & _).
  assert (ND : NoDup (Dict.keys (copy_store (col_row_map pts)))).
  { rewrite copy_store_keys by apply col_row_map_NoDup.
    apply col_row_map_NoDup. }
  split; [exact (add_results_NoDup _ _ _ _ ND Ea)|].
  exists cands. split; [exact Eg|]. intros k.
  rewrite (add_results_keys _ _ _ _ Ea).
  rewrite copy_store_keys by apply col_row_map_NoDup. tauto.
Qed.

Lemma output_key_set_witness :
  exists out,
    interpolate_points reference_griddata square_input 2 Nearest = Ok out /\
    NoDup (Dict.keys out) /\
    exists cands,
      gap_generator square_input 2 = Ok cands /\
      forall k, In k (Dict.keys out) <->
                In k (Dict.keys (col_row_map square_input)) \/
                In k (need_interp_indices cands).
Proof.
  eexists. split; [vm_compute; reflexivity|].
  apply (@output_key_set reference_griddata square_input 2 Nearest).
  vm_compute; reflexivity.
Defined.

(** ** Spacing inference, again *)

Lemma most_common_interval_above_one (l : list Z) : 1 < most_common_interval l.
Proof.
  destruct (existsb (fun g => 1 <? g) l) eqn:X.
  - apply existsb_exists in X as (g & I & G). apply Z.ltb_lt in G.
    apply (most_common_interval_mode l). eauto.
  - rewrite most_common_interval_default; [lia|].
    intros g I. destruct (Z_lt_le_dec 1 g) as [G|G]; [|lia].
    assert (existsb (fun g => 1 <? g) l = true) as X'.
    { apply existsb_exists. exists g. split; [exact I|]. apply Z.ltb_lt; exact G. }
    congruence.
Qed.

(** X5: on every input both inferred spacings are integers greater
    than 1. *)
Theorem inferred_spacing_above_one (pts : list point) :
  1 < col_spacing pts /\ 1 < row_spacing pts.
Proof. split; apply most_common_interval_above_one. Qed.

(** ** Target spacings that are not positive *)

Lemma py_range_neg_none (a b T : Z) :
  T < 0 -> a < b -> py_range (a + T) b T = Ok [].
Proof.
  intros HT Hab. unfold py_range.
  replace (T =? 0) with false by (symmetry; apply Z.eqb_neq; lia).
  replace (0 <? T) with false by (symmetry; apply Z.ltb_ge; lia).
  assert (N : (a + T - b - T - 1) / - T < 0)
    by (apply Z.div_lt_upper_bound; lia).
  replace (Z.to_nat ((a + T - b - T - 1) / - T)) with 0%nat by lia.
  reflexivity.
Qed.

Lemma column_pass_neg (pts : list point) (T : Z) :
  T < 0 ->
  column_pass (col_row_map pts) (copy_store (col_row_map pts)) T
    (col_to_rows pts) = Ok [].
Proof.
  intros HT. apply for_each_nil. intros [col rows] I.
  apply for_each_nil. intros i Hi. cbn [fst snd] in *. apply in_seq in Hi.
  destruct (col_to_rows_entry _ _ _ I) as [S _].
  unfold fill_rows. rewrite py_range_neg_none; [reflexivity | assumption |].
  apply sorted_nth_lt; [assumption | lia | lia].
Qed.

Lemma row_pass_neg (pts : list point) (T : Z) :
  T < 0 ->
  row_pass (col_row_map pts) (copy_store (col_row_map pts)) T
    (row_to_cols pts) = Ok [].
Proof.
  intros HT. apply for_each_nil. intros [row cols] I.
  apply for_each_nil. intros i Hi. cbn [fst snd] in *. apply in_seq in Hi.
  destruct (row_to_cols_entry _ _ _ I) as [S _].
  unfold fill_cols. rewrite py_range_neg_none; [reflexivity | assumption |].
  apply sorted_nth_lt; [assumption | lia | lia].
Qed.

Lemma gap_generator_neg (pts : list point) (T : Z) :
  T < 0 -> gap_generator pts T = Ok [].
Proof.
  intros HT. unfold gap_generator.
  rewrite column_pass_neg, row_pass_neg by assumption. reflexivity.
Qed.

(** X6: a negative target spacing generates no candidate: the estimator
    is not called and the final mapping is the point store itself. *)
Theorem negative_spacing_changes_nothing (griddata : estimator)
    (pts : list point) (T : Z) (m : method) :
  T < 0 ->
  gap_generator pts T = Ok [] /\
  interpolate_points griddata pts T m
  = Ok (map (fun kv => (fst kv, as_output (snd kv))) (col_row_map pts)).
Proof.
  intros HT. pose proof (gap_generator_neg pts HT) as E.
  split; [exact E|]. unfold interpolate_points. rewrite E. simpl.
  rewrite copy_store_map by apply col_row_map_NoDup. reflexivity.
Qed.

Lemma negative_spacing_changes_nothing_witness :
  gap_generator square_input (-2) = Ok [] /\
  interpolate_points reference_griddata square_input (-2) Linear
  = Ok (map (fun kv => (fst kv, as_output (snd kv))) (col_row_map square_input)).
Proof. apply negative_spacing_changes_nothing. lia. Defined.

Section ZeroStep.
Variable store : point_store.
Variable np : output_map.

Lemma column_gaps_zero (col : Z) (rows : list Z) :
  column_gaps store np 0 col rows
  = if (List.length rows <=? 1)%nat then Ok [] else Raise ValueError.
Proof.
  unfold column_gaps. destruct rows as [|a [|b rows]]; try reflexivity.
Qed.

Lemma row_gaps_zero (row : Z) (cols : list Z) :
  row_gaps store np 0 row cols
  = if (List.length cols <=? 1)%nat then Ok [] else Raise ValueError.
Proof.
  unfold row_gaps. destruct cols as [|a [|b cols]]; try reflexivity.
Qed.

Lemma for_each_zero {A : Type} (f : A -> result (list candidate))
    (long : A -> bool) (l : list A) :
  (forall a, f a = if long a then Raise ValueError else Ok []) ->
  for_each f l = if existsb long l then Raise ValueError else Ok [].
Proof.
  intros H. induction l as [|a l IH]; simpl; [reflexivity|].
  rewrite H. destruct (long a); simpl; [reflexivity|].
  rewrite IH. destruct (existsb long l); reflexivity.
Qed.

Lemma column_pass_zero (idx : axis_index) :
  column_pass store np 0 idx
  = if existsb (fun kv => negb (List.length (snd kv) <=? 1)%nat) idx
    then Raise ValueError else Ok [].
Proof.
  apply for_each_zero. intros [col rows]. cbn [fst snd].
  rewrite column_gaps_zero. destruct (List.length rows <=? 1)%nat; reflexivity.
Qed.

Lemma row_pass_zero (idx : axis_index) :
  row_pass store np 0 idx
  = if existsb (fun kv => negb (List.length (snd kv) <=? 1)%nat) idx
    then Raise ValueError else Ok [].
Proof.
  apply for_each_zero. intros [row cols]. cbn [fst snd].
  rewrite row_gaps_zero. destruct (List.length cols <=? 1)%nat; reflexivity.
Qed.
End ZeroStep.

Lemma gap_generator_zero (pts : list point) :
  gap_generator pts 0
  = if existsb (fun kv => negb (List.length (snd kv) <=? 1)%nat)
         (col_to_rows pts ++ row_to_cols pts)
    then Raise ValueError else Ok [].
Proof.
  unfold gap_generator. rewrite column_pass_zero, row_pass_zero, existsb_app.
  destruct (existsb _ (col_to_rows pts)); [reflexivity|].
  destruct (existsb _ (row_to_cols pts)); reflexivity.
Qed.

(** X7: gap generation never fails on a lookup or a division: for every
    input and every target spacing it returns its candidates, except that
    a target spacing of 0 can raise [ValueError]. *)
Theorem gap_generator_outcomes (pts : list point) (T : Z) :
  (exists cands, gap_generator pts T = Ok cands) \/
  (T = 0 /\ gap_generator pts T = Raise ValueError).
Proof.
  destruct (Z.lt_trichotomy T 0) as [N|[->|P]].
  - left. exists []. apply gap_generator_neg; exact N.
  - rewrite gap_generator_zero. destruct (existsb _ _); [right | left]; eauto.
  - left. apply gap_generator_total; exact P.
Qed.

Lemma two_members (l : list Z) (a b : Z) :
  In a l -> In b l -> a <> b -> (List.length l <=? 1)%nat = false.
Proof.
  intros Ia Ib N. destruct l as [|x [|y l]]; simpl in *; try reflexivity.
  - destruct Ia.
  - destruct Ia as [<-|[]], Ib as [<-|[]]. contradiction.
Qed.

Lemma col_to_rows_has (pts : list point) (p : point) :
  In p pts ->
  exists rows, In (pcol p, rows) (col_to_rows pts) /\ In (prow p) rows.
Proof.
  intros I. destruct (collect_axes_groups pts) as [[ND G] _].
  specialize (G (pcol p)).
  assert (Ip : In (pcol p, prow p) (map (fun q => (pcol q, prow q)) pts))
    by (apply (in_map (fun q => (pcol q, prow q))); exact I).
  destruct (Dict.get (pcol p) (fst (collect_axes pts))) as [l|] eqn:E.
  - exists (sorted_set l). split.
    + apply get_Some_In in E. unfold col_to_rows, sort_entries.
      apply (in_map (fun kv => (fst kv, sorted_set (snd kv))) _ _ E).
    + apply sorted_set_In. apply G. exact Ip.
  - exfalso. exact (G _ Ip).
Qed.

Lemma row_to_cols_has (pts : list point) (p : point) :
  In p pts ->
  exists cols, In (prow p, cols) (row_to_cols pts) /\ In (pcol p) cols.
Proof.
  intros I. destruct (collect_axes_groups pts) as [_ [ND G]].
  specialize (G (prow p)).
  assert (Ip : In (prow p, pcol p) (map (fun q => (prow q, pcol q)) pts))
    by (apply (in_map (fun q => (prow q, pcol q))); exact I).
  destruct (Dict.get (prow p) (snd (collect_axes pts))) as [l|] eqn:E.
  - exists (sorted_set l). split.
    + apply get_Some_In in E. unfold row_to_cols, sort_entries.
      apply (in_map (fun kv => (fst kv, sorted_set (snd kv))) _ _ E).
    + apply sorted_set_In. apply G. exact Ip.
  - exfalso. exact (G _ Ip).
Qed.

(** X8: with target spacing 0, as soon as two input points share a
    column with different rows, or share a row with different columns,
    the computation raises [ValueError], whatever the estimator. *)
Theorem zero_spacing_raises (griddata : estimator) (pts : list point)
    (m : method) (p q : point) :
  In p pts -> In q pts ->
  (pcol p = pcol q /\ prow p <> prow q) \/
  (prow p = prow q /\ pcol p <> pcol q) ->
  gap_generator pts 0 = Raise ValueError /\
  interpolate_points griddata pts 0 m = Raise ValueError.
Proof.
  intros Ip Iq H.
  assert (E : gap_generator pts 0 = Raise ValueError).
  { rewrite gap_generator_zero.
    replace (existsb _ (col_to_rows pts ++ row_to_cols pts)) with true;
      [reflexivity|].
    symmetry. apply existsb_exists. destruct H as [[Ec N]|[Er N]].
    - destruct (col_to_rows_has pts p Ip) as (rows & I & Rp).
      destruct (col_to_rows_entry _ _ _ I) as [_ M].
      exists (pcol p, rows). split; [apply in_or_app; left; exact I|].
      cbn [snd]. rewrite (@two_members rows (prow p) (prow q)); auto.
      apply M. rewrite Ec. apply col_row_map_keys.
      apply (in_map point_key _ _ Iq).
    - destruct (row_to_cols_has pts p Ip) as (cols & I & Cp).
      destruct (row_to_cols_entry _ _ _ I) as [_ M].
      exists (prow p, cols). split; [apply in_or_app; right; exact I|].
      cbn [snd]. rewrite (@two_members cols (pcol p) (pcol q)); auto.
      apply M. rewrite Er. apply col_row_map_keys.
      apply (in_map point_key _ _ Iq). }
  split; [exact E|]. unfold interpolate_points. rewrite E. reflexivity.
Qed.

Lemma zero_spacing_raises_witness :
  gap_generator square_input 0 = Raise ValueError /\
  interpolate_points reference_griddata square_input 0 Linear
  = Raise ValueError.
Proof.
  apply (@zero_spacing_raises reference_griddata square_input Linear
           (mkPoint 0 0 1 0 0) (mkPoint 0 4 2 0 4)).
  - left; reflexivity.
  - right; left; reflexivity.
  - left. split; [reflexivity | discriminate].
Defined.

(** ** Files *)

Lemma lookup_store_same (path : string) (lines : list string)
    (fs : list (string * list string)) :
  lookup_file path (store_file path lines fs) = Some lines.
Proof.
  induction fs as [|[p old] fs IH]; simpl.
  - rewrite String.eqb_refl; reflexivity.
  - destruct (String.eqb path p) eqn:E; simpl; rewrite E; auto.
Qed.

Lemma lookup_store_other (path other : string) (lines : list string)
    (fs : list (string * list string)) :
  other <> path ->
  lookup_file other (store_file path lines fs) = lookup_file other fs.
Proof.
  intros N. induction fs as [|[p old] fs IH]; simpl.
  - replace (String.eqb other path) with false; [reflexivity|].
    symmetry. apply String.eqb_neq; exact N.
  - destruct (String.eqb path p) eqn:E; simpl.
    + apply String.eqb_eq in E; subst p.
      replace (String.eqb other path) with false; [reflexivity|].
      symmetry. apply String.eqb_neq; exact N.
    + rewrite IH. reflexivity.
Qed.

(** ** Sorting the output *)

Lemma key_leb_lt (a b : Z * Z) :
  key_leb a b = true -> a <> b -> key_lt a b.
Proof.
  destruct a as [a1 a2], b as [b1 b2]. unfold key_leb, key_lt. simpl.
  intros H N.
  apply orb_true_iff in H as [H|H].
  - apply Z.ltb_lt in H. left; exact H.
  - apply andb_true_iff in H as [H1 H2].
    apply Z.eqb_eq in H1. apply Z.leb_le in H2. right. split; [exact H1|].
    destruct (Z.eq_dec a2 b2) as [->|]; [subst; contradiction | lia].
Qed.

Lemma key_leb_false_lt (a b : Z * Z) : key_leb a b = false -> key_lt b a.
Proof.
  destruct a as [a1 a2], b as [b1 b2]. unfold key_leb, key_lt. simpl.
  intros H. apply orb_false_iff in H as [H1 H2]. apply Z.ltb_ge in H1.
  destruct (Z.eq_dec a1 b1) as [->|N]; [|left; lia].
  rewrite Z.eqb_refl in H2. simpl in H2. apply Z.leb_gt in H2.
  right. split; [reflexivity | exact H2].
Qed.

Lemma key_lt_trans (a b c : Z * Z) : key_lt a b -> key_lt b c -> key_lt a c.
Proof. unfold key_lt. intros H1 H2. lia. Qed.

Section SortFacts.
Context {V : Type}.
Implicit Types (x : (Z * Z) * V) (l : list ((Z * Z) * V)).

Lemma insert_by_key_In x y l :
  In y (insert_by_key x l) <-> y = x \/ In y l.
Proof.
  induction l as [|z l IH]; simpl; [intuition|].
  destruct (key_leb (fst x) (fst z)); simpl; [intuition|].
  rewrite IH. intuition.
Qed.

Lemma insert_by_key_sorted x l :
  StronglySorted (fun a b => key_lt (fst a) (fst b)) l ->
  ~ In (fst x) (map fst l) ->
  StronglySorted (fun a b => key_lt (fst a) (fst b)) (insert_by_key x l).
Proof.
  induction l as [|z l IH]; simpl; intros S N.
  - repeat constructor.
  - inversion S as [|? ? S' F]; subst.
    destruct (key_leb (fst x) (fst z)) eqn:E.
    + assert (L : key_lt (fst x) (fst z))
        by (apply key_leb_lt; [exact E | intros Q; apply N; left; congruence]).
      constructor; [exact S|]. constructor; [exact L|].
      eapply Forall_impl; [|exact F]. intros b Hb.
      eapply key_lt_trans; eassumption.
    + constructor; [apply IH; [exact S' | tauto]|].
      apply Forall_forall. intros b Hb.
      apply insert_by_key_In in Hb as [->|Hb].
      * apply key_leb_false_lt; exact E.
      * rewrite Forall_forall in F. apply F; exact Hb.
Qed.

Lemma sort_by_key_In y l : In y (sort_by_key l) <-> In y l.
Proof.
  unfold sort_by_key. induction l as [|x l IH]; simpl; [tauto|].
  rewrite insert_by_key_In, IH. intuition.
Qed.

Lemma sort_by_key_sorted l :
  NoDup (map fst l) ->
  StronglySorted (fun a b => key_lt (fst a) (fst b)) (sort_by_key l).
Proof.
  unfold sort_by_key. induction l as [|x l IH]; simpl; intros ND;
    [constructor|].
  inversion ND as [|? ? N ND']; subst.
  apply insert_by_key_sorted; [apply IH; exact ND'|].
  intros I. apply N. apply in_map_iff in I as (y & E & Hy).
  apply in_map_iff. exists y. split; [exact E|].
  apply (sort_by_key_In y l). exact Hy.
Qed.
End SortFacts.

(** ** Written text, read as lines *)

Lemma append_nil_r (s : string) : (s ++ "")%string = s.
Proof. induction s as [|c s IH]; simpl; [|rewrite IH]; reflexivity. Qed.

Lemma append_assoc (a b c : string) :
  ((a ++ b) ++ c)%string = (a ++ (b ++ c))%string.
Proof. induction a as [|x a IH]; simpl; [|rewrite IH]; reflexivity. Qed.

Lemma concat_cons (x : string) (xs : list string) :
  String.concat "" (x :: xs) = (x ++ String.concat "" xs)%string.
Proof.
  destruct xs as [|y xs]; simpl; [rewrite append_nil_r|]; reflexivity.
Qed.

Lemma splitlines_ended (body rest : string) :
  no_line_break body = true ->
  splitlines (body ++ newline ++ rest) = (body ++ newline)%string :: splitlines rest.
Proof.
  induction body as [|c body IH]; intros H.
  - reflexivity.
  - simpl in H. apply andb_true_iff in H as [Hc Hb].
    unfold is_line_break in Hc. apply negb_true_iff, orb_false_iff in Hc as [L R].
    cbn [append splitlines]. rewrite L, R.
    change (body ++ String LF rest)%string with (body ++ newline ++ rest)%string.
    rewrite (IH Hb). reflexivity.
Qed.

(** Complete lines written one after the other are read back as they
    were written. *)
Lemma splitlines_concat (l : list string) :
  Forall ended_line l -> splitlines (String.concat "" l) = l.
Proof.
  induction 1 as [|x l (body & -> & Hb) F IH]; [reflexivity|].
  rewrite concat_cons, append_assoc, (splitlines_ended _ _ Hb), IH.
  reflexivity.
Qed.

Lemma ended_line_entry
    (format_point : float -> float -> float -> Z -> Z -> string)
    (kv : (Z * Z) * (float * float * float)) :
  formats_one_line format_point -> ended_line (format_entry format_point kv).
Proof.
  intros F. unfold format_entry. eexists. split; [reflexivity | apply F].
Qed.

Lemma ended_lines (contents : list string) :
  forallb no_line_break contents = true -> Forall ended_line (ended contents).
Proof.
  intros H. apply Forall_forall. intros l Hl. unfold ended in Hl.
  apply in_map_iff in Hl as (c & <- & Hc). exists c. split; [reflexivity|].
  rewrite forallb_forall in H. auto.
Qed.

Section ProgramMore.
Variable float_of_string : string -> option float.
Variable int_of_string : string -> option Z.
Variable griddata : estimator.
Variable format_point : float -> float -> float -> Z -> Z -> string.

(** X9: when the input path names no file, the call prints the banner,
    the file name and the file-not-found diagnostic, then exits with
    status 1; no file is written. *)
Theorem missing_input_exits (input_file output_file : string)
    (target_spacing : Z) (m : method) (w : world) :
  lookup_file input_file (files w) = None ->
  interpolate_horizon float_of_string int_of_string griddata format_point
    input_file output_file target_spacing m w
  = (SysExit 1,
     mkWorld (files w)
       (stdout w ++
        [MsgRule; MsgTitle; MsgRule; MsgBlank; MsgReading input_file;
         MsgFileNotFound input_file])).
Proof.
  intros L. unfold interpolate_horizon. rewrite !bind_print.
  unfold io_bind at 1. unfold read_horizon_file. cbn [files stdout].
  rewrite L. unfold io_bind, print, sys_exit. cbn [files stdout].
  rewrite <- !app_assoc. reflexivity.
Qed.

(** X10: when the computation returns a mapping, the call returns and
    the output path holds the text made of the header lines followed by
    one formatted line per entry of the mapping, each entry once, in
    strictly ascending order of (col, row); every other path is left as
    it was.  When every header line is a complete line and the formatting
    of a point produces no line break, the lines of the output are the
    header lines followed by the formatted lines. *)
Theorem written_file_is_sorted (input_file output_file : string)
    (target_spacing : Z) (m : method) (w : world) (lines : list string)
    (final : output_map) :
  lookup_file input_file (files w) = Some lines ->
  snd (read_lines float_of_string int_of_string lines) <> [] ->
  interpolate_points griddata
    (snd (read_lines float_of_string int_of_string lines)) target_spacing m
  = Ok final ->
  exists sorted_points w',
    interpolate_horizon float_of_string int_of_string griddata format_point
      input_file output_file target_spacing m w = (Done tt, w') /\
    lookup_file output_file (files w')
    = Some (splitlines
              (String.concat ""
                 (fst (read_lines float_of_string int_of_string lines) ++
                  map (format_entry format_point) sorted_points))) /\
    (Forall ended_line (fst (read_lines float_of_string int_of_string lines)) ->
     formats_one_line format_point ->
     lookup_file output_file (files w')
     = Some (fst (read_lines float_of_string int_of_string lines) ++
             map (format_entry format_point) sorted_points)) /\
    (forall kv, In kv sorted_points <-> In kv final) /\
    StronglySorted (fun a b => key_lt (fst a) (fst b)) sorted_points /\
    (forall path, path <> output_file ->
                  lookup_file path (files w') = lookup_file path (files w)).
Proof.
  intros L NE E.
  destruct (interpolate_horizon_writes float_of_string int_of_string griddata
              format_point input_file output_file target_spacing m w L NE E)
    as (log & R).
  exists (sort_by_key final). eexists. split; [exact R|]. cbn [files].
  split; [apply lookup_store_same|].
  split.
  { intros H F. rewrite lookup_store_same, splitlines_concat; [reflexivity|].
    apply Forall_app. split; [exact H|].
    apply Forall_forall. intros l Hl. apply in_map_iff in Hl as (kv & <- & _).
    apply ended_line_entry; exact F. }
  split; [intros kv; apply sort_by_key_In|]. split.
  - apply sort_by_key_sorted.
    apply interpolate_points_inv in E as (cands & zs & _ & Ea & _).
    refine (add_results_NoDup _ _ _ _ _ Ea).
    rewrite copy_store_keys by apply col_row_map_NoDup.
    apply col_row_map_NoDup.
  - intros path N. apply lookup_store_other; exact N.
Qed.
End ProgramMore.

Lemma missing_input_exits_witness :
  interpolate_horizon decimal_float decimal_int reference_griddata
    (fun _ _ _ _ _ => EmptyString) "absent.dat" "out.dat" 2 Linear
    pointless_world
  = (SysExit 1,
     mkWorld (files pointless_world)
       [MsgRule; MsgTitle; MsgRule; MsgBlank; MsgReading "absent.dat";
        MsgFileNotFound "absent.dat"]).
Proof.
  apply (@missing_input_exits decimal_float decimal_int reference_griddata
           (fun _ _ _ _ _ => EmptyString) "absent.dat"%string
           "out.dat"%string 2 Linear pointless_world).
  reflexivity.
Defined.

Lemma written_file_is_sorted_witness :
  exists final,
    interpolate_points reference_griddata
      (snd (read_lines decimal_float decimal_int square_file)) 2 Nearest
    = Ok final /\
    exists sorted_points w',
      interpolate_horizon decimal_float decimal_int reference_griddata
        (fun _ _ _ _ _ => "point"%string) "in.dat" "out.dat" 2 Nearest
        square_world = (Done tt, w') /\
      lookup_file "out.dat" (files w')
      = Some (fst (read_lines decimal_float decimal_int square_file) ++
              map (format_entry (fun _ _ _ _ _ => "point"%string))
                sorted_points) /\
      (forall kv, In kv sorted_points <-> In kv final) /\
      StronglySorted (fun a b => key_lt (fst a) (fst b)) sorted_points /\
      (forall path, path <> "out.dat"%string ->
                    lookup_file path (files w')
                    = lookup_file path (files square_world)).
Proof.
  destruct (interpolate_points reference_griddata
              (snd (read_lines decimal_float decimal_int square_file)) 2 Nearest)
    as [final|] eqn:E; [|vm_compute in E; discriminate E].
  exists final. split; [reflexivity|].
  destruct (@written_file_is_sorted decimal_float decimal_int
              reference_griddata (fun _ _ _ _ _ => "point"%string)
              "in.dat"%string "out.dat"%string 2 Nearest square_world
              square_file final eq_refl)
    as (sorted_points & w' & R & _ & Hl & H);
    [vm_compute; discriminate | exact E |].
  exists sorted_points, w'. split; [exact R|]. split; [|exact H].
  apply Hl.
  - change (fst (read_lines decimal_float decimal_int square_file))
      with (ended ["# Horizon A"; "# End:"]%string).
    apply ended_lines. reflexivity.
  - intros x y z col row. reflexivity.
Defined.

(** ** The fallback touches only what was undefined *)

(** X11: when the estimation step returns, its first, batched call
    returned some [z0], and the nearest-sample fallback never changes a
    defined estimate: wherever [z0] holds a number, the final list holds
    that number at the same place.  Without NaN in [z0] the final list is
    [z0].  Otherwise exactly one more call was made, by nearest sample, on
    the queries whose first result is NaN, in order; it returned one
    value per such query, and the place of the [n]-th undefined result
    holds the [n]-th of these values. *)
Theorem fallback_keeps_defined (griddata : estimator) (pts : list point)
    (cands : list candidate) (m : method) (zs : list float) :
  estimate_z griddata pts cands m = Ok zs ->
  exists z0,
    griddata (map (fun p => (px p, py p)) pts) (map pz pts)
      (need_interp_points cands) m = Ok z0 /\
    (forall i z, nth_error z0 i = Some z -> is_nan z = false ->
                 nth_error zs i = Some z) /\
    (existsb (fun b => b) (map is_nan z0) = false -> zs = z0) /\
    (existsb (fun b => b) (map is_nan z0) = true ->
     exists undefined_xy z_nearest,
       mask_select (need_interp_points cands) (map is_nan z0)
       = Ok undefined_xy /\
       griddata (map (fun p => (px p, py p)) pts) (map pz pts)
         undefined_xy Nearest = Ok z_nearest /\
       List.length z_nearest = count_true (map is_nan z0) /\
       forall i z,
         nth_error z0 i = Some z -> is_nan z = true ->
         nth_error zs i
         = nth_error z_nearest (count_true (firstn i (map is_nan z0)))).
Proof.
  intros E. apply estimate_z_inv in E as (z0 & E0 & Hf & Ht).
  exists z0. split; [exact E0|]. split; [|split; [exact Hf|]].
  - intros i z Hi N.
    destruct (existsb (fun b => b) (map is_nan z0)) eqn:X.
    + destruct (Ht eq_refl) as (u & zn & _ & _ & _ & Hz).
      rewrite Hz. unfold refilled. rewrite Hi, N. reflexivity.
    + rewrite (Hf eq_refl). exact Hi.
  - intros X. destruct (Ht X) as (u & zn & Eu & En & Ln & Hz).
    exists u, zn. repeat (split; [assumption|]).
    intros i z Hi N. rewrite Hz. unfold refilled. rewrite Hi, N. reflexivity.
Qed.

Lemma fallback_keeps_defined_witness :
  let half : estimator :=
    fun points values queries m =>
      match m with
      | Nearest => reference_griddata points values queries Nearest
      | _ => Ok (map (fun xy => if PrimFloat.leb (fst xy) 1 then 7%float else nan)
                   queries)
      end in
  exists cands zs,
    gap_generator square_input 2 = Ok cands /\
    estimate_z half square_input cands Linear = Ok zs /\
    exists z0,
      half (map (fun p => (px p, py p)) square_input) (map pz square_input)
        (need_interp_points cands) Linear = Ok z0 /\
      nth_error z0 0 = Some 7%float /\ nth_error zs 0 = Some 7%float.
Proof.
  intros half. eexists. eexists.
  split; [vm_compute; reflexivity|].
  match goal with |- ?B /\ _ =>
    assert (E : B) by (vm_compute; reflexivity)
  end.
  split; [exact E|].
  destruct (fallback_keeps_defined _ _ _ _ E) as (z0 & E0 & K & _).
  exists z0. split; [exact E0|].
  assert (H0 : nth_error z0 0 = Some 7%float).
  { vm_compute in E0. injection E0 as <-. reflexivity. }
  split; [exact H0|]. exact (K 0%nat _ H0 eq_refl).
Defined.

(** ** Reading, again *)

Lemma first_marker (lines : list string) :
  Forall (fun l => is_end_marker l = false) lines \/
  exists pre m post,
    lines = pre ++ m :: post /\
    Forall (fun l => is_end_marker l = false) pre /\ is_end_marker m = true.
Proof.
  induction lines as [|l lines IH]; [left; constructor|].
  destruct (is_end_marker l) eqn:M.
  - right. exists [], l, lines. repeat split; [constructor | exact M].
  - destruct IH as [F|(pre & m & post & -> & F & Hm)].
    + left. constructor; assumption.
    + right. exists (l :: pre), m, post.
      repeat split; [constructor; assumption | exact Hm].
Qed.

Lemma filter_none {A : Type} (f : A -> bool) (l : list A) :
  Forall (fun a => f a = false) l -> filter f l = [].
Proof.
  induction 1 as [|a l Ha _ IH]; simpl; [reflexivity|].
  rewrite Ha. exact IH.
Qed.

Lemma filter_all {A : Type} (f : A -> bool) (l : list A) :
  Forall (fun a => f a = true) l -> filter f l = l.
Proof.
  induction 1 as [|a l Ha _ IH]; simpl; [reflexivity|].
  rewrite Ha, IH. reflexivity.
Qed.

Lemma filter_twice {A : Type} (f : A -> bool) (l : list A) :
  filter f (filter f l) = filter f l.
Proof.
  apply filter_all. apply Forall_forall. intros a Ha.
  apply filter_In in Ha. tauto.
Qed.

Lemma filter_negb_filter {A : Type} (f : A -> bool) (l : list A) :
  filter (fun a => negb (f a)) (filter f l) = [].
Proof.
  apply filter_none. apply Forall_forall. intros a Ha.
  apply filter_In in Ha as [_ Ha]. rewrite Ha. reflexivity.
Qed.

Section ReaderMore.
Variable float_of_string : string -> option float.
Variable int_of_string : string -> option Z.

Let step := read_line float_of_string int_of_string.

(** X12: a file in which no line begins, once stripped, with the
    end-of-header token is all header: it yields no data point, however
    many well-formed data lines it holds. *)
Theorem file_without_marker_has_no_points (lines : list string) :
  Forall (fun l => is_end_marker l = false) lines ->
  read_lines float_of_string int_of_string lines = (lines, []).
Proof. apply read_without_marker. Qed.

Lemma read_with_marker (pre : list string) (m : string) (post : list string) :
  Forall (fun l => is_end_marker l = false) pre ->
  is_end_marker m = true ->
  read_lines float_of_string int_of_string (pre ++ m :: post)
  = (pre ++ m :: filter blank_or_comment post,
     flat_map (data_of_line float_of_string int_of_string)
       (filter (fun l => negb (blank_or_comment l)) post)).
Proof.
  intros F M. unfold read_lines. fold step.
  pose proof (read_before_marker float_of_string int_of_string) as B.
  pose proof (read_line_header float_of_string int_of_string) as H.
  pose proof (read_after_marker float_of_string int_of_string) as A.
  fold step in B, H, A.
  rewrite fold_left_app, B by assumption. simpl fold_left.
  rewrite H, M. simpl negb. rewrite A. simpl. rewrite <- app_assoc.
  reflexivity.
Qed.

(** X13: the header survives a rewrite, provided its lines are complete.
    When a file yields at least one point and each of its header lines
    ends with a line feed, reading the text that is written for it (its
    header lines followed by complete data lines, none of them blank or
    beginning with [#]) gives back the same header lines, and the points
    of exactly those data lines. *)
Theorem header_survives_rewrite (lines data_lines : list string) :
  snd (read_lines float_of_string int_of_string lines) <> [] ->
  Forall ended_line (fst (read_lines float_of_string int_of_string lines)) ->
  Forall ended_line data_lines ->
  Forall (fun l => blank_or_comment l = false) data_lines ->
  read_lines float_of_string int_of_string
    (splitlines
       (String.concat ""
          (fst (read_lines float_of_string int_of_string lines) ++ data_lines)))
  = (fst (read_lines float_of_string int_of_string lines),
     flat_map (data_of_line float_of_string int_of_string) data_lines).
Proof.
  intros NE Hh Hd D.
  rewrite splitlines_concat by (apply Forall_app; split; assumption).
  clear Hh Hd.
  destruct (first_marker lines) as [F|(pre & m & post & -> & F & M)].
  - rewrite (@read_without_marker float_of_string int_of_string lines F) in NE.
    contradiction.
  - rewrite (@read_with_marker pre m post F M). cbn [fst].
    replace ((pre ++ m :: filter blank_or_comment post) ++ data_lines)
      with (pre ++ m :: (filter blank_or_comment post ++ data_lines))
      by (rewrite <- app_assoc; reflexivity).
    rewrite (@read_with_marker pre m _ F M).
    rewrite !filter_app, filter_twice, filter_negb_filter.
    rewrite (@filter_none _ blank_or_comment data_lines D), app_nil_r. simpl.
    rewrite (@filter_all _ (fun l => negb (blank_or_comment l)) data_lines);
      [reflexivity|].
    eapply Forall_impl; [|exact D]. intros l Hl. cbv beta in Hl.
    rewrite Hl. reflexivity.
Qed.
End ReaderMore.

Lemma file_without_marker_has_no_points_witness :
  read_lines decimal_float decimal_int (ended ["# Horizon A"; "1 2 3 4 5"]%string)
  = (ended ["# Horizon A"; "1 2 3 4 5"]%string, []).
Proof.
  apply file_without_marker_has_no_points. repeat constructor.
Defined.

Lemma header_survives_rewrite_witness :
  read_lines decimal_float decimal_int
    (splitlines
       (String.concat ""
          (fst (read_lines decimal_float decimal_int commented_file) ++
           ended ["7 7 7 1 1"; "8 8 8 2 2"]%string)))
  = (fst (read_lines decimal_float decimal_int commented_file),
     flat_map (data_of_line decimal_float decimal_int)
       (ended ["7 7 7 1 1"; "8 8 8 2 2"]%string)).
Proof.
  apply header_survives_rewrite.
  - vm_compute. discriminate.
  - change (fst (read_lines decimal_float decimal_int commented_file))
      with (ended ["# Horizon A"; "# End:"; "# note"]%string).
    apply ended_lines. reflexivity.
  - apply ended_lines. reflexivity.
  - repeat constructor.
Defined.

(** ** The row pass *)

Lemma truediv_Ok (a b : Z) (r : float) :
  truediv a b = Ok r -> r = int_ratio a b.
Proof.
  unfold truediv. destruct (b =? 0); [discriminate|].
  destruct (float_overflow * Z.abs b <=? Z.abs a); [discriminate|].
  intros [= <-]. reflexivity.
Qed.

Lemma emit_col_made (store : point_store) (np : output_map)
    (row a b n : Z) (o : list candidate) (c : candidate) :
  emit_col store np row a b n = Ok o -> In c o ->
  exists p1 p2,
    Dict.get (a, row) store = Some p1 /\
    Dict.get (b, row) store = Some p2 /\
    c = ((n, row), (lerp (fst (fst p1)) (fst (fst p2)) a b n, snd (fst p1))).
Proof.
  unfold emit_col. destruct (Dict.mem (n, row) np).
  - intros [= <-] [].
  - intros E Hc. apply bind_Ok in E as (p1 & E1 & E).
    apply bind_Ok in E as (p2 & E2 & E). apply bind_Ok in E as (r & Er & E).
    injection E as <-. destruct Hc as [<-|[]].
    apply getitem_Ok in E1. apply getitem_Ok in E2.
    apply truediv_Ok in Er. subst r.
    exists p1, p2. repeat split; assumption.
Qed.

(** X14: with a positive target spacing the row pass returns, and each
    of its candidates sits at [c_i + kT], [k >= 1], strictly left of
    [c_next], for a row and two consecutive existing columns
    [c_i < c_next] of that row; it keeps the [y] of [(c_i, row)] exactly,
    and its [x] is the floating-point value of
    [x_i + (x_next - x_i) * ratio], where [ratio] is the float nearest to
    [(new_col - c_i) / (c_next - c_i)] and each operation is rounded. *)
Theorem row_pass_interpolates (pts : list point) (T : Z) :
  0 < T ->
  exists cands,
    row_pass (col_row_map pts) (copy_store (col_row_map pts)) T
      (row_to_cols pts) = Ok cands /\
    forall c, In c cands ->
              row_candidate (col_row_map pts) (row_to_cols pts) T c.
Proof.
  intros HT. destruct (row_pass_total pts HT) as (cands & E).
  exists cands. split; [exact E|]. intros c Hc.
  apply (for_each_Ok _ _ E) in Hc as ([row cols] & o1 & I & E1 & Hc).
  cbn [fst snd] in E1.
  apply (for_each_Ok _ _ E1) in Hc as (i & o2 & Hi & E2 & Hc).
  apply in_seq in Hi. unfold fill_cols in E2.
  apply bind_Ok in E2 as (news & En & E2).
  apply (for_each_Ok _ _ E2) in Hc as (n & o3 & Hn & E3 & Hc).
  destruct (py_range_pos (nth i cols 0 + T) (nth (S i) cols 0) HT)
    as (l & El & Hl).
  rewrite En in El. injection El as <-.
  apply Hl in Hn as (k & Hk & -> & Hlt).
  destruct (@emit_col_made _ _ _ _ _ _ _ _ E3 Hc)
    as (p1 & p2 & G1 & G2 & ->).
  set (a := nth i cols 0) in *. set (b := nth (S i) cols 0) in *.
  replace (a + T + k * T) with (a + (k + 1) * T) in * by lia.
  exists row, cols, a, b, (k + 1), p1, p2.
  split; [exact I|]. split; [exists i; repeat split; lia|].
  split; [lia|]. split; [exact Hlt|]. split; [exact G1|]. split; [exact G2|].
  split; [reflexivity|]. split; reflexivity.
Qed.

Lemma row_pass_interpolates_witness :
  exists cands,
    row_pass (col_row_map square_input) (copy_store (col_row_map square_input))
      2 (row_to_cols square_input) = Ok cands /\
    forall c, In c cands ->
              row_candidate (col_row_map square_input)
                (row_to_cols square_input) 2 c.
Proof. apply (@row_pass_interpolates square_input 2). lia. Defined.

(** ** Surrounding white space *)

Lemma rstrip_twice (s : string) : rstrip (rstrip s) = rstrip s.
Proof.
  induction s as [|c s IH]; [reflexivity|]. simpl.
  destruct (rstrip s) as [|d r] eqn:R.
  - destruct (is_space c) eqn:Sp; simpl; [reflexivity|]. rewrite Sp. reflexivity.
  - change (rstrip (String c (String d r)))
      with (match rstrip (String d r) with
            | EmptyString =>
                if is_space c then EmptyString else String c EmptyString
            | String _ _ as r' => String c r'
            end).
    rewrite IH. reflexivity.
Qed.

Lemma lstrip_head (s : string) :
  lstrip s = EmptyString \/
  exists c t, lstrip s = String c t /\ is_space c = false.
Proof.
  induction s as [|c s IH]; simpl; [left; reflexivity|].
  destruct (is_space c) eqn:Sp; [exact IH|]. right. eauto.
Qed.

Lemma lstrip_rstrip (s : string) :
  lstrip (rstrip (lstrip s)) = rstrip (lstrip s).
Proof.
  destruct (lstrip_head s) as [->|(c & t & -> & Sp)]; [reflexivity|].
  simpl. destruct (rstrip t); [rewrite Sp|]; simpl; rewrite Sp; reflexivity.
Qed.

Lemma strip_twice (s : string) : strip (strip s) = strip s.
Proof. unfold strip. rewrite lstrip_rstrip, rstrip_twice. reflexivity. Qed.

Section Whitespace.
Variable float_of_string : string -> option float.
Variable int_of_string : string -> option Z.

Let step := read_line float_of_string int_of_string.

Lemma read_line_stripped (st1 st2 : reader_state) (line : string) :
  header_lines st1 = map strip (header_lines st2) ->
  data_points st1 = data_points st2 ->
  in_header st1 = in_header st2 ->
  header_lines (step st1 (strip line))
  = map strip (header_lines (step st2 line)) /\
  data_points (step st1 (strip line)) = data_points (step st2 line) /\
  in_header (step st1 (strip line)) = in_header (step st2 line).
Proof.
  intros H D B. unfold step, read_line. rewrite strip_twice, B.
  destruct (in_header st2 || is_empty (strip line)
            || startswith "#" (strip line)); cbn [header_lines data_points in_header].
  - rewrite H, D, map_app. auto.
  - destruct (parse_fields _ _ _); cbn [header_lines data_points in_header];
      rewrite ?D; auto.
Qed.

Lemma read_stripped (lines : list string) :
  forall st1 st2,
    header_lines st1 = map strip (header_lines st2) ->
    data_points st1 = data_points st2 ->
    in_header st1 = in_header st2 ->
    header_lines (fold_left step (map strip lines) st1)
    = map strip (header_lines (fold_left step lines st2)) /\
    data_points (fold_left step (map strip lines) st1)
    = data_points (fold_left step lines st2).
Proof.
  induction lines as [|l lines IH]; intros st1 st2 H D B; simpl; [auto|].
  destruct (read_line_stripped st1 st2 l H D B) as (H' & D' & B').
  apply IH; assumption.
Qed.

(** X15: white space around a line never changes what is read from it:
    reading the stripped lines gives the same data points, and the same
    header lines, stripped. *)
Theorem surrounding_space_is_ignored (lines : list string) :
  read_lines float_of_string int_of_string (map strip lines)
  = (map strip (fst (read_lines float_of_string int_of_string lines)),
     snd (read_lines float_of_string int_of_string lines)).
Proof.
  unfold read_lines. fold step. cbn [fst snd].
  destruct (read_stripped lines (mkReader [] [] true) (mkReader [] [] true))
    as [H D]; try reflexivity.
  rewrite H, D. reflexivity.
Qed.
End Whitespace.

(** * The smoothing tool *)

From Stdlib Require Import Sorting.Permutation.

(** ** Stable sorting of points *)

Lemma insert_with_perm (leb : point -> point -> bool) (p : point)
    (l : list point) :
  Permutation (insert_with leb p l) (p :: l).
Proof.
  induction l as [|q l IH]; simpl; [apply Permutation_refl|].
  destruct (leb p q); [apply Permutation_refl|].
  apply perm_trans with (q :: p :: l); [|apply perm_swap].
  apply perm_skip. exact IH.
Qed.

Lemma sort_with_perm (leb : point -> point -> bool) (l : list point) :
  Permutation (sort_with leb l) l.
Proof.
  unfold sort_with. induction l as [|p l IH]; simpl; [apply perm_nil|].
  apply perm_trans with (p :: fold_right (insert_with leb) [] l).
  - apply insert_with_perm.
  - apply perm_skip. exact IH.
Qed.

Lemma sort_with_In (leb : point -> point -> bool) (l : list point) (p : point) :
  In p (sort_with leb l) <-> In p l.
Proof.
  split; apply Permutation_in;
    [apply sort_with_perm | apply Permutation_sym, sort_with_perm].
Qed.

Lemma key_leb_iff (a b : Z * Z) : key_leb a b = true <-> key_lt a b \/ a = b.
Proof.
  destruct a as [a1 a2], b as [b1 b2]. unfold key_leb, key_lt. simpl.
  rewrite orb_true_iff, andb_true_iff, Z.ltb_lt, Z.eqb_eq, Z.leb_le. split.
  - intros [H|[H1 H2]]; [left; left; exact H|].
    destruct (Z.eq_dec a2 b2) as [->|N]; [right; subst; reflexivity|].
    left; right. lia.
  - intros [[H|[H1 H2]]|E]; [left; exact H | right; lia |].
    inversion E; subst. right. lia.
Qed.

Lemma by_key_total (p q : point) : by_key p q = false -> by_key q p = true.
Proof.
  unfold by_key. intros H. apply key_leb_false_lt in H.
  apply key_leb_iff. left; exact H.
Qed.

Lemma by_key_trans (p q r : point) :
  by_key p q = true -> by_key q r = true -> by_key p r = true.
Proof.
  unfold by_key. rewrite !key_leb_iff. unfold key_lt.
  intros [H1|E1] [H2|E2].
  - left. lia.
  - left. rewrite <- E2. exact H1.
  - left. rewrite E1. exact H2.
  - right. congruence.
Qed.

Lemma insert_by_key_point_sorted (p : point) (l : list point) :
  StronglySorted (fun a b => by_key a b = true) l ->
  StronglySorted (fun a b => by_key a b = true) (insert_with by_key p l).
Proof.
  induction l as [|q l IH]; simpl; intros S; [repeat constructor|].
  inversion S as [|? ? S' F]; subst.
  destruct (by_key p q) eqn:E.
  - constructor; [exact S|]. constructor; [exact E|].
    eapply Forall_impl; [|exact F]. intros r Hr.
    eapply by_key_trans; eassumption.
  - constructor; [apply IH; exact S'|].
    apply Forall_forall. intros r Hr.
    apply (Permutation_in _ (insert_with_perm by_key p l)) in Hr.
    destruct Hr as [<-|Hr]; [apply by_key_total; exact E|].
    rewrite Forall_forall in F. apply F; exact Hr.
Qed.

Lemma sort_by_key_point_sorted (l : list point) :
  StronglySorted (fun a b => by_key a b = true) (sort_with by_key l).
Proof.
  unfold sort_with. induction l as [|p l IH]; simpl; [constructor|].
  apply insert_by_key_point_sorted; exact IH.
Qed.

(** ** The script *)

Section SmoothFacts.
Variable float_of_string : string -> option float.
Variable int_of_string : string -> option Z.
Variable smooth_gaussian : list point -> float -> result smoothed_map.
Variable smooth_moving_average : list point -> Z -> result smoothed_map.
Variable savgol_filter : list float -> Z -> Z -> result (list float).
Variable format_point : float -> float -> float -> Z -> Z -> string.

Let run :=
  Smooth.smooth_horizon float_of_string int_of_string smooth_gaussian
    smooth_moving_average savgol_filter format_point.

Ltac smooth_step :=
  cbv beta iota delta
    [Smooth.io_bind Smooth.print Smooth.lift Smooth.ret Smooth.write_file
     Smooth.sys_exit Smooth.write_smoothed];
  cbn [Smooth.files Smooth.stdout fst snd].

Lemma smooth_read (input_file output_file method : string) (sigma : float)
    (window : Z) (w : Smooth.world) (lines : list string) :
  lookup_file input_file (Smooth.files w) = Some lines ->
  run input_file output_file method sigma window w
  = (let hd := read_lines float_of_string int_of_string lines in
     (if (List.length (snd hd) =? 0)%nat then
        Smooth.print Smooth.MsgNoPoints
      else
        Smooth.io_bind (Smooth.print Smooth.MsgReadTime)
          (fun _ =>
             Smooth.io_bind (Smooth.print (Smooth.MsgSmoothing method))
               (fun _ =>
                  if String.eqb method "gaussian" then
                    Smooth.io_bind (Smooth.lift (smooth_gaussian (snd hd) sigma))
                      (fun smoothed_z =>
                         Smooth.io_bind
                           (Smooth.print (Smooth.MsgGaussianParam sigma))
                           (fun _ =>
                              Smooth.write_smoothed format_point output_file
                                (fst hd) (snd hd) smoothed_z))
                  else if String.eqb method "savgol" then
                    Smooth.io_bind
                      (Smooth.lift (smooth_savgol savgol_filter (snd hd) window 2))
                      (fun smoothed_z =>
                         Smooth.io_bind
                           (Smooth.print (Smooth.MsgSavgolParam window))
                           (fun _ =>
                              Smooth.write_smoothed format_point output_file
                                (fst hd) (snd hd) smoothed_z))
                  else if String.eqb method "moving_average" then
                    Smooth.io_bind
                      (Smooth.lift (smooth_moving_average (snd hd) window))
                      (fun smoothed_z =>
                         Smooth.io_bind
                           (Smooth.print (Smooth.MsgMovingAverageParam window))
                           (fun _ =>
                              Smooth.write_smoothed format_point output_file
                                (fst hd) (snd hd) smoothed_z))
                  else
                    Smooth.io_bind
                      (Smooth.print (Smooth.MsgUnknownMethod method))
                      (fun _ => Smooth.print Smooth.MsgSupportedMethods))))
       (Smooth.mkWorld (Smooth.files w)
          (Smooth.stdout w ++
           [Smooth.MsgRule; Smooth.MsgTitle; Smooth.MsgRule; Smooth.MsgBlank;
            Smooth.MsgReading input_file;
            Smooth.MsgPointsRead (List.length (snd hd))]))).
Proof.
  intros L. unfold run, Smooth.smooth_horizon.
  unfold Smooth.io_bind at 1 2 3 4 5 6. unfold Smooth.print at 1 2 3 4 5.
  cbn [Smooth.files Smooth.stdout].
  unfold Smooth.read_horizon_file. cbn [Smooth.files Smooth.stdout].
  rewrite L. unfold Smooth.ret.
  unfold Smooth.io_bind at 1. unfold Smooth.print at 1.
  cbn [Smooth.files Smooth.stdout]. cbv zeta.
  rewrite <- !app_assoc. reflexivity.
Qed.
End SmoothFacts.

Section SmoothProgram.
Variable float_of_string : string -> option float.
Variable int_of_string : string -> option Z.
Variable smooth_gaussian : list point -> float -> result smoothed_map.
Variable smooth_moving_average : list point -> Z -> result smoothed_map.
Variable savgol_filter : list float -> Z -> Z -> result (list float).
Variable format_point : float -> float -> float -> Z -> Z -> string.

Let run :=
  Smooth.smooth_horizon float_of_string int_of_string smooth_gaussian
    smooth_moving_average savgol_filter format_point.

Let read := read_lines float_of_string int_of_string.

(** The smoother that [method] selects, if it names one. *)
Definition chosen_smoother (method : string) (points : list point)
    (sigma : float) (window : Z) : option (result smoothed_map) :=
  if String.eqb method "gaussian" then Some (smooth_gaussian points sigma)
  else if String.eqb method "savgol"
       then Some (smooth_savgol savgol_filter points window 2)
  else if String.eqb method "moving_average"
       then Some (smooth_moving_average points window)
  else None.

Ltac smooth_io :=
  cbv beta iota delta
    [Smooth.io_bind Smooth.print Smooth.lift Smooth.ret Smooth.write_file
     Smooth.sys_exit Smooth.write_smoothed];
  cbn [Smooth.files Smooth.stdout fst snd].

Ltac smooth_start L :=
  unfold run;
  rewrite (@smooth_read float_of_string int_of_string smooth_gaussian
             smooth_moving_average savgol_filter format_point
             _ _ _ _ _ _ _ L);
  cbv zeta; fold read.

(** X16: when the input file yields no valid data point, the smoothing
    call prints the banner, the file name, the count 0 and the
    empty-input diagnostic, and returns; no smoother runs and every file
    is left as it was. *)
Theorem smooth_empty_input_writes_nothing (input_file output_file : string)
    (method : string) (sigma : float) (window : Z) (w : Smooth.world)
    (lines : list string) :
  lookup_file input_file (Smooth.files w) = Some lines ->
  snd (read lines) = [] ->
  run input_file output_file method sigma window w
  = (Done tt,
     Smooth.mkWorld (Smooth.files w)
       (Smooth.stdout w ++
        [Smooth.MsgRule; Smooth.MsgTitle; Smooth.MsgRule; Smooth.MsgBlank;
         Smooth.MsgReading input_file; Smooth.MsgPointsRead 0;
         Smooth.MsgNoPoints])).
Proof.
  intros L E. smooth_start L. rewrite E. cbn [List.length Nat.eqb].
  smooth_io. rewrite <- app_assoc. reflexivity.
Qed.

(** X17: when the method is none of "gaussian", "savgol" and
    "moving_average", the smoothing call reports the unknown method and
    the supported ones and returns: no smoother runs and no file is
    written. *)
Theorem unknown_method_writes_nothing (input_file output_file : string)
    (method : string) (sigma : float) (window : Z) (w : Smooth.world)
    (lines : list string) :
  lookup_file input_file (Smooth.files w) = Some lines ->
  snd (read lines) <> [] ->
  chosen_smoother method (snd (read lines)) sigma window = None ->
  run input_file output_file method sigma window w
  = (Done tt,
     Smooth.mkWorld (Smooth.files w)
       (Smooth.stdout w ++
        [Smooth.MsgRule; Smooth.MsgTitle; Smooth.MsgRule; Smooth.MsgBlank;
         Smooth.MsgReading input_file;
         Smooth.MsgPointsRead (List.length (snd (read lines)));
         Smooth.MsgReadTime; Smooth.MsgSmoothing method;
         Smooth.MsgUnknownMethod method; Smooth.MsgSupportedMethods])).
Proof.
  intros L NE C. smooth_start L.
  destruct (snd (read lines)) as [|p ps] eqn:P; [contradiction|].
  cbn [List.length Nat.eqb]. unfold chosen_smoother in C.
  destruct (String.eqb method "gaussian"); [discriminate C|].
  destruct (String.eqb method "savgol"); [discriminate C|].
  destruct (String.eqb method "moving_average"); [discriminate C|].
  smooth_io. rewrite <- !app_assoc. reflexivity.
Qed.

(** X18: when the selected smoother returns its mapping, the smoothing
    call writes the text made of the header lines followed by one line
    per input point (points that share a key are all kept), in ascending
    order of (col, row); each line carries the point's own x, y, col and
    row, and as z the smoothed value of its key, or its own z when the
    mapping has none; every other path is left as it was.  When every
    header line is a complete line and the formatting of a point produces
    no line break, the lines of the output are the header lines followed
    by the lines of the points. *)
Theorem smoothed_file_keeps_points (input_file output_file : string)
    (method : string) (sigma : float) (window : Z) (w : Smooth.world)
    (lines : list string) (smoothed_z : smoothed_map) :
  lookup_file input_file (Smooth.files w) = Some lines ->
  snd (read lines) <> [] ->
  chosen_smoother method (snd (read lines)) sigma window
  = Some (Ok smoothed_z) ->
  exists sorted_points w',
    run input_file output_file method sigma window w = (Done tt, w') /\
    lookup_file output_file (Smooth.files w')
    = Some (splitlines
              (String.concat ""
                 (fst (read lines) ++
                  map (Smooth.smoothed_line format_point smoothed_z)
                    sorted_points))) /\
    (Forall ended_line (fst (read lines)) ->
     formats_one_line format_point ->
     lookup_file output_file (Smooth.files w')
     = Some (fst (read lines) ++
             map (Smooth.smoothed_line format_point smoothed_z)
               sorted_points)) /\
    Permutation sorted_points (snd (read lines)) /\
    StronglySorted (fun a b => by_key a b = true) sorted_points /\
    (forall path, path <> output_file ->
                  lookup_file path (Smooth.files w')
                  = lookup_file path (Smooth.files w)).
Proof.
  intros L NE C. exists (sort_with by_key (snd (read lines))).
  assert (R : exists log,
             run input_file output_file method sigma window w
             = (Done tt,
                Smooth.mkWorld
                  (store_file output_file
                     (splitlines
                        (String.concat ""
                           (fst (read lines) ++
                            map (Smooth.smoothed_line format_point smoothed_z)
                              (sort_with by_key (snd (read lines))))))
                     (Smooth.files w))
                  log)).
  { smooth_start L.
    destruct (snd (read lines)) as [|p ps] eqn:P; [contradiction|].
    cbn [List.length Nat.eqb]. unfold chosen_smoother in C.
    destruct (String.eqb method "gaussian").
    - injection C as C. smooth_io. rewrite C. smooth_io. eexists; reflexivity.
    - destruct (String.eqb method "savgol").
      + injection C as C. smooth_io. rewrite C. smooth_io.
        eexists; reflexivity.
      + destruct (String.eqb method "moving_average"); [|discriminate C].
        injection C as C. smooth_io. rewrite C. smooth_io.
        eexists; reflexivity. }
  destruct R as (log & R). eexists. split; [exact R|]. cbn [Smooth.files].
  split; [apply lookup_store_same|].
  split.
  { intros H F. rewrite lookup_store_same, splitlines_concat; [reflexivity|].
    apply Forall_app. split; [exact H|].
    apply Forall_forall. intros l Hl. apply in_map_iff in Hl as (q & <- & _).
    eexists. split; [reflexivity | apply F]. }
  split; [apply sort_with_perm|].
  split; [apply sort_by_key_point_sorted|].
  intros path N. apply lookup_store_other; exact N.
Qed.

(** X19: when the selected smoother raises, the exception leaves the
    smoothing call and no file is written. *)
Theorem smoother_failure_writes_nothing (input_file output_file : string)
    (method : string) (sigma : float) (window : Z) (w : Smooth.world)
    (lines : list string) (e : exn) :
  lookup_file input_file (Smooth.files w) = Some lines ->
  snd (read lines) <> [] ->
  chosen_smoother method (snd (read lines)) sigma window = Some (Raise e) ->
  exists log,
    run input_file output_file method sigma window w
    = (Uncaught e, Smooth.mkWorld (Smooth.files w) log).
Proof.
  intros L NE C. smooth_start L.
  destruct (snd (read lines)) as [|p ps] eqn:P; [contradiction|].
  cbn [List.length Nat.eqb]. unfold chosen_smoother in C.
  destruct (String.eqb method "gaussian").
  - injection C as C. smooth_io. rewrite C. smooth_io. eexists; reflexivity.
  - destruct (String.eqb method "savgol").
    + injection C as C. smooth_io. rewrite C. smooth_io. eexists; reflexivity.
    + destruct (String.eqb method "moving_average"); [|discriminate C].
      injection C as C. smooth_io. rewrite C. smooth_io. eexists; reflexivity.
Qed.
End SmoothProgram.

(** ** Savitzky-Golay on small inputs *)

Lemma fold_result_pure {A S : Type} (f : S -> A -> result S) (g : S -> A -> S)
    (l : list A) :
  (forall s a, In a l -> f s a = Ok (g s a)) ->
  forall s, fold_result f l s = Ok (fold_left g l s).
Proof.
  induction l as [|a l IH]; intros H s; simpl; [reflexivity|].
  rewrite H by (left; reflexivity). simpl. apply IH.
  intros s' a' Ha'. apply H. right; exact Ha'.
Qed.

(** Every value of [d] is the own [z] of an input point with that key. *)
Definition own_values (data : list point) (d : smoothed_map) : Prop :=
  forall k z, Dict.get k d = Some z ->
              exists p, In p data /\ point_key p = k /\ z = pz p.

Lemma own_values_set (data : list point) (d : smoothed_map) (p : point) :
  In p data -> own_values data d ->
  own_values data (Dict.set (point_key p) (pz p) d).
Proof.
  intros Ip O k z G. destruct (key_eq_dec (point_key p) k) as [<-|N].
  - rewrite get_set_same in G. injection G as <-. eauto.
  - rewrite get_set_other in G by exact N. apply O; exact G.
Qed.

Lemma keep_original_spec (data pts : list point) :
  (forall p, In p pts -> In p data) ->
  forall d,
    own_values data d ->
    own_values data (keep_original pts d) /\
    forall k, In k (Dict.keys d) \/ In k (map point_key pts) ->
              In k (Dict.keys (keep_original pts d)).
Proof.
  unfold keep_original.
  induction pts as [|p pts IH]; intros Sub d O; simpl.
  - split; [exact O|]. intros k [H|[]]; exact H.
  - destruct (IH (fun q Hq => Sub q (or_intror Hq))
                (Dict.set (point_key p) (pz p) d)) as [O' K'].
    { apply own_values_set; [apply Sub; left; reflexivity | exact O]. }
    split; [exact O'|]. intros k H. apply K'.
    rewrite In_keys_set. destruct H as [H|[<-|H]]; auto.
Qed.

Lemma keep_missing_spec (data pts : list point) :
  (forall p, In p pts -> In p data) ->
  forall d,
    own_values data d ->
    own_values data (keep_missing pts d) /\
    forall k, In k (Dict.keys d) -> In k (Dict.keys (keep_missing pts d)).
Proof.
  unfold keep_missing.
  induction pts as [|p pts IH]; intros Sub d O; simpl.
  - split; [exact O | auto].
  - destruct (Dict.mem (point_key p) d).
    + apply IH; [intros q Hq; apply Sub; right; exact Hq | exact O].
    + destruct (IH (fun q Hq => Sub q (or_intror Hq))
                  (Dict.set (point_key p) (pz p) d)) as [O' K'].
      { apply own_values_set; [apply Sub; left; reflexivity | exact O]. }
      split; [exact O'|]. intros k H. apply K'.
      rewrite In_keys_set. tauto.
Qed.

Lemma same_key_same_point (data : list point) (p q : point) :
  NoDup (map point_key data) -> In p data -> In q data ->
  point_key p = point_key q -> p = q.
Proof.
  induction data as [|a data IH]; simpl; intros ND Ip Iq E; [destruct Ip|].
  inversion ND as [|? ? N ND']; subst.
  destruct Ip as [<-|Ip], Iq as [<-|Iq].
  - reflexivity.
  - exfalso. apply N. rewrite E. apply in_map; exact Iq.
  - exfalso. apply N. rewrite <- E. apply in_map; exact Ip.
  - apply IH; assumption.
Qed.

Section SavgolFacts.
Variable savgol_filter : list float -> Z -> Z -> result (list float).
Variable data : list point.
Variable window polyorder : Z.

Let w := odd_window window.

Hypothesis short_columns :
  forall c, Z.of_nat (List.length (filter (fun p => pcol p =? c) data)) < w.
Hypothesis short_rows :
  forall r, Z.of_nat (List.length (filter (fun p => prow p =? r) data)) < w.

Let col_points (col : Z) :=
  sort_with by_row (filter (fun p => pcol p =? col) data).
Let row_points (row : Z) :=
  sort_with by_col (filter (fun p => prow p =? row) data).

Lemma savgol_column_short (d : smoothed_map) (col : Z) :
  savgol_column savgol_filter data w polyorder d col
  = Ok (keep_original (col_points col) d).
Proof.
  unfold savgol_column. fold (col_points col).
  replace (w <=? Z.of_nat (List.length (col_points col))) with false;
    [reflexivity|].
  symmetry. apply Z.leb_gt. unfold col_points.
  rewrite (Permutation_length (sort_with_perm by_row _)). apply short_columns.
Qed.

Lemma savgol_row_short (d : smoothed_map) (row : Z) :
  savgol_row savgol_filter data w polyorder d row
  = Ok (keep_missing (row_points row) d).
Proof.
  unfold savgol_row. fold (row_points row).
  replace (w <=? Z.of_nat (List.length (row_points row))) with false;
    [reflexivity|].
  symmetry. apply Z.leb_gt. unfold row_points.
  rewrite (Permutation_length (sort_with_perm by_col _)). apply short_rows.
Qed.

Lemma col_points_sub (col : Z) (p : point) : In p (col_points col) -> In p data.
Proof.
  unfold col_points. rewrite sort_with_In, filter_In. tauto.
Qed.

Lemma row_points_sub (row : Z) (p : point) : In p (row_points row) -> In p data.
Proof.
  unfold row_points. rewrite sort_with_In, filter_In. tauto.
Qed.

Lemma columns_loop (cols : list Z) :
  forall d,
    own_values data d ->
    own_values data (fold_left (fun d col => keep_original (col_points col) d) cols d) /\
    forall p, In p data ->
              In (point_key p) (Dict.keys d) \/ In (pcol p) cols ->
              In (point_key p)
                (Dict.keys
                   (fold_left (fun d col => keep_original (col_points col) d)
                      cols d)).
Proof.
  induction cols as [|c cols IH]; intros d O; simpl.
  - split; [exact O|]. intros p _ [H|[]]; exact H.
  - destruct (@keep_original_spec data (col_points c) (col_points_sub c) d O)
      as [O1 K1].
    destruct (IH _ O1) as [O2 K2]. split; [exact O2|].
    intros p Ip H. apply K2; [exact Ip|].
    destruct H as [H|[Ec|H]]; [left; apply K1; left; exact H | | right; exact H].
    left. apply K1. right. apply in_map. unfold col_points.
    apply sort_with_In. apply filter_In. split; [exact Ip|].
    apply Z.eqb_eq. symmetry; exact Ec.
Qed.

Lemma rows_loop (rows : list Z) :
  forall d,
    own_values data d ->
    own_values data (fold_left (fun d row => keep_missing (row_points row) d) rows d) /\
    forall k, In k (Dict.keys d) ->
              In k (Dict.keys
                      (fold_left (fun d row => keep_missing (row_points row) d)
                         rows d)).
Proof.
  induction rows as [|r rows IH]; intros d O; simpl; [auto|].
  destruct (@keep_missing_spec data (row_points r) (row_points_sub r) d O)
    as [O1 K1].
  destruct (IH _ O1) as [O2 K2]. split; [exact O2 | auto].
Qed.

Lemma smooth_savgol_short :
  exists d,
    smooth_savgol savgol_filter data window polyorder = Ok d /\
    own_values data d /\
    forall p, In p data -> In (point_key p) (Dict.keys d).
Proof.
  unfold smooth_savgol. fold w.
  rewrite (fold_result_pure
             (savgol_column savgol_filter data w polyorder)
             (fun d col => keep_original (col_points col) d))
    by (intros; apply savgol_column_short).
  simpl bind.
  rewrite (fold_result_pure
             (savgol_row savgol_filter data w polyorder)
             (fun d row => keep_missing (row_points row) d))
    by (intros; apply savgol_row_short).
  eexists. split; [reflexivity|].
  destruct (@columns_loop (sorted_set (map pcol data)) [])
    as [O1 K1]; [intros k z G; discriminate G|].
  destruct (@rows_loop (sorted_set (map prow data)) _ O1) as [O2 K2].
  split; [exact O2|]. intros p Ip. apply K2. apply K1; [exact Ip|].
  right. apply sorted_set_In. apply in_map; exact Ip.
Qed.
End SavgolFacts.

(** X20: Savitzky-Golay smoothing leaves a small input alone.  When the
    input points have pairwise distinct keys and every column and every
    row holds fewer points than the window (made odd), the smoother
    returns without calling the filter, and its mapping gives every
    input point its own z and has no other key. *)
Theorem savgol_keeps_small_input
    (savgol_filter : list float -> Z -> Z -> result (list float))
    (data : list point) (window polyorder : Z) :
  NoDup (map point_key data) ->
  (forall c, Z.of_nat (List.length (filter (fun p => pcol p =? c) data))
             < odd_window window) ->
  (forall r, Z.of_nat (List.length (filter (fun p => prow p =? r) data))
             < odd_window window) ->
  exists d,
    smooth_savgol savgol_filter data window polyorder = Ok d /\
    (forall p, In p data -> Dict.get (point_key p) d = Some (pz p)) /\
    (forall k, In k (Dict.keys d) -> In k (map point_key data)).
Proof.
  intros ND Hc Hr.
  destruct (@smooth_savgol_short savgol_filter data window polyorder Hc Hr)
    as (d & E & O & K).
  exists d. split; [exact E|]. split.
  - intros p Ip. specialize (K p Ip).
    destruct (Dict.get (point_key p) d) as [z|] eqn:G.
    + destruct (O _ _ G) as (q & Iq & Eq & ->).
      rewrite (@same_key_same_point data q p ND Iq Ip Eq). reflexivity.
    + apply get_None_keys in G. contradiction.
  - intros k Ik. destruct (Dict.get k d) as [z|] eqn:G.
    + destruct (O _ _ G) as (q & Iq & <- & _). apply in_map; exact Iq.
    + apply get_None_keys in G. contradiction.
Qed.

Lemma smooth_empty_input_writes_nothing_witness :
  Smooth.smooth_horizon decimal_float decimal_int
    (fun _ _ => Ok []) (fun _ _ => Ok []) (fun zs _ _ => Ok zs)
    (fun _ _ _ _ _ => "point"%string)
    "in.dat" "out.dat" "gaussian" 1 3 smooth_pointless_world
  = (Done tt,
     Smooth.mkWorld (Smooth.files smooth_pointless_world)
       [Smooth.MsgRule; Smooth.MsgTitle; Smooth.MsgRule; Smooth.MsgBlank;
        Smooth.MsgReading "in.dat"; Smooth.MsgPointsRead 0;
        Smooth.MsgNoPoints]).
Proof.
  apply (@smooth_empty_input_writes_nothing decimal_float decimal_int
           (fun _ _ => Ok []) (fun _ _ => Ok []) (fun zs _ _ => Ok zs)
           (fun _ _ _ _ _ => "point"%string)
           "in.dat"%string "out.dat"%string "gaussian"%string 1%float 3
           smooth_pointless_world
           pointless_file);
    reflexivity.
Defined.

Lemma unknown_method_writes_nothing_witness :
  Smooth.smooth_horizon decimal_float decimal_int
    (fun _ _ => Ok []) (fun _ _ => Ok []) (fun zs _ _ => Ok zs)
    (fun _ _ _ _ _ => "point"%string)
    "in.dat" "out.dat" "median" 1 3 smooth_square_world
  = (Done tt,
     Smooth.mkWorld (Smooth.files smooth_square_world)
       [Smooth.MsgRule; Smooth.MsgTitle; Smooth.MsgRule; Smooth.MsgBlank;
        Smooth.MsgReading "in.dat"; Smooth.MsgPointsRead 4;
        Smooth.MsgReadTime; Smooth.MsgSmoothing "median";
        Smooth.MsgUnknownMethod "median"; Smooth.MsgSupportedMethods]).
Proof.
  apply (@unknown_method_writes_nothing decimal_float decimal_int
           (fun _ _ => Ok []) (fun _ _ => Ok []) (fun zs _ _ => Ok zs)
           (fun _ _ _ _ _ => "point"%string)
           "in.dat"%string "out.dat"%string "median"%string 1%float 3
           smooth_square_world square_file);
    [reflexivity | vm_compute; discriminate | reflexivity].
Defined.

Lemma smoothed_file_keeps_points_witness :
  exists smoothed_z,
    smooth_savgol (fun zs _ _ => Ok zs)
      (snd (read_lines decimal_float decimal_int square_file)) 3 2
    = Ok smoothed_z /\
    exists sorted_points w',
      Smooth.smooth_horizon decimal_float decimal_int
        (fun _ _ => Ok []) (fun _ _ => Ok []) (fun zs _ _ => Ok zs)
        (fun _ _ _ _ _ => "point"%string)
        "in.dat" "out.dat" "savgol" 1 3 smooth_square_world = (Done tt, w') /\
      lookup_file "out.dat" (Smooth.files w')
      = Some (fst (read_lines decimal_float decimal_int square_file) ++
              map (Smooth.smoothed_line (fun _ _ _ _ _ => "point"%string)
                     smoothed_z) sorted_points) /\
      Permutation sorted_points
        (snd (read_lines decimal_float decimal_int square_file)) /\
      StronglySorted (fun a b => by_key a b = true) sorted_points /\
      (forall path, path <> "out.dat"%string ->
                    lookup_file path (Smooth.files w')
                    = lookup_file path (Smooth.files smooth_square_world)).
Proof.
  destruct (smooth_savgol (fun zs _ _ => Ok zs)
              (snd (read_lines decimal_float decimal_int square_file)) 3 2)
    as [smoothed_z|] eqn:E; [|vm_compute in E; discriminate E].
  exists smoothed_z. split; [reflexivity|].
  destruct (@smoothed_file_keeps_points decimal_float decimal_int
              (fun _ _ => Ok []) (fun _ _ => Ok []) (fun zs _ _ => Ok zs)
              (fun _ _ _ _ _ => "point"%string)
              "in.dat"%string "out.dat"%string "savgol"%string 1%float 3
              smooth_square_world square_file smoothed_z eq_refl)
    as (sorted_points & w' & R & _ & Hl & H);
    [vm_compute; discriminate
    | unfold chosen_smoother; cbn [String.eqb Ascii.eqb Bool.eqb];
      rewrite E; reflexivity |].
  exists sorted_points, w'. split; [exact R|]. split; [|exact H].
  apply Hl.
  - change (fst (read_lines decimal_float decimal_int square_file))
      with (ended ["# Horizon A"; "# End:"]%string).
    apply ended_lines. reflexivity.
  - intros x y z col row. reflexivity.
Defined.

Lemma smoother_failure_writes_nothing_witness :
  exists log,
    Smooth.smooth_horizon decimal_float decimal_int
      (fun _ _ => Raise LibraryError) (fun _ _ => Ok []) (fun zs _ _ => Ok zs)
      (fun _ _ _ _ _ => "point"%string)
      "in.dat" "out.dat" "gaussian" 1 3 smooth_square_world
    = (Uncaught LibraryError,
       Smooth.mkWorld (Smooth.files smooth_square_world) log).
Proof.
  apply (@smoother_failure_writes_nothing decimal_float decimal_int
           (fun _ _ => Raise LibraryError) (fun _ _ => Ok [])
           (fun zs _ _ => Ok zs) (fun _ _ _ _ _ => "point"%string)
           "in.dat"%string "out.dat"%string "gaussian"%string 1%float 3
           smooth_square_world square_file);
    [reflexivity | vm_compute; discriminate | reflexivity].
Defined.

Lemma savgol_keeps_small_input_witness :
  exists d,
    smooth_savgol (fun _ _ _ => Raise LibraryError) square_input 3 2 = Ok d /\
    (forall p, In p square_input -> Dict.get (point_key p) d = Some (pz p)) /\
    (forall k, In k (Dict.keys d) -> In k (map point_key square_input)).
Proof.
  apply savgol_keeps_small_input.
  - unfold square_input, point_key. cbn [map pcol prow].
    repeat (constructor; [simpl; intuition congruence|]). constructor.
  - intros c. unfold square_input. cbn [filter pcol].
    destruct (0 =? c) eqn:E0; destruct (4 =? c) eqn:E4;
      try (vm_compute; reflexivity).
    apply Z.eqb_eq in E0, E4. lia.
  - intros r. unfold square_input. cbn [filter prow].
    destruct (0 =? r) eqn:E0; destruct (4 =? r) eqn:E4;
      try (vm_compute; reflexivity).
    apply Z.eqb_eq in E0, E4. lia.
Defined.
